(** * Image processing API: the metadata transform pipeline

  A shallow embedding of [server.js] (the variant that fabricates EXIF and
  GPS metadata) and of its sibling variant that strips metadata, with the
  properties of the coordinate encoder and of the request orchestrator.

  JavaScript numbers are IEEE 754 binary64 values.  They are modelled with
  the Standard Library's [SpecFloat] (precision 53, [emax] 1024), so every
  arithmetic step of [convertGPSToExif] rounds exactly as the engine does. *)

From Stdlib Require Import ZArith QArith Qpower Qround Qabs Lia Lqa Bool List.
From Stdlib Require Import String Ascii.
From Stdlib Require Import SpecFloat.
From Stdlib Require Import DecimalString DecimalN.
From stdpp Require gmap.
Import ListNotations.

Open Scope Z_scope.

(** ** JavaScript numbers *)

Module Number.

Definition prec : Z := 53.
Definition emax : Z := 1024.

Definition number : Type := spec_float.

Definition NaN : number := S754_nan.

(** An integer literal (or an integer converted to a Number): the nearest
    binary64 value, exact below [2^53]. *)
Definition of_Z (z : Z) : number := binary_normalize prec emax z 0 false.

Definition add : number -> number -> number := SFadd prec emax.
Definition sub : number -> number -> number := SFsub prec emax.
Definition mul : number -> number -> number := SFmul prec emax.
Definition div : number -> number -> number := SFdiv prec emax.
Definition neg : number -> number := SFopp.

(** [x >= y]; false when either side is NaN. *)
Definition ge (x y : number) : bool := SFleb y x.

Definition is_finite (x : number) : bool :=
  match x with
  | S754_zero _ | S754_finite _ _ _ => true
  | _ => false
  end.

(** A well-formed finite Number: zero, or a canonical mantissa and exponent. *)
Definition finite (x : number) : Prop :=
  is_finite x = true /\ valid_binary prec emax x = true.

(** The real number a finite Number denotes (0 for the others). *)
Definition pow2 (e : Z) : Q := Qpower 2 e.

Definition value (x : number) : Q :=
  match x with
  | S754_finite s m e => inject_Z (cond_Zopp s (Zpos m)) * pow2 e
  | _ => 0
  end.

Definition Math_abs : number -> number := SFabs.

(** [Math.floor]: the greatest integer not above [x]; an integral [x],
    a zero, an infinity and NaN are returned unchanged. *)
Definition Math_floor (x : number) : number :=
  match x with
  | S754_finite s m e =>
      if 0 <=? e then x
      else binary_normalize prec emax
             (Z.shiftr (cond_Zopp s (Zpos m)) (- e)) 0 false
  | _ => x
  end.

(** [Math.round]: [floor (x + 1/2)] computed exactly; a result of zero
    keeps the sign of [x]. *)
Definition Math_round (x : number) : number :=
  match x with
  | S754_finite s m e =>
      if 0 <=? e then x
      else binary_normalize prec emax
             (Z.shiftr (2 * cond_Zopp s (Zpos m) + 2 ^ (- e)) (1 - e)) 0 s
  | _ => x
  end.

(** *** [Number.prototype.toFixed] with two fraction digits *)

(** The integer [n] for which [n / 100 - m * 2^e] is closest to zero,
    the larger one when two are equally close. *)
Definition fixed_digits (m : positive) (e : Z) : Z :=
  if 0 <=? e then 100 * Zpos m * 2 ^ e
  else Z.shiftr (2 * (100 * Zpos m) + 2 ^ (- e)) (1 - e).

Definition ge_1e21 (m : positive) (e : Z) : bool :=
  if 0 <=? e then 10 ^ 21 <=? Zpos m * 2 ^ e
  else 10 ^ 21 * 2 ^ (- e) <=? Zpos m.

Definition decimal_digits (n : Z) : string :=
  NilZero.string_of_uint (N.to_uint (Z.to_N n)).

Fixpoint zeros (k : nat) : string :=
  match k with
  | O => EmptyString
  | S k' => String "0" (zeros k')
  end.

(** Steps 9.b to 9.c of the algorithm for [f = 2]: left-pad the digits to
    three characters and put the point before the last two. *)
Definition place_point (digits : string) : string :=
  let k := String.length digits in
  let padded := if (k <=? 2)%nat then (zeros (3 - k) ++ digits)%string
                else digits in
  let k := String.length padded in
  (substring 0 (k - 2) padded ++ "." ++ substring (k - 2) 2 padded)%string.

(** [None] stands for the one case left out of the model: a finite
    magnitude of [10^21] or more, where [toFixed] falls back to
    [Number::toString].  [convertGPSToExif] never reaches it. *)
Definition toFixed2 (x : number) : option string :=
  match x with
  | S754_nan => Some "NaN"%string
  | S754_infinity false => Some "Infinity"%string
  | S754_infinity true => Some "-Infinity"%string
  | S754_zero _ => Some (place_point (decimal_digits 0))
  | S754_finite s m e =>
      if ge_1e21 m e then None
      else Some ((if s then "-" else EmptyString)
                   ++ place_point (decimal_digits (fixed_digits m e)))%string
  end.

(** *** [parseFloat] *)

Definition digit_of (c : ascii) : option Z :=
  let n := Z.of_nat (nat_of_ascii c) in
  if (48 <=? n) && (n <=? 57) then Some (n - 48) else None.

(** Reads the longest run of decimal digits; returns the accumulated
    integer, the number of digits read and the rest of the string. *)
Fixpoint scan_digits (s : string) (acc count : Z) : Z * Z * string :=
  match s with
  | String c r =>
      match digit_of c with
      | Some d => scan_digits r (10 * acc + d) (count + 1)
      | None => (acc, count, s)
      end
  | EmptyString => (acc, count, s)
  end.

Definition is_white (c : ascii) : bool :=
  let n := nat_of_ascii c in
  ((9 <=? n) && (n <=? 13) || (n =? 32) || (n =? 160))%nat.

Fixpoint trim_start (s : string) : string :=
  match s with
  | String c r => if is_white c then trim_start r else s
  | EmptyString => s
  end.

(** The binary64 value nearest to [p / q] (ties to even): the division of
    two exact integers, rounded once. *)
Definition round_ratio (sign : bool) (p q : positive) : number :=
  SFdiv prec emax (S754_finite sign p 0) (S754_finite false q 0).

Definition scan_exponent (s : string) : Z :=
  match s with
  | String c r =>
      if (Ascii.eqb c "e" || Ascii.eqb c "E")%bool then
        let '(sg, r') :=
          match r with
          | String "-" t => (-1, t)
          | String "+" t => (1, t)
          | _ => (1, r)
          end in
        let '(x, cnt, _) := scan_digits r' 0 0 in
        if cnt =? 0 then 0 else sg * x
      else 0
  | EmptyString => 0
  end.

Definition parseFloat (str : string) : number :=
  let s := trim_start str in
  let '(sign, s) :=
    match s with
    | String "-" r => (true, r)
    | String "+" r => (false, r)
    | _ => (false, s)
    end in
  if prefix "Infinity" s then S754_infinity sign
  else
    let '(ip, ic, s1) := scan_digits s 0 0 in
    let '(fp, fc, s2) :=
      match s1 with
      | String "." r => scan_digits r ip 0
      | _ => (ip, 0, s1)
      end in
    if ic + fc =? 0 then NaN
    else
      let x := scan_exponent s2 - fc in
      match fp with
      | Zpos p =>
          if 0 <=? x
          then binary_normalize prec emax (cond_Zopp sign (Zpos p * 10 ^ x)) 0 sign
          else round_ratio sign p (Z.to_pos (10 ^ (- x)))
      | _ => S754_zero sign
      end.

End Number.

Import Number.

(** ** The coordinate encoder *)

(** A rational of the metadata format: the two-element array
  [[numerator, denominator]]. *)
Definition rational : Type := (number * number)%type.

Record GpsData : Type := mkGpsData {
latRef : string;
lngRef : string;
lat : list rational;
lng : list rational
}.

Definition convertGPSToExif (lat lng : number) : option GpsData :=
let latRef := if ge lat (of_Z 0) then "N"%string else "S"%string in
let lngRef := if ge lng (of_Z 0) then "E"%string else "W"%string in
let absLat := Math_abs lat in
let absLng := Math_abs lng in
let latDeg := Math_floor absLat in
let latMin := Math_floor (mul (sub absLat latDeg) (of_Z 60)) in
match toFixed2 (mul (sub (sub absLat latDeg) (div latMin (of_Z 60))) (of_Z 3600)) with
| None => None
| Some latSec =>
    let lngDeg := Math_floor absLng in
    let lngMin := Math_floor (mul (sub absLng lngDeg) (of_Z 60)) in
    match toFixed2 (mul (sub (sub absLng lngDeg) (div lngMin (of_Z 60))) (of_Z 3600)) with
    | None => None
    | Some lngSec =>
        Some {| latRef := latRef;
                lngRef := lngRef;
                lat := [ (latDeg, of_Z 1); (latMin, of_Z 1);
                         (Math_round (mul (parseFloat latSec) (of_Z 100)), of_Z 100) ];
                lng := [ (lngDeg, of_Z 1); (lngMin, of_Z 1);
                         (Math_round (mul (parseFloat lngSec) (of_Z 100)), of_Z 100) ] |}
    end
end.

(** The fixed coordinates of [FIXED_EXIF], as the literals are read. *)
Definition GPSLatitude : number := parseFloat "40.748817".
Definition GPSLongitude : number := neg (parseFloat "73.985428").

(** ** Request parameters *)

Definition dquote : string := String (ascii_of_nat 34) EmptyString.

(** *** [parseInt] with no radix argument

  The result is an integral Number or NaN.  The model keeps the
  mathematical integer ([None] is NaN): the tests [|| 75], [< 0] and
  [> 100] give the same answer on it as on its binary64 rounding, and the
  integers that survive them (1 to 100) are exact. *)
Module Quality.

Definition digit_in (radix : Z) (c : ascii) : option Z :=
  let n := Z.of_nat (nat_of_ascii c) in
  let d := if (48 <=? n) && (n <=? 57) then n - 48
           else if (97 <=? n) && (n <=? 122) then n - 87
           else if (65 <=? n) && (n <=? 90) then n - 55
           else 36 in
  if d <? radix then Some d else None.

Fixpoint scan_int (radix : Z) (s : string) (acc : option Z) : option Z :=
  match s with
  | String c r =>
      match digit_in radix c with
      | Some d =>
          scan_int radix r
            (Some (radix * match acc with Some a => a | None => 0 end + d))
      | None => acc
      end
  | EmptyString => acc
  end.

Definition ToString (v : option string) : string :=
  match v with
  | Some s => s
  | None => "undefined"
  end.

Definition parseInt (v : option string) : option Z :=
  let s := trim_start (ToString v) in
  let '(sign, s) :=
    match s with
    | String "-" r => (-1, r)
    | String "+" r => (1, r)
    | _ => (1, s)
    end in
  let '(radix, s) :=
    match s with
    | String "0" (String "x" r) => (16, r)
    | String "0" (String "X" r) => (16, r)
    | _ => (10, s)
    end in
  match scan_int radix s None with
  | Some z => Some (sign * z)
  | None => None
  end.

(** [let quality = parseInt(req.body.quality) || 75;
     if (quality < 0 || quality > 100) quality = 75;] *)
Definition effective_quality (field : option string) : Z :=
  let quality :=
    match parseInt field with
    | Some z => if z =? 0 then 75 else z
    | None => 75
    end in
  if (quality <? 0) || (100 <? quality) then 75 else quality.

End Quality.

(** *** [path.parse(p).name] (the POSIX flavour of Node's [path] module)

  The scan runs from the last character towards the first and keeps the
  five variables of the library's loop. *)
Module Path.

Definition slash : ascii := "/".
Definition dot : ascii := ".".

Record scan : Type := mkScan {
  startDot : Z;
  startPart : Z;
  end_ : Z;
  matchedSlash : bool;
  preDotState : Z
}.

Definition init : scan :=
  {| startDot := -1; startPart := 0; end_ := -1;
     matchedSlash := true; preDotState := 0 |}.

(** One iteration at index [i] on character [c]; [inl] is [break]. *)
Definition step (i : Z) (c : ascii) (st : scan) : scan + scan :=
  if Ascii.eqb c slash then
    if negb (matchedSlash st)
    then inl {| startDot := startDot st; startPart := i + 1; end_ := end_ st;
                matchedSlash := matchedSlash st; preDotState := preDotState st |}
    else inr st
  else
    let st :=
      if end_ st =? -1
      then {| startDot := startDot st; startPart := startPart st; end_ := i + 1;
              matchedSlash := false; preDotState := preDotState st |}
      else st in
    if Ascii.eqb c dot then
      if startDot st =? -1
      then inr {| startDot := i; startPart := startPart st; end_ := end_ st;
                  matchedSlash := matchedSlash st; preDotState := preDotState st |}
      else if negb (preDotState st =? 1)
      then inr {| startDot := startDot st; startPart := startPart st; end_ := end_ st;
                  matchedSlash := matchedSlash st; preDotState := 1 |}
      else inr st
    else if negb (startDot st =? -1)
    then inr {| startDot := startDot st; startPart := startPart st; end_ := end_ st;
                matchedSlash := matchedSlash st; preDotState := -1 |}
    else inr st.

(** [for (; i >= start; --i)]: [rchars] holds the characters at the
    indices [i], [i - 1], ..., [start]. *)
Fixpoint loop (rchars : list ascii) (i : Z) (st : scan) : scan :=
  match rchars with
  | [] => st
  | c :: rest =>
      match step i c st with
      | inl st' => st'
      | inr st' => loop rest (i - 1) st'
      end
  end.

Definition slice (path : list ascii) (from to : Z) : list ascii :=
  firstn (Z.to_nat (to - from)) (skipn (Z.to_nat from) path).

Definition parse_name (path : list ascii) : list ascii :=
  match path with
  | [] => []
  | c0 :: _ =>
      let isAbsolute := Ascii.eqb c0 slash in
      let start := if isAbsolute then 1 else 0 in
      let st := loop (rev (skipn (Z.to_nat start) path))
                     (Z.of_nat (List.length path) - 1) init in
      if negb (end_ st =? -1) then
        let start := if (startPart st =? 0) && isAbsolute then 1 else startPart st in
        if (startDot st =? -1)
           || (preDotState st =? 0)
           || ((preDotState st =? 1)
               && (startDot st =? end_ st - 1)
               && (startDot st =? startPart st + 1))
        then slice path start (end_ st)
        else slice path start (startDot st)
      else []
  end.

Definition name (path : string) : string :=
  string_of_list_ascii (parse_name (list_ascii_of_string path)).

End Path.

(** [const newFilename = `${baseName}.webp`;] *)
Definition newFilename (originalName : string) : string :=
(Path.name originalName ++ ".webp")%string.

(** ** The metadata record *)

Module Exif.
Import stdpp.base stdpp.gmap.
Local Open Scope Z_scope.

(** A tag value: text, or an array of rationals. *)
Inductive tag_value : Type :=
| Text (s : string)
| Rationals (l : list rational).

(** An IFD object: tag number to value. *)
Definition ifd : Type := gmap Z tag_value.

(** [{ "0th": zeroth, "Exif": exif, "GPS": gps }] *)
Record exifObj : Type := mkExifObj {
  ifd_0th : ifd;
  ifd_Exif : ifd;
  ifd_GPS : ifd
}.

(** The tag numbers [piexifjs.ImageIFD] and [piexifjs.GPSIFD] export
    (those of the EXIF standard). *)
Definition ImageIFD_Make : Z := 271.
Definition ImageIFD_Model : Z := 272.
Definition ImageIFD_Software : Z := 305.
Definition GPSIFD_GPSLatitudeRef : Z := 1.
Definition GPSIFD_GPSLatitude : Z := 2.
Definition GPSIFD_GPSLongitudeRef : Z := 3.
Definition GPSIFD_GPSLongitude : Z := 4.

Record fixed_exif : Type := mkFixed {
  Make : string;
  Model : string;
  Software : string;
  FixedLatitude : number;
  FixedLongitude : number
}.

Definition FIXED_EXIF : fixed_exif :=
  {| Make := "Canon";
     Model := "Canon EOS 5D Mark IV";
     Software := "Adobe Photoshop Lightroom";
     FixedLatitude := GPSLatitude;
     FixedLongitude := GPSLongitude |}.

(** The object [injectExifIntoJpeg] builds before it calls [piexifjs.dump]. *)
Definition build_exifObj : option exifObj :=
  let zeroth : ifd := ∅ in
  let exif : ifd := ∅ in
  let gps : ifd := ∅ in
  let zeroth := <[ImageIFD_Make := Text (Make FIXED_EXIF)]> zeroth in
  let zeroth := <[ImageIFD_Model := Text (Model FIXED_EXIF)]> zeroth in
  let zeroth := <[ImageIFD_Software := Text (Software FIXED_EXIF)]> zeroth in
  match convertGPSToExif (FixedLatitude FIXED_EXIF) (FixedLongitude FIXED_EXIF) with
  | None => None
  | Some gpsData =>
      let gps := <[GPSIFD_GPSLatitudeRef := Text (latRef gpsData)]> gps in
      let gps := <[GPSIFD_GPSLatitude := Rationals (lat gpsData)]> gps in
      let gps := <[GPSIFD_GPSLongitudeRef := Text (lngRef gpsData)]> gps in
      let gps := <[GPSIFD_GPSLongitude := Rationals (lng gpsData)]> gps in
      Some {| ifd_0th := zeroth; ifd_Exif := exif; ifd_GPS := gps |}
  end.

End Exif.

(** ** The request handlers *)

Module Server.

Definition Buffer : Type := list Byte.byte.

(** The outcome of a library call that may throw an [Error]. *)
Inductive Result (A : Type) : Type :=
| Ok (a : A)
| Throw (message : string).
Arguments Ok {A} a.
Arguments Throw {A} message.

(** *** The upload, as multer hands it over *)

Record File : Type := mkFile {
  originalname : string;
  mimetype : string;
  buffer : Buffer
}.

(** The multipart form, as far as the route looks at it: the file part
    under the field name [image], the text field [quality], and the field
    name of a file part that [upload.single('image')] does not expect (one
    under another name, or a second one under [image]). *)
Record Request : Type := mkRequest {
  image_part : option File;
  body_quality : option string;
  unexpected_file : option string
}.

Inductive UploadError : Type :=
| MulterError (code message : string)
| PlainError (message : string).

Definition fileSize_limit : Z := 50 * 1024 * 1024.

Definition allowedMimes : list string :=
  [ "image/jpeg"; "image/jpg"; "image/png" ]%string.

Definition includes (l : list string) (s : string) : bool :=
  existsb (String.eqb s) l.

Definition invalid_type_message : string :=
  "Invalid file type. Only JPG and PNG are allowed.".

Definition fileFilter (file : File) : Result bool :=
  if includes allowedMimes (mimetype file) then Ok true
  else Throw invalid_type_message.

(** The limit the multipart parser puts on the value of a text field when
    [limits] does not set [fieldSize], as here: 1 MiB. *)
Definition fieldSize_default : Z := 1024 * 1024.

Definition field_too_long (value : option string) : bool :=
  match value with
  | Some s => fieldSize_default <? Z.of_nat (String.length s)
  | None => false
  end.

(** A value, if any, that stays below the limit. *)
Definition field_within_limit (value : option string) : bool :=
  match value with
  | Some s => Z.of_nat (String.length s) <? fieldSize_default
  | None => true
  end.

(** What multer raises for the parts other than the image part: a file
    part it does not expect, a text field cut at the size limit. *)
Definition other_parts (req : Request) : option UploadError :=
  match unexpected_file req with
  | Some _ => Some (MulterError "LIMIT_UNEXPECTED_FILE" "Unexpected file field")
  | None =>
      if field_too_long (body_quality req)
      then Some (MulterError "LIMIT_FIELD_VALUE" "Field value too long")
      else None
  end.

(** [upload.single('image')]: the filter runs on the part's header, the
    size limit while its bytes are read.  The first error ends the upload;
    the image part is taken to come first in the form, so that its error,
    if it has one, is the one reported. *)
Definition upload_single (req : Request) : UploadError + option File :=
  match image_part req with
  | None =>
      match other_parts req with
      | Some error => inl error
      | None => inr None
      end
  | Some file =>
      match fileFilter file with
      | Throw message => inl (PlainError message)
      | Ok _ =>
          if fileSize_limit <? Z.of_nat (List.length (buffer file))
          then inl (MulterError "LIMIT_FILE_SIZE" "File too large")
          else
            match other_parts req with
            | Some error => inl error
            | None => inr (Some file)
            end
      end
  end.

(** *** Responses and the trace of a request *)

Inductive Response : Type :=
| JsonResponse (status : Z) (body : list (string * string))
| FileResponse (headers : list (string * string)) (body : Buffer).

Inductive Format : Type :=
| Jpeg (quality : Z)
| Webp (quality effort : Z).

(** A [sharp(input) ... .toBuffer()] chain.  [metadata] is the argument
    of [.withMetadata(...)], [None] when the chain does not call it. *)
Record SharpCall : Type := mkSharp {
  input : Buffer;
  metadata : option bool;
  output : Format
}.

Inductive Event : Type :=
| Sharp (call : SharpCall)
| PiexifDump (record : Exif.exifObj)
| PiexifInsert (exifBytes dataUrl : string)
| ConsoleError (label message : string)
| Respond (r : Response).

(** A piece of handler code: the events it performs and how it ends. *)
Inductive Ending (A : Type) : Type :=
| Value (a : A)
| Returned
| Raised (message : string).
Arguments Value {A} a.
Arguments Returned {A}.
Arguments Raised {A} message.

Definition Script (A : Type) : Type := (list Event * Ending A)%type.

Definition ret {A} (a : A) : Script A := ([], Value a).

Definition bind {A B} (m : Script A) (k : A -> Script B) : Script B :=
  match m with
  | (t, Value a) => let '(t', r) := k a in (t ++ t', r)
  | (t, Returned) => (t, Returned)
  | (t, Raised e) => (t, Raised e)
  end.

Notation "x <- m ;; k" := (bind m (fun x => k))
  (at level 61, m at next level, right associativity).
Notation "m ;;; k" := (bind m (fun _ => k))
  (at level 61, right associativity).

Definition emit (e : Event) : Script unit := ([e], Value tt).

(** [return res.status(s).json(body)] *)
Definition return_json {A} (status : Z) (body : list (string * string)) : Script A :=
  ([Respond (JsonResponse status body)], Returned).

Definition throw {A} (message : string) : Script A := ([], Raised message).

(** [try { body } catch (error) { handler error }] *)
Definition try_catch {A} (body : Script A) (handler : string -> Script A) : Script A :=
  match body with
  | (t, Raised e) => let '(t', r) := handler e in (t ++ t', r)
  | other => other
  end.

Definition lift {A} (r : Result A) : Script A :=
  match r with
  | Ok a => ret a
  | Throw e => throw e
  end.

Definition data_url_prefix : string := "data:image/jpeg;base64,".

(** [s.replace(/^data:image\/jpeg;base64,/, '')] *)
Fixpoint strip_prefix (p s : string) : option string :=
  match p, s with
  | EmptyString, _ => Some s
  | String a p', String b s' => if Ascii.eqb a b then strip_prefix p' s' else None
  | _, _ => None
  end.

Definition replace_data_url_prefix (s : string) : string :=
  match strip_prefix data_url_prefix s with
  | Some rest => rest
  | None => s
  end.

Definition no_file_message : string :=
  "No image file provided. Please upload an image in the " ++ dquote ++ "image" ++ dquote ++ " field.".

Definition corrupted_message : string :=
  "Invalid or corrupted image file. Please upload a valid JPG or PNG image.".

Definition success_headers (filename : string) (body : Buffer) : list (string * string) :=
  [ ("Content-Type", "image/webp");
    ("Content-Disposition", "attachment; filename=" ++ dquote ++ filename ++ dquote);
    ("Content-Length", decimal_digits (Z.of_nat (List.length body))) ]%string.

(** The error-handling middleware, reached when [upload.single] fails. *)
Definition error_middleware (error : UploadError) : Response :=
  match error with
  | MulterError code message =>
      if String.eqb code "LIMIT_FILE_SIZE"
      then JsonResponse 400 [("error", "File size too large. Maximum size is 50MB.")]%string
      else JsonResponse 400 [("error", message)]%string
  | PlainError message =>
      if String.eqb message invalid_type_message
      then JsonResponse 400 [("error", message)]%string
      else JsonResponse 500 [("error", "Internal server error")]%string
  end.

Section Handlers.

  (** The libraries the handlers call: the image codec, the EXIF
      serializer and the base64 conversions of [Buffer]. *)
Variable sharp_toBuffer : SharpCall -> Result Buffer.
Variable piexifjs_dump : Exif.exifObj -> Result string.
Variable piexifjs_insert : string -> string -> Result string.
Variable toString_base64 : Buffer -> string.
Variable Buffer_from_base64 : string -> Buffer.

Definition sharp (call : SharpCall) : Script Buffer :=
    emit (Sharp call) ;;; lift (sharp_toBuffer call).

  (** [injectExifIntoJpeg] of server.js. *)
Definition injectExifIntoJpeg (jpegBuffer : Buffer) : Script Buffer :=
    try_catch
      (let base64Image := toString_base64 jpegBuffer in
       let dataUrl := (data_url_prefix ++ base64Image)%string in
       exifObj <- match Exif.build_exifObj with
                  | Some o => ret o
                  | None => throw "toFixed"
                  end ;;
       emit (PiexifDump exifObj) ;;;
       exifBytes <- lift (piexifjs_dump exifObj) ;;
       emit (PiexifInsert exifBytes dataUrl) ;;;
       newDataUrl <- lift (piexifjs_insert exifBytes dataUrl) ;;
       let base64Data := replace_data_url_prefix newDataUrl in
       ret (Buffer_from_base64 base64Data))
      (fun error =>
         emit (ConsoleError "EXIF injection error:" error) ;;;
         throw "Failed to inject EXIF metadata into image").

  (** [app.post('/process', ...)] of server.js, after the upload
      middleware has set [req.file]. *)
Definition handler_fabricate (file : option File) (quality : option string)
    : Script unit :=
    try_catch
      (file <- match file with
               | Some f => ret f
               | None => return_json 400 [("error", no_file_message)]%string
               end ;;
       let quality := Quality.effective_quality quality in
       let originalName := originalname file in
       let newFilename := newFilename originalName in
       jpegBuffer <-
         try_catch
           (sharp {| input := buffer file; metadata := None; output := Jpeg 95 |})
           (fun sharpError =>
              return_json 400 [("error", corrupted_message)]%string) ;;
       jpegWithExif <-
         try_catch
           (injectExifIntoJpeg jpegBuffer)
           (fun exifError =>
              return_json 500 [("error", "Failed to inject EXIF metadata");
                               ("message", exifError)]%string) ;;
       webpBuffer <-
         try_catch
           (sharp {| input := jpegWithExif; metadata := None;
                     output := Webp quality 4 |})
           (fun conversionError =>
              return_json 500 [("error", "Failed to convert image to WebP");
                               ("message", conversionError)]%string) ;;
       emit (Respond (FileResponse (success_headers newFilename webpBuffer) webpBuffer)))
      (fun error =>
         emit (ConsoleError "Processing error:" error) ;;;
         emit (Respond (JsonResponse 500
                 [("error", "Internal server error during image processing");
                  ("message", error)]%string))).

  (** The same route in the variant that strips metadata. *)
Definition handler_strip (file : option File) (quality : option string)
    : Script unit :=
    try_catch
      (file <- match file with
               | Some f => ret f
               | None => return_json 400 [("error", no_file_message)]%string
               end ;;
       let quality := Quality.effective_quality quality in
       let originalName := originalname file in
       let newFilename := newFilename originalName in
       webpBuffer <-
         try_catch
           (sharp {| input := buffer file; metadata := Some false;
                     output := Webp quality 4 |})
           (fun sharpError =>
              return_json 400 [("error", corrupted_message);
                               ("details", sharpError)]%string) ;;
       emit (Respond (FileResponse (success_headers newFilename webpBuffer) webpBuffer)))
      (fun error =>
         emit (ConsoleError "Processing error:" error) ;;;
         emit (Respond (JsonResponse 500
                 [("error", "Internal server error during image processing");
                  ("message", error)]%string))).

  (** The route: upload middleware, then the handler or the error
      middleware.  The result is the trace of the request. *)
Definition route (handler : option File -> option string -> Script unit)
      (req : Request) : list Event :=
    match upload_single req with
    | inl error => [Respond (error_middleware error)]
    | inr file => fst (handler file (body_quality req))
    end.

Definition process_fabricate : Request -> list Event := route handler_fabricate.
Definition process_strip : Request -> list Event := route handler_strip.

End Handlers.

End Server.

(** ** Reading a trace *)

Module Trace.
Import Server.

Definition is_library_call (e : Event) : bool :=
  match e with
  | Sharp _ | PiexifDump _ | PiexifInsert _ _ => true
  | _ => false
  end.

Definition is_response (e : Event) : bool :=
  match e with
  | Respond _ => true
  | _ => false
  end.

Definition is_delivery (e : Event) : bool :=
  match e with
  | Respond (FileResponse _ _) => true
  | _ => false
  end.

Definition library_calls (t : list Event) : list Event := filter is_library_call t.
Definition responses (t : list Event) : list Event := filter is_response t.

Definition header (name : string) (headers : list (string * string)) : option string :=
  match find (fun kv => String.eqb (fst kv) name) headers with
  | Some kv => Some (snd kv)
  | None => None
  end.

Definition with_quality (req : Request) (q : option string) : Request :=
  {| image_part := image_part req; body_quality := q;
     unexpected_file := unexpected_file req |}.

Section Calls.

Variable sharp_toBuffer : SharpCall -> Result Buffer.
Variable piexifjs_dump : Exif.exifObj -> Result string.
Variable piexifjs_insert : string -> string -> Result string.
Variable toString_base64 : Buffer -> string.
Variable Buffer_from_base64 : string -> Buffer.

Definition throws {A} (r : Result A) : bool :=
  match r with
  | Throw _ => true
  | Ok _ => false
  end.

(** The library call of the event threw. *)
Definition failed (e : Event) : bool :=
  match e with
  | Sharp call => throws (sharp_toBuffer call)
  | PiexifDump record => throws (piexifjs_dump record)
  | PiexifInsert exifBytes dataUrl => throws (piexifjs_insert exifBytes dataUrl)
  | _ => false
  end.

(** One response, and it ends the trace. *)
Definition one_response_last (t : list Event) : Prop :=
  exists pre r, t = pre ++ [Respond r] /\ responses pre = [].

(** After a library call that threw, no library is called and no image is
    delivered. *)
Definition stops_at_failure (t : list Event) : Prop :=
  ForallOrdPairs
    (fun e e' => failed e = true ->
                 is_library_call e' = false /\ is_delivery e' = false) t.

(** The chain of the fabricating variant as the specification words it:
    input to intermediate JPEG, the fixed record serialized and spliced into
    that JPEG, the result to WebP at the requested quality; cut at the
    first stage that fails. *)
Definition fabricate_chain (record : Exif.exifObj) (upload : Buffer) (quality : Z)
  : list Event :=
  let to_jpeg := {| input := upload; metadata := None; output := Jpeg 95 |} in
  Sharp to_jpeg ::
  match sharp_toBuffer to_jpeg with
  | Throw _ => []
  | Ok jpeg =>
      let target := (data_url_prefix ++ toString_base64 jpeg)%string in
      PiexifDump record ::
      match piexifjs_dump record with
      | Throw _ => []
      | Ok exifBytes =>
          PiexifInsert exifBytes target ::
          match piexifjs_insert exifBytes target with
          | Throw _ => []
          | Ok injected =>
              [ Sharp {| input := Buffer_from_base64 (replace_data_url_prefix injected);
                         metadata := None;
                         output := Webp quality 4 |} ]
          end
      end
  end.

End Calls.

(** Libraries that always succeed and return their input, for examples. *)
Definition echo_sharp (call : SharpCall) : Result Buffer := Ok (input call).
Definition echo_dump (record : Exif.exifObj) : Result string := Ok "Exif"%string.
Definition echo_insert (exifBytes dataUrl : string) : Result string := Ok dataUrl.
Definition echo_base64 (b : Buffer) : string := string_of_list_byte b.
Definition echo_from_base64 (s : string) : Buffer := list_byte_of_string s.

(** A codec that rejects every input with the message sharp gives for
    bytes it cannot decode. *)
Definition rejecting_sharp (call : SharpCall) : Result Buffer :=
  Throw "Input buffer contains unsupported image format".

Definition sample_file : File :=
  {| originalname := "holiday.photo.png";
     mimetype := "image/png";
     buffer := list_byte_of_string "pixels" |}.

Definition sample_request : Request :=
  {| image_part := Some sample_file; body_quality := Some "90"%string;
     unexpected_file := None |}.

End Trace.

(** ** The words of the specification, for comparison *)

Module Spec.
Import stdpp.base stdpp.gmap.
Local Open Scope Z_scope.

(** The fixed configured record: make, model and software as configured,
    and the coordinates 40 deg 44' 55.74'' N, 73 deg 59' 7.54'' W. *)
Definition fixed_record : Exif.exifObj :=
  {| Exif.ifd_0th :=
       {[ 271 := Exif.Text "Canon";
          272 := Exif.Text "Canon EOS 5D Mark IV";
          305 := Exif.Text "Adobe Photoshop Lightroom" ]};
     Exif.ifd_Exif := ∅;
     Exif.ifd_GPS :=
       {[ 1 := Exif.Text "N";
          2 := Exif.Rationals [ (of_Z 40, of_Z 1); (of_Z 44, of_Z 1); (of_Z 5574, of_Z 100) ];
          3 := Exif.Text "W";
          4 := Exif.Rationals [ (of_Z 73, of_Z 1); (of_Z 59, of_Z 1); (of_Z 754, of_Z 100) ] ]} |}.

(** The last path component, trailing separators dropped. *)
Definition is_slash (c : ascii) : bool := Ascii.eqb c "/".
Definition is_dot (c : ascii) : bool := Ascii.eqb c ".".

Fixpoint drop_while {A} (p : A -> bool) (l : list A) : list A :=
  match l with
  | x :: r => if p x then drop_while p r else l
  | [] => []
  end.

Fixpoint take_while {A} (p : A -> bool) (l : list A) : list A :=
  match l with
  | x :: r => if p x then x :: take_while p r else []
  | [] => []
  end.

(** How the dot variables evolve over the characters of one component,
    read from its last character (at index [i]) to its first. *)
Fixpoint dot_state (rcomp : list ascii) (i sd pds : Z) : Z * Z :=
  match rcomp with
  | [] => (sd, pds)
  | c :: r =>
      if is_dot c then
        if sd =? -1 then dot_state r (i - 1) i pds else dot_state r (i - 1) sd 1
      else
        if sd =? -1 then dot_state r (i - 1) sd pds else dot_state r (i - 1) sd (-1)
  end.

Definition basename (path : list ascii) : list ascii :=
  rev (take_while (fun c => negb (is_slash c)) (drop_while is_slash (rev path))).

(** The base name without its extension.  The extension starts at the last
    dot; a base name that has no dot, whose only dot comes first, or that
    is [..] has none. *)
Definition strip_extension (base : list ascii) : list ascii :=
  let after_last_dot := take_while (fun c => negb (is_dot c)) (rev base) in
  match drop_while (fun c => negb (is_dot c)) (rev base) with
  | [] => base
  | _ :: rstem =>
      match rstem with
      | [] => base
      | _ =>
          if forallb is_dot rstem && (List.length rstem =? 1)%nat
             && (List.length after_last_dot =? 0)%nat
          then base
          else rev rstem
      end
  end.

Definition stem (originalName : string) : string :=
  string_of_list_ascii (strip_extension (basename (list_ascii_of_string originalName))).

(** The intermediate Numbers of one axis, on the absolute value [a]. *)
Definition degrees (a : number) : number := Math_floor a.
Definition minutes (a : number) : number :=
  Math_floor (mul (sub a (degrees a)) (of_Z 60)).
Definition seconds (a : number) : number :=
  mul (sub (sub a (degrees a)) (div (minutes a) (of_Z 60))) (of_Z 3600).

(** Nearest integer, ties away from zero: the rounding of [toFixed]. *)
Definition round_half_away (q : Q) : Z :=
  if Qle_bool 0 q then Qfloor (q + (1 # 2))%Q else - Qfloor (- q + (1 # 2))%Q.

(** A value rounded to two decimal places. *)
Definition round2 (q : Q) : Q := (inject_Z (round_half_away (100 * q)) / 100)%Q.

(** The triplet [dms] encodes the absolute value [a] as the algorithm
    says: degrees the floor of [a], minutes the floor of (a - degrees) * 60,
    seconds (a - degrees - minutes / 60) * 3600 rounded to two decimals and
    held as the numerator of a fraction of denominator 100; the
    subtractions, products and the quotient are those of Numbers. *)
Definition axis_encoded (a : number) (dms : list rational) : Prop :=
  exists d m n : number,
    dms = [ (d, of_Z 1); (m, of_Z 1); (n, of_Z 100) ]
    /\ finite d /\ finite m /\ finite n
    /\ (value d == inject_Z (Qfloor (value a)))%Q
    /\ (value m == inject_Z (Qfloor (value (mul (sub a d) (of_Z 60)))))%Q
    /\ (value n / 100
        == round2 (value (mul (sub (sub a d) (div m (of_Z 60))) (of_Z 3600))))%Q
    /\ (value n
        == inject_Z (round_half_away
                       (100 * value (mul (sub (sub a d) (div m (of_Z 60)))
                                         (of_Z 3600)))))%Q.

(** Sign times (degrees + minutes / 60 + seconds / 3600). *)
Definition reconstruct (ref : string) (dms : list rational) : Q :=
  let part (k : nat) : Q :=
    match nth_error dms k with
    | Some (n, d) => (value n / value d)%Q
    | None => 0%Q
    end in
  ((if (String.eqb ref "S" || String.eqb ref "W")%bool then -1 else 1)
   * (part 0%nat + part 1%nat / 60 + part 2%nat / 3600))%Q.

End Spec.

(** ** Definitions for the rounding analysis *)

Module Approx.

(** The record reached from the exact record of [M] after [k] shifts. *)
Definition shifted (M k : Z) (mrs : shr_record) : Prop :=
  shr_m mrs = M / 2 ^ k
  /\ shr_r mrs = (0 <? k) && Z.odd (M / 2 ^ (k - 1))
  /\ shr_s mrs = (0 <? k) && negb (M mod 2 ^ (k - 1) =? 0).

(** The float [binary_round_aux] returns for mantissa [m] and exponent [e]. *)
Definition build (s : bool) (m e : Z) : spec_float :=
  match m with
  | Z0 => S754_zero s
  | Zpos p => S754_finite s p e
  | Zneg _ => S754_nan
  end.

(** A mantissa and an exponent as a rational. *)
Definition mag (m e : Z) : Q := (inject_Z m * pow2 e)%Q.

Definition sgn (s : bool) : Q := if s then (-1)%Q else 1%Q.

(** The unit roundoff and half the least subnormal. *)
Definition u : Q := pow2 (-53).
Definition eta : Q := pow2 (-1075).

(** A rational that a binary64 value can hold exactly. *)
Definition representable (q : Q) : Prop :=
  exists M E, (q == mag M E)%Q /\ Z.abs M < 2 ^ 53 /\ -1074 <= E.

(** [r] is a finite Number obtained by rounding the rational [q]. *)
Definition rounded (q : Q) (r : number) : Prop :=
  finite r
  /\ (Qabs (value r - q) <= Qabs q * u + eta)%Q
  /\ (0 <= q -> 0 <= value r)%Q
  /\ (q <= 0 -> value r <= 0)%Q
  /\ (representable q -> value r == q)%Q.

(** The sign bit. *)
Definition sign_of (x : number) : bool :=
  match x with
  | S754_zero s | S754_finite s _ _ | S754_infinity s => s
  | S754_nan => false
  end.

(** Structural equality of Numbers (it tells the two zeros apart). *)
Definition same (x y : number) : bool :=
  match x, y with
  | S754_zero a, S754_zero b => Bool.eqb a b
  | S754_infinity a, S754_infinity b => Bool.eqb a b
  | S754_nan, S754_nan => true
  | S754_finite a m e, S754_finite b m' e' => Bool.eqb a b && Pos.eqb m m' && Z.eqb e e'
  | _, _ => false
  end.

Definition upto (n : Z) : list Z := map Z.of_nat (seq 0 (Z.to_nat n + 1)).

(** [k / 60] as the division computes it, for the minutes 0 to 60. *)
Definition div60_ok (k : Z) : bool :=
  let g := div (of_Z k) (of_Z 60) in
  is_finite g && valid_binary prec emax g && negb (sign_of g)
  && Qle_bool (Qabs (value g - (k # 60))) (1 # 2 ^ 54).

(** What [Math.round(parseFloat(str) * 100)] yields on the string that
    [toFixed(2)] prints for the sign [sg] and the digits of [n]. *)
Definition numerator_of (sg : bool) (n : Z) : number :=
  Math_round
    (mul (parseFloat ((if sg then "-" else EmptyString)
                        ++ place_point (decimal_digits n)))
         (of_Z 100)).

Definition numerator_ok (n : Z) : bool := same (numerator_of false n) (of_Z n).

End Approx.

(** ** Notions for the further properties *)

Module Cases.
Import Server Trace.

(** The character [c] occurs in [s]. *)
Definition mentions (c : ascii) (s : string) : bool :=
  existsb (Ascii.eqb c) (list_ascii_of_string s).

(** No dot but, possibly, a leading one. *)
Definition dot_only_leading (s : string) : bool :=
  match s with
  | EmptyString => true
  | String _ rest => negb (mentions "." rest)
  end.

Definition decimal_digit (c : ascii) : bool :=
  match digit_of c with
  | Some _ => true
  | None => false
  end.

Definition all_decimal (s : string) : bool :=
  forallb decimal_digit (list_ascii_of_string s).

(** The quality [n], written in decimal, is the effective quality. *)
Definition quality_honoured (n : Z) : bool :=
  Quality.effective_quality (Some (decimal_digits n)) =? n.

(** The triplet [dms] holds the integers [d], [m] and [n] over the
    denominators 1, 1 and 100. *)
Definition holds (dms : list rational) (d m n : Z) : Prop :=
  exists D M N : number,
    dms = [ (D, of_Z 1); (M, of_Z 1); (N, of_Z 100) ]
    /\ finite D /\ finite M /\ finite N
    /\ (value D == inject_Z d)%Q
    /\ (value M == inject_Z m)%Q
    /\ (value N == inject_Z n)%Q.

(** A triplet as the metadata format wants it: whole degrees, minutes
    below 60 and hundredths of seconds up to 6000. *)
Definition well_formed (dms : list rational) : Prop :=
  exists d m n : Z,
    holds dms d m n /\ 0 <= d /\ 0 <= m <= 59 /\ 0 <= n <= 6000.

(** The request [req] with another file part. *)
Definition with_file (req : Request) (file : File) : Request :=
  {| image_part := Some file; body_quality := body_quality req;
     unexpected_file := unexpected_file req |}.

(** The texts of the catch-all handler of the route. *)
Definition internal_error_message : string :=
  "Internal server error during image processing".

Definition too_large_message : string :=
  "File size too large. Maximum size is 50MB.".

Definition injection_failed_body : list (string * string) :=
  [ ("error", "Failed to inject EXIF metadata");
    ("message", "Failed to inject EXIF metadata into image") ]%string.

(** An upload whose declared type is not on the list. *)
Definition gif_request : Request :=
  {| image_part := Some {| originalname := "anim.gif"; mimetype := "image/gif";
                           buffer := list_byte_of_string "GIF89a" |};
     body_quality := None; unexpected_file := None |}.

(** An upload of an allowed type, one byte over the size limit. *)
Definition big_file : File :=
  {| originalname := "big.png"; mimetype := "image/png";
     buffer := repeat Byte.x00 (Z.to_nat (fileSize_limit + 1)) |}.

Definition big_request : Request :=
  {| image_part := Some big_file; body_quality := None; unexpected_file := None |}.

(** A form with no file part at all, and one whose only file part is
    under the field name [photo]. *)
Definition empty_request : Request :=
  {| image_part := None; body_quality := Some "80"%string; unexpected_file := None |}.

Definition stray_request : Request :=
  {| image_part := None; body_quality := None; unexpected_file := Some "photo"%string |}.

(** A text of one character more than the field size limit, and the
    sample request with it as its quality field. *)
Definition long_text : string :=
  String "q" (string_of_list_ascii (repeat "q"%char (Z.to_nat fieldSize_default))).

Definition long_quality_request : Request :=
  with_quality sample_request (Some long_text).

(** The sample upload under another declared type and name. *)
Definition renamed_file : File :=
  {| originalname := "scan.jpeg"; mimetype := "image/jpeg";
     buffer := buffer sample_file |}.

(** What the encoder returns for the fixed coordinates. *)
Definition fixed_gps : GpsData :=
  {| latRef := "N"; lngRef := "W";
     lat := [ (of_Z 40, of_Z 1); (of_Z 44, of_Z 1); (of_Z 5574, of_Z 100) ];
     lng := [ (of_Z 73, of_Z 1); (of_Z 59, of_Z 1); (of_Z 754, of_Z 100) ] |}.

(** A serializer that throws, and a codec that fails on its second use
    only (the input of the final encoding is the re-encoded upload). *)
Definition failing_dump (record : Exif.exifObj) : Result string :=
  Throw "pack error".

Definition failing_webp (call : SharpCall) : Result Buffer :=
  match output call with
  | Jpeg _ => Ok (input call)
  | Webp _ _ => Throw "VipsOperation: webpsave failed"
  end.

(** An event of a trace that is given as an explicit list. *)
Ltac pick H :=
  repeat (destruct H as [H|H]; [try discriminate H|]); try contradiction.

(** Reads past the head of a string whose first character is known. *)
Ltac digit_head :=
  cbv [Quality.ToString trim_start];
  match goal with
  | |- context [is_white ?c] =>
      let b := eval vm_compute in (is_white c) in change (is_white c) with b
  end;
  cbv beta iota zeta.

End Cases.

(** ** Proof steps shared by the handler proofs *)

Module Tactics.
Import Server Trace.

(** Runs a handler script up to the next library call. *)
Ltac run :=
  cbn [handler_fabricate handler_strip injectExifIntoJpeg sharp try_catch bind
       ret emit lift throw return_json fst snd app
       input output metadata buffer originalname].

(** Settles an ordered-pairs goal over an explicit trace. *)
Ltac ordered :=
  repeat first
    [ apply FOP_nil
    | apply FOP_cons
    | apply Forall_nil
    | apply Forall_cons
    | (intros Hf; cbn [failed throws] in Hf;
       first [ discriminate Hf
             | split; reflexivity
             | match goal with
               | E : _ = Ok _ |- _ => rewrite E in Hf; discriminate Hf
               end ]) ].

End Tactics.

(** * Proofs *)

(** ** Rounding to binary64 *)

Module Rounding.
Import Approx.

(** *** Digits *)

Lemma digits2_size (m : positive) : digits2_pos m = Pos.size m.
Proof. induction m; simpl; congruence. Qed.

Lemma digits_bounds (m : positive) :
  2 ^ (Zpos (digits2_pos m) - 1) <= Zpos m < 2 ^ Zpos (digits2_pos m).
Proof.
  rewrite digits2_size. split.
  - pose proof (Pos.size_le m) as H.
    assert (Zpos (2 ^ Pos.size m) <= Zpos m~0) by exact H.
    rewrite Pos2Z.inj_pow in H0.
    replace (Zpos (Pos.size m)) with (1 + (Zpos (Pos.size m) - 1)) in H0 by lia.
    rewrite Z.pow_add_r in H0 by lia. change (2 ^ 1) with 2 in H0. lia.
  - pose proof (Pos.size_gt m) as H.
    assert (Zpos m < Zpos (2 ^ Pos.size m)) by exact H.
    rewrite Pos2Z.inj_pow in H0. exact H0.
Qed.

Lemma digits_unique (m : positive) (k : Z) :
  2 ^ (k - 1) <= Zpos m < 2 ^ k -> Zpos (digits2_pos m) = k.
Proof.
  intros [Hlo Hhi]. pose proof (digits_bounds m) as [Dlo Dhi].
  set (d := Zpos (digits2_pos m)) in *.
  assert (0 < k).
  { destruct (Z.lt_ge_cases 0 k) as [|Hk]; [assumption|].
    exfalso. destruct (Z.eq_dec k 0) as [->|].
    - simpl in Hhi. lia.
    - rewrite (Z.pow_neg_r 2 k) in Hhi by lia. lia. }
  destruct (Z.lt_trichotomy d k) as [Hlt|[Heq|Hgt]]; [|exact Heq|]; exfalso.
  - assert (2 ^ d <= 2 ^ (k - 1)) by (apply Z.pow_le_mono_r; lia). lia.
  - assert (2 ^ k <= 2 ^ (d - 1)) by (apply Z.pow_le_mono_r; lia). lia.
Qed.

(** *** Shifting right with a round bit and a sticky bit *)


Lemma shifted_0 (M : Z) : shifted M 0 (shr_record_of_loc M loc_Exact).
Proof.
  unfold shifted. simpl. rewrite Z.div_1_r. auto.
Qed.

Lemma shr_1_shifted (M k : Z) (mrs : shr_record) :
  0 <= M -> 0 <= k -> shifted M k mrs -> shifted M (k + 1) (shr_1 mrs).
Proof.
  intros HM Hk (Hm & Hr & Hs).
  assert (Hpow : 0 < 2 ^ k) by (apply Z.pow_pos_nonneg; lia).
  assert (Hq : 0 <= M / 2 ^ k) by (apply Z.div_pos; lia).
  assert (Hdiv : M / 2 ^ (k + 1) = M / 2 ^ k / 2).
  { rewrite Z.pow_add_r by lia. change (2 ^ 1) with 2.
    rewrite Z.div_div by lia. reflexivity. }
  assert (Hsticky : shr_r mrs || shr_s mrs = negb (M mod 2 ^ k =? 0)).
  { rewrite Hr, Hs. destruct (Z.ltb_spec 0 k) as [Hpos|Hz].
    - cbn [andb].
      assert (Hp1 : 0 < 2 ^ (k - 1)) by (apply Z.pow_pos_nonneg; lia).
      replace (2 ^ k) with (2 ^ (k - 1) * 2).
      2:{ replace k with ((k - 1) + 1) at 2 by lia.
          rewrite Z.pow_add_r by lia. reflexivity. }
      rewrite Z.rem_mul_r by lia.
      rewrite (Zmod_odd (M / 2 ^ (k - 1))).
      pose proof (Z.mod_pos_bound M (2 ^ (k - 1)) Hp1) as Hb.
      destruct (Z.odd (M / 2 ^ (k - 1))); cbn [orb].
      + symmetry. apply negb_true_iff. apply Z.eqb_neq. lia.
      + rewrite Z.mul_0_r, Z.add_0_r. reflexivity.
    - assert (k = 0) by lia. subst k. cbn [andb orb].
      change (2 ^ 0) with 1. rewrite Z.mod_1_r. reflexivity. }
  unfold shifted.
  replace (k + 1 - 1) with k by lia.
  replace (0 <? k + 1) with true by (symmetry; apply Z.ltb_lt; lia).
  cbn [andb]. rewrite Hdiv.
  destruct mrs as [m r s]. cbn [shr_m shr_r shr_s] in *.
  unfold shr_1. rewrite Hsticky. rewrite <- Hm.
  rewrite <- Z.div2_div.
  destruct m as [|p|p]; [ | | lia].
  - repeat split; reflexivity.
  - destruct p; repeat split; reflexivity.
Qed.

Lemma iter_shr_1_shifted (M : Z) (p : positive) :
  0 <= M ->
  forall k mrs, 0 <= k -> shifted M k mrs ->
  shifted M (k + Zpos p) (iter_pos shr_1 p mrs).
Proof.
  intros HM. induction p as [p IH|p IH|]; intros k mrs Hk H; cbn [iter_pos].
  - replace (k + Zpos p~1) with (k + 1 + Zpos p + Zpos p) by lia.
    apply IH; [lia|]. apply IH; [lia|]. apply shr_1_shifted; assumption.
  - replace (k + Zpos p~0) with (k + Zpos p + Zpos p) by lia.
    apply IH; [lia|]. apply IH; assumption.
  - apply shr_1_shifted; assumption.
Qed.

(** Rounding the shifted mantissa to nearest, ties to even, moves it by at
    most half a unit of the new last place; an exact shift moves nothing. *)
Lemma round_nearest_even_shifted (M n : Z) (mrs : shr_record) :
  0 <= M -> 0 < n -> shifted M n mrs ->
  let m1 := round_nearest_even (shr_m mrs) (loc_of_shr_record mrs) in
  (M / 2 ^ n <= m1 <= M / 2 ^ n + 1)
  /\ Z.abs (2 * (m1 * 2 ^ n - M)) <= 2 ^ n
  /\ (M mod 2 ^ n = 0 -> m1 = M / 2 ^ n).
Proof.
  intros HM Hn (Hm & Hr & Hs).
  replace (0 <? n) with true in * by (symmetry; apply Z.ltb_lt; lia).
  cbn [andb] in *.
  assert (Hp1 : 0 < 2 ^ (n - 1)) by (apply Z.pow_pos_nonneg; lia).
  assert (Hpn : 2 ^ n = 2 ^ (n - 1) * 2).
  { replace n with ((n - 1) + 1) at 1 by lia.
    rewrite Z.pow_add_r by lia. reflexivity. }
  pose proof (Z.div_mod M (2 ^ (n - 1)) ltac:(lia)) as Hdm.
  pose proof (Z.mod_pos_bound M (2 ^ (n - 1)) Hp1) as Hb.
  set (u := M / 2 ^ (n - 1)) in *. set (t := M mod 2 ^ (n - 1)) in *.
  assert (Hq : M / 2 ^ n = u / 2).
  { rewrite Hpn. rewrite <- Z.div_div by lia. reflexivity. }
  pose proof (Z.div_mod u 2 ltac:(lia)) as Hu.
  rewrite (Zmod_odd u) in Hu.
  assert (Hmod : M mod 2 ^ n = t + 2 ^ (n - 1) * (if Z.odd u then 1 else 0)).
  { rewrite Hpn. rewrite Z.rem_mul_r by lia. fold u t. rewrite (Zmod_odd u). reflexivity. }
  destruct mrs as [m r s]. cbn [shr_m shr_r shr_s] in *. subst m r s.
  cbn zeta. rewrite Hq, Hmod.
  set (q := u / 2) in *. set (H := 2 ^ (n - 1)) in *. rewrite Hpn.
  destruct (Z.odd u); destruct (Z.eqb_spec t 0) as [Ht|Ht];
    cbn [negb loc_of_shr_record round_nearest_even].
  - destruct (Z.even q); repeat split; try nia; try (intros; exfalso; nia).
  - repeat split; try nia; try (intros; exfalso; nia).
  - repeat split; try nia; try (intros; exfalso; nia).
  - repeat split; try nia; try (intros; exfalso; nia).
Qed.

Lemma digits_le (m : positive) (k : Z) :
  Zpos m < 2 ^ k -> Zpos (digits2_pos m) <= k.
Proof.
  intros H. pose proof (digits_bounds m) as [Dlo _].
  destruct (Z.le_gt_cases (Zpos (digits2_pos m)) k) as [|Hgt]; [assumption|].
  exfalso.
  assert (0 <= k).
  { destruct (Z.le_gt_cases 0 k); [assumption|].
    rewrite (Z.pow_neg_r 2 k) in H by lia. lia. }
  assert (2 ^ k <= 2 ^ (Zpos (digits2_pos m) - 1)) by (apply Z.pow_le_mono_r; lia).
  lia.
Qed.

Lemma digits_ge (m : positive) (k : Z) :
  2 ^ k <= Zpos m -> k + 1 <= Zpos (digits2_pos m).
Proof.
  intros H. pose proof (digits_bounds m) as [_ Dhi].
  destruct (Z.le_gt_cases (k + 1) (Zpos (digits2_pos m))) as [|Hgt]; [assumption|].
  exfalso.
  assert (2 ^ Zpos (digits2_pos m) <= 2 ^ k) by (apply Z.pow_le_mono_r; lia).
  lia.
Qed.

(** *** The format *)

Lemma fexp_eq (e : Z) : fexp prec emax e = Z.max (e - 53) (-1074).
Proof. reflexivity. Qed.


Lemma shr_fexp_exact_noshift (m e : Z) :
  fexp prec emax (Zdigits2 m + e) - e <= 0 ->
  shr_fexp prec emax m e loc_Exact = (shr_record_of_loc m loc_Exact, e).
Proof.
  intros H. unfold shr_fexp, shr.
  destruct (fexp prec emax (Zdigits2 m + e) - e); [reflexivity|lia|reflexivity].
Qed.

(** [binary_round_aux] on an exact positive mantissa that needs no left
    shift: the result is canonical, within half a unit in the last place
    of the input, and equal to it when the bits shifted out are zero. *)
Lemma binary_round_aux_spec (sx : bool) (mx : positive) (ex : Z) :
  let d := Zpos (digits2_pos mx) in
  let E := fexp prec emax (d + ex) in
  ex <= E -> d + ex <= 1023 ->
  exists m2 e2,
    binary_round_aux prec emax sx (Zpos mx) ex loc_Exact = build sx m2 e2
    /\ 0 <= m2
    /\ E <= e2
    /\ (m2 = 0 \/ (fexp prec emax (Zdigits2 m2 + e2) = e2 /\ e2 <= 971))
    /\ Z.abs (2 * (m2 * 2 ^ (e2 - ex) - Zpos mx)) <= 2 ^ (E - ex)
    /\ (Zpos mx mod 2 ^ (E - ex) = 0 -> m2 * 2 ^ (e2 - ex) = Zpos mx).
Proof.
  intros d E Hn HD.
  pose proof (digits_bounds mx) as [Dlo Dhi]. fold d in Dlo, Dhi.
  assert (Hd : 0 < d) by (unfold d; lia).
  assert (HE : E = Z.max (d + ex - 53) (-1074)) by apply fexp_eq.
  unfold binary_round_aux.
  unfold shr_fexp at 1. cbn [Zdigits2]. fold d. fold E.
  destruct (E - ex) as [|n|n] eqn:En; [| |lia].
  - (* no shift at all *)
    cbn [shr shr_record_of_loc shr_m loc_of_shr_record round_nearest_even].
    rewrite shr_fexp_exact_noshift by (cbn [Zdigits2]; fold d; fold E; lia).
    cbn [shr_record_of_loc shr_m].
    assert (ex <= 971) by lia.
    replace (ex <=? emax - prec) with true by (symmetry; apply Z.leb_le; exact H).
    exists (Zpos mx), ex. cbn [build].
    replace (ex - ex) with 0 by lia. change (2 ^ 0) with 1.
    split; [reflexivity|]. split; [lia|]. split; [lia|].
    split; [|split; [lia|intros _; lia]].
    right. cbn [Zdigits2]. fold d. fold E. lia.
  - (* a shift by [n] bits, then rounding *)
    cbn [shr].
    assert (Hsh : shifted (Zpos mx) (Zpos n) (iter_pos shr_1 n (shr_record_of_loc (Zpos mx) loc_Exact))).
    { apply (iter_shr_1_shifted (Zpos mx) n ltac:(lia) 0); [lia|apply shifted_0]. }
    set (mrs := iter_pos shr_1 n _) in *.
    pose proof (round_nearest_even_shifted (Zpos mx) (Zpos n) mrs ltac:(lia) ltac:(lia) Hsh)
      as (Hm1 & Herr & Hexact).
    set (m1 := round_nearest_even (shr_m mrs) (loc_of_shr_record mrs)) in *.
    assert (Hexact' : Zpos mx mod 2 ^ Zpos n = 0 -> m1 * 2 ^ Zpos n = Zpos mx).
    { intros H0. rewrite (Hexact H0).
      pose proof (Z.div_mod (Zpos mx) (2 ^ Zpos n)
                    ltac:(apply Z.pow_nonzero; lia)). lia. }
    clear Hexact.
    replace (ex + Zpos n) with E by lia.
    assert (Hpn : 0 < 2 ^ Zpos n) by (apply Z.pow_pos_nonneg; lia).
    assert (Hm' : 0 <= Zpos mx / 2 ^ Zpos n) by (apply Z.div_pos; lia).
    (* the rounded mantissa has at most 53 digits, or is 2^53 *)
    set (w := Z.max (d - Zpos n) 0).
    assert (Hw : 0 <= w <= 53) by (unfold w; lia).
    assert (Hm1w : m1 <= 2 ^ w).
    { assert (Zpos mx / 2 ^ Zpos n < 2 ^ w); [|lia].
      apply Z.div_lt_upper_bound; [lia|].
      rewrite <- Z.pow_add_r by lia.
      apply Z.lt_le_trans with (1 := Dhi).
      apply Z.pow_le_mono_r; lia. }
    destruct m1 as [|p1|p1] eqn:Em1; [| |lia].
    + (* rounded to zero *)
      rewrite shr_fexp_exact_noshift by (cbn [Zdigits2]; rewrite fexp_eq; lia).
      cbn [shr_record_of_loc shr_m].
      exists 0, E. cbn [build]. rewrite En.
      split; [reflexivity|]. split; [lia|]. split; [lia|]. split; [left; reflexivity|].
      split; [exact Herr|exact Hexact'].
    + set (dl := Zpos (digits2_pos p1)).
      assert (Hdl : dl <= w + 1).
      { apply digits_le. rewrite Z.pow_add_r by lia. change (2 ^ 1) with 2. lia. }
      destruct (Z.le_gt_cases dl 53) as [Hle|Hgt].
      * (* it fits *)
        rewrite shr_fexp_exact_noshift
          by (cbn [Zdigits2]; fold dl; rewrite fexp_eq; lia).
        cbn [shr_record_of_loc shr_m].
        assert (E <= 971) by lia.
        replace (E <=? emax - prec) with true by (symmetry; apply Z.leb_le; exact H).
        exists (Zpos p1), E. cbn [build]. rewrite En.
        split; [reflexivity|]. split; [lia|]. split; [lia|].
        split; [|split; [exact Herr|exact Hexact']].
        right. cbn [Zdigits2]. fold dl. rewrite fexp_eq. split; [|lia].
        destruct (Z.le_gt_cases (d + ex - 53) (-1074)) as [Hsub|Hnorm]; [lia|].
        (* normal range: the mantissa keeps 53 digits *)
        assert (53 <= dl); [|lia].
        replace 53 with (52 + 1) by lia. apply digits_ge.
        apply Z.le_trans with (2 := proj1 Hm1).
        apply Z.div_le_lower_bound; [lia|].
        rewrite <- Z.pow_add_r by lia.
        apply Z.le_trans with (2 := Dlo).
        apply Z.pow_le_mono_r; lia.
      * (* the carry made it 2^53: one more exact shift *)
        assert (dl = 54) by lia.
        assert (Hw53 : w = 53) by lia.
        assert (Hp1 : Zpos p1 = 2 ^ 53).
        { pose proof (digits_bounds p1) as [Plo _]. fold dl in Plo.
          rewrite H in Plo. change (2 ^ (54 - 1)) with (2 ^ 53) in Plo.
          rewrite Hw53 in Hm1w. lia. }
        assert (Hk : fexp prec emax (Zdigits2 (Zpos p1) + E) - E = 1).
        { cbn [Zdigits2]. fold dl. rewrite fexp_eq. lia. }
        unfold shr_fexp. rewrite Hk. cbn [shr iter_pos].
        pose proof (shr_1_shifted (Zpos p1) 0 _ ltac:(lia) ltac:(lia) (shifted_0 (Zpos p1)))
          as (Hm2 & _ & _).
        rewrite Hm2. rewrite Hp1. change (2 ^ 53 / 2 ^ (0 + 1)) with (2 ^ 52).
        change (2 ^ 52) with (Zpos (2 ^ 52)%positive).
        cbv iota.
        assert (E + 1 <= 971) by lia.
        replace (E + 1 <=? emax - prec) with true by (symmetry; apply Z.leb_le; exact H0).
        exists (Zpos (2 ^ 52)%positive), (E + 1). cbn [build].
        assert (Hval : Zpos (2 ^ 52)%positive * 2 ^ (E + 1 - ex) = Zpos p1 * 2 ^ Zpos n).
        { replace (E + 1 - ex) with (1 + Zpos n) by lia.
          rewrite Z.pow_add_r by lia. rewrite Hp1.
          change (Zpos (2 ^ 52)%positive) with (2 ^ 52).
          change (2 ^ 53) with (2 ^ 52 * 2 ^ 1). ring. }
        rewrite Hval.
        split; [reflexivity|]. split; [lia|]. split; [lia|].
        split; [|split; [exact Herr|exact Hexact']].
        right. split; [|lia]. rewrite fexp_eq.
        change (Zdigits2 (Zpos (2 ^ 52)%positive)) with 53. lia.
Qed.

End Rounding.

(** ** Values of binary64 numbers *)

Module Values.
Import Rounding.
Import Approx.
Local Open Scope Q_scope.

Lemma inject_Z_sub (x y : Z) : inject_Z (x - y) = inject_Z x - inject_Z y.
Proof. unfold Z.sub. rewrite inject_Z_plus, inject_Z_opp. reflexivity. Qed.

Lemma two_nonzero : ~ 2 == 0.
Proof. discriminate. Qed.

Lemma pow2_pos (e : Z) : 0 < pow2 e.
Proof. apply Qpower_0_lt. reflexivity. Qed.

Lemma pow2_add (a b : Z) : pow2 (a + b) == pow2 a * pow2 b.
Proof. apply Qpower_plus. exact two_nonzero. Qed.

Lemma pow2_Z (k : Z) : (0 <= k)%Z -> pow2 k == inject_Z (2 ^ k).
Proof. intros H. unfold pow2. rewrite Zpower_Qpower by exact H. reflexivity. Qed.

Lemma pow2_le (a b : Z) : (a <= b)%Z -> pow2 a <= pow2 b.
Proof. intros H. apply Qpower_le_compat_l; [exact H|]. discriminate. Qed.

Lemma pow2_lt_inv (a b : Z) : pow2 a < pow2 b -> (a < b)%Z.
Proof.
  intros H. destruct (Z.lt_ge_cases a b) as [|Hge]; [assumption|].
  exfalso. apply pow2_le in Hge. apply (Qlt_irrefl (pow2 a)).
  apply Qlt_le_trans with (1 := H). exact Hge.
Qed.


Lemma mag_shift (m a b : Z) : (0 <= a)%Z -> mag (m * 2 ^ a) b == mag m (a + b).
Proof.
  intros H. unfold mag. rewrite inject_Z_mult, pow2_add, <- (pow2_Z a H). ring.
Qed.

Lemma mag_le (m1 m2 e : Z) : (m1 <= m2)%Z -> mag m1 e <= mag m2 e.
Proof.
  intros H. unfold mag. apply Qmult_le_compat_r.
  - rewrite <- Zle_Qle. exact H.
  - apply Qlt_le_weak, pow2_pos.
Qed.

Lemma mag_lt (m1 m2 e : Z) : (m1 < m2)%Z -> mag m1 e < mag m2 e.
Proof.
  intros H. unfold mag. apply Qmult_lt_compat_r.
  - apply pow2_pos.
  - rewrite <- Zlt_Qlt. exact H.
Qed.

Lemma mag_inj (m1 m2 e : Z) : mag m1 e == mag m2 e -> m1 = m2.
Proof.
  unfold mag. intros H.
  apply Qmult_inj_r in H; [|intros E; pose proof (pow2_pos e) as P; rewrite E in P; discriminate P].
  unfold Qeq in H. simpl in H. lia.
Qed.

Lemma mag_digits (m : positive) (e : Z) :
  pow2 (Zpos (digits2_pos m) - 1 + e) <= mag (Zpos m) e
  /\ mag (Zpos m) e < pow2 (Zpos (digits2_pos m) + e).
Proof.
  pose proof (digits_bounds m) as [Lo Hi].
  assert (0 < Zpos (digits2_pos m))%Z by lia.
  split.
  - rewrite pow2_add, pow2_Z by lia. apply (mag_le _ _ e Lo).
  - rewrite pow2_add, pow2_Z by lia. apply (mag_lt _ _ e Hi).
Qed.


Lemma value_finite (s : bool) (m : positive) (e : Z) :
  value (S754_finite s m e) == sgn s * mag (Zpos m) e.
Proof.
  unfold value, mag, sgn. destruct s; cbn [cond_Zopp].
  - change (- Zpos m)%Z with (Z.opp (Zpos m)). rewrite inject_Z_opp. ring.
  - ring.
Qed.

Lemma value_build (s : bool) (m e : Z) :
  (0 <= m)%Z -> value (build s m e) == sgn s * mag m e.
Proof.
  intros H. destruct m as [|p|p]; [| |lia].
  - unfold build, value, mag. change (inject_Z 0) with 0. ring.
  - apply value_finite.
Qed.

Lemma finite_build (s : bool) (m e : Z) :
  (0 <= m)%Z ->
  m = 0%Z \/ (fexp prec emax (Zdigits2 m + e) = e /\ (e <= 971)%Z) ->
  finite (build s m e).
Proof.
  intros Hm H. destruct m as [|p|p]; [split; reflexivity| |lia].
  destruct H as [H|[Hc He]]; [discriminate H|].
  split; [reflexivity|]. cbn [build valid_binary]. unfold bounded, canonical_mantissa.
  cbn [Zdigits2] in Hc. rewrite Hc, Z.eqb_refl. cbn [andb].
  apply Z.leb_le. exact He.
Qed.

(** *** Rounding error *)


Lemma rounded_ext (q q' : Q) (r : number) : q == q' -> rounded q r -> rounded q' r.
Proof.
  intros Hq (Hf & Herr & Hp & Hn & Hrep). unfold rounded.
  split; [exact Hf|]. split; [rewrite <- Hq; exact Herr|].
  split; [intros H; apply Hp; rewrite Hq; exact H|].
  split; [intros H; apply Hn; rewrite Hq; exact H|].
  intros (M & E & HM & Hb). rewrite <- Hq. apply Hrep.
  exists M, E. split; [rewrite Hq; exact HM|exact Hb].
Qed.

Lemma half_ulp_bound (m : positive) (e : Z) :
  pow2 (fexp prec emax (Zpos (digits2_pos m) + e) - 1)
  <= mag (Zpos m) e * u + eta.
Proof.
  rewrite fexp_eq. pose proof (mag_digits m e) as [Lo _].
  set (D := (Zpos (digits2_pos m) + e)%Z) in *.
  assert (Hu : 0 < u) by apply pow2_pos.
  assert (He : 0 < eta) by apply pow2_pos.
  assert (Hx : 0 < mag (Zpos m) e).
  { apply Qlt_le_trans with (2 := Lo). apply pow2_pos. }
  destruct (Z.max_spec (D - 53) (-1074)) as [[_ ->]|[_ ->]].
  - change (-1074 - 1)%Z with (-1075)%Z. fold eta.
    assert (0 <= mag (Zpos m) e * u) by (apply Qmult_le_0_compat; lra). lra.
  - replace (D - 53 - 1)%Z with ((Zpos (digits2_pos m) - 1 + e) + -53)%Z by (unfold D; lia).
    rewrite pow2_add. fold u.
    assert (pow2 (Zpos (digits2_pos m) - 1 + e) * u <= mag (Zpos m) e * u).
    { apply Qmult_le_compat_r; [exact Lo|lra]. }
    lra.
Qed.

Local Opaque pow2.

Lemma sgn_cases (s : bool) : sgn s == 1 \/ sgn s == -1.
Proof. destruct s; [right|left]; reflexivity. Qed.

Lemma pow2_half (e : Z) : pow2 e == 2 * pow2 (e - 1).
Proof.
  replace e with (1 + (e - 1))%Z at 1 by lia. rewrite pow2_add. reflexivity.
Qed.

Lemma representable_opp (q : Q) : representable q -> representable (- q).
Proof.
  intros (M & E & Hq & HM & HE). exists (- M)%Z, E.
  split; [|split; [lia|exact HE]].
  rewrite Hq. unfold mag. rewrite inject_Z_opp. ring.
Qed.

Lemma round_aux_rounded (sx : bool) (mx : positive) (ex : Z) :
  (ex <= fexp prec emax (Zpos (digits2_pos mx) + ex))%Z ->
  mag (Zpos mx) ex < pow2 1023 ->
  rounded (sgn sx * mag (Zpos mx) ex)
          (binary_round_aux prec emax sx (Zpos mx) ex loc_Exact).
Proof.
  intros Hn Hlt.
  pose proof (mag_digits mx ex) as [Lo Hi].
  pose proof (half_ulp_bound mx ex) as Hulp.
  set (d := Zpos (digits2_pos mx)) in *.
  set (x := mag (Zpos mx) ex) in *.
  assert (Hx : 0 < x) by (apply Qlt_le_trans with (2 := Lo); apply pow2_pos).
  assert (HD : (d + ex <= 1023)%Z).
  { assert (d - 1 + ex < 1023)%Z; [|lia]. apply pow2_lt_inv.
    apply Qle_lt_trans with (1 := Lo). exact Hlt. }
  destruct (binary_round_aux_spec sx mx ex Hn HD)
    as (m2 & e2 & -> & Hm2 & HE2 & Hcanon & Herr & Hexact).
  fold d in HE2, Herr, Hexact, Hn.
  set (E := fexp prec emax (d + ex)) in *.
  set (K := (m2 * 2 ^ (e2 - ex))%Z) in *.
  assert (Hv : mag m2 e2 == mag K ex).
  { unfold K. rewrite mag_shift by lia. replace (e2 - ex + ex)%Z with e2 by lia.
    reflexivity. }
  assert (Hdiff : Qabs (mag m2 e2 - x) <= pow2 (E - 1)).
  { apply Qabs_Qle_condition.
    assert (Hpe : mag (2 ^ (E - ex)) ex == 2 * pow2 (E - 1)).
    { unfold mag. rewrite <- pow2_Z by lia. rewrite <- pow2_add.
      replace (E - ex + ex)%Z with E by lia. apply pow2_half. }
    assert (H2 : mag (2 * (K - Zpos mx)) ex == 2 * (mag m2 e2 - x)).
    { rewrite Hv. unfold x, mag. rewrite inject_Z_mult, inject_Z_sub.
      change (inject_Z 2) with 2. ring. }
    pose proof (mag_le (2 * (K - Zpos mx)) (2 ^ (E - ex)) ex ltac:(lia)) as Hup.
    pose proof (mag_le (- 2 ^ (E - ex)) (2 * (K - Zpos mx)) ex ltac:(lia)) as Hdn.
    assert (Hneg : mag (- 2 ^ (E - ex)) ex == - mag (2 ^ (E - ex)) ex).
    { unfold mag. rewrite inject_Z_opp. ring. }
    rewrite Hneg, Hpe, H2 in Hdn. rewrite Hpe, H2 in Hup. split; lra. }
  assert (Hval : value (build sx m2 e2) == sgn sx * mag m2 e2)
    by (apply value_build; exact Hm2).
  assert (Hm2v : 0 <= mag m2 e2).
  { unfold mag. apply Qmult_le_0_compat.
    - change 0 with (inject_Z 0). rewrite <- Zle_Qle. exact Hm2.
    - apply Qlt_le_weak, pow2_pos. }
  unfold rounded. split; [apply finite_build; assumption|].
  split; [|split; [|split]].
  - rewrite Hval.
    setoid_replace (sgn sx * mag m2 e2 - sgn sx * x) with (sgn sx * (mag m2 e2 - x))
      using relation Qeq by ring.
    rewrite !Qabs_Qmult.
    assert (Hs : Qabs (sgn sx) == 1) by (destruct sx; reflexivity).
    rewrite Hs, !Qmult_1_l. rewrite (Qabs_pos x) by lra. lra.
  - intros Hq. rewrite Hval. destruct sx; cbn [sgn] in *; lra.
  - intros Hq. rewrite Hval. destruct sx; cbn [sgn] in *; lra.
  - intros Hrep. rewrite Hval.
    assert (Hrep' : representable x).
    { destruct sx; cbn [sgn] in Hrep.
      - apply representable_opp in Hrep.
        destruct Hrep as (M & E' & Hq & HM & HE'). exists M, E'. repeat split; try assumption.
        rewrite <- Hq. ring.
      - destruct Hrep as (M & E' & Hq & HM & HE'). exists M, E'. repeat split; try assumption.
        rewrite <- Hq. ring. }
    destruct Hrep' as (M & E' & Hq & HM & HE').
    assert (HMpos : (0 < M)%Z).
    { destruct (Z.lt_ge_cases 0 M) as [|Hle]; [assumption|]. exfalso.
      assert (mag M E' <= mag 0 E') by (apply mag_le; lia).
      unfold mag at 2 in H. change (inject_Z 0) with 0 in H. lra. }
    assert (HDE : (d + ex - 53 <= E')%Z).
    { assert (d - 1 + ex < 53 + E')%Z; [|lia]. apply pow2_lt_inv.
      apply Qle_lt_trans with (1 := Lo). rewrite Hq.
      rewrite pow2_add, pow2_Z by lia. apply mag_lt. lia. }
    assert (HEE : (E <= E')%Z) by (unfold E; rewrite fexp_eq; lia).
    assert (Hmx : Zpos mx = (M * 2 ^ (E' - ex))%Z).
    { apply (mag_inj _ _ ex). rewrite mag_shift by lia.
      replace (E' - ex + ex)%Z with E' by lia. exact Hq. }
    assert (Hmod : (Zpos mx mod 2 ^ (E - ex) = 0)%Z).
    { rewrite Hmx. replace (E' - ex)%Z with ((E' - E) + (E - ex))%Z by lia.
      rewrite Z.pow_add_r by lia. rewrite Z.mul_assoc.
      apply Z.mod_mul. apply Z.pow_nonzero; lia. }
    specialize (Hexact Hmod). fold K in Hexact.
    rewrite Hv, Hexact. reflexivity.
Qed.

Lemma iter_xO (p q : positive) : Zpos (Pos.iter xO q p) = (Zpos q * 2 ^ Zpos p)%Z.
Proof.
  induction p as [|p IH] using Pos.peano_ind.
  - cbn [Pos.iter]. lia.
  - rewrite Pos.iter_succ, Pos2Z.inj_xO, IH, Pos2Z.inj_succ, Z.pow_succ_r by lia. ring.
Qed.

Lemma shl_align_spec (mx : positive) (ex e' : Z) :
  let '(mz, ez) := shl_align mx ex e' in
  ez = Z.min ex e' /\ Zpos mz = (Zpos mx * 2 ^ (ex - ez))%Z.
Proof.
  unfold shl_align. destruct (e' - ex)%Z as [|k|k] eqn:Ek.
  - split; [lia|]. replace (ex - ex)%Z with 0%Z by lia. lia.
  - split; [lia|]. replace (ex - ex)%Z with 0%Z by lia. lia.
  - split; [lia|]. rewrite iter_xO. f_equal. f_equal. lia.
Qed.

Lemma binary_round_rounded (sx : bool) (mx : positive) (ex : Z) :
  mag (Zpos mx) ex < pow2 1023 ->
  rounded (sgn sx * mag (Zpos mx) ex) (binary_round prec emax sx mx ex).
Proof.
  intros Hlt. unfold binary_round.
  pose proof (shl_align_spec mx ex (fexp prec emax (Zpos (digits2_pos mx) + ex))) as H.
  destruct (shl_align mx ex _) as [mz ez]. destruct H as [Hez Hmz].
  assert (Hmag : mag (Zpos mz) ez == mag (Zpos mx) ex).
  { rewrite Hmz, mag_shift by lia. replace (ex - ez + ez)%Z with ex by lia. reflexivity. }
  assert (Hdig : (Zpos (digits2_pos mz) + ez = Zpos (digits2_pos mx) + ex)%Z).
  { assert (Zpos (digits2_pos mz) = Zpos (digits2_pos mx) + (ex - ez))%Z; [|lia].
    apply digits_unique. pose proof (digits_bounds mx) as [Lo Hi].
    assert (0 < Zpos (digits2_pos mx))%Z by lia.
    assert (0 < 2 ^ (ex - ez))%Z by (apply Z.pow_pos_nonneg; lia).
    rewrite Hmz. split.
    - replace (Zpos (digits2_pos mx) + (ex - ez) - 1)%Z
        with ((Zpos (digits2_pos mx) - 1) + (ex - ez))%Z by lia.
      rewrite Z.pow_add_r by lia. nia.
    - rewrite Z.pow_add_r by lia. nia. }
  apply (rounded_ext (sgn sx * mag (Zpos mz) ez)); [rewrite Hmag; reflexivity|].
  apply round_aux_rounded.
  - rewrite Hdig. lia.
  - rewrite Hmag. exact Hlt.
Qed.

Lemma rounded_zero (s : bool) (q : Q) : q == 0 -> rounded q (S754_zero s).
Proof.
  intros Hq. unfold rounded. split; [split; reflexivity|].
  assert (0 < u) by apply pow2_pos. assert (0 < eta) by apply pow2_pos.
  cbn [value].
  assert (H1 : Qabs (0 - q) == 0) by (rewrite Hq; reflexivity).
  assert (H2 : Qabs q == 0) by (rewrite Hq; reflexivity).
  split; [rewrite H1, H2; lra|].
  repeat split; intros; lra.
Qed.

Lemma mag_opp (m e : Z) : mag (- m) e == - mag m e.
Proof. unfold mag. rewrite inject_Z_opp. ring. Qed.

Lemma binary_normalize_rounded (M e : Z) (szero : bool) :
  Qabs (mag M e) < pow2 1023 ->
  rounded (mag M e) (binary_normalize prec emax M e szero).
Proof.
  intros Hlt. destruct M as [|m|m]; cbn [binary_normalize].
  - apply rounded_zero. unfold mag. change (inject_Z 0) with 0. ring.
  - assert (Hpos : 0 < mag (Zpos m) e).
    { unfold mag. apply Qmult_lt_0_compat; [reflexivity|apply pow2_pos]. }
    rewrite Qabs_pos in Hlt by lra.
    apply (rounded_ext (sgn false * mag (Zpos m) e)); [cbn [sgn]; ring|].
    apply binary_round_rounded. exact Hlt.
  - assert (Hpos : 0 < mag (Zpos m) e).
    { unfold mag. apply Qmult_lt_0_compat; [reflexivity|apply pow2_pos]. }
    change (Zneg m) with (- Zpos m)%Z in *. rewrite mag_opp in Hlt.
    rewrite Qabs_opp, Qabs_pos in Hlt by lra.
    apply (rounded_ext (sgn true * mag (Zpos m) e)); [rewrite mag_opp; cbn [sgn]; ring|].
    apply binary_round_rounded. exact Hlt.
Qed.

End Values.

(** ** The arithmetic operations *)

Module Arith.
Import Rounding Values.
Import Approx.
Local Open Scope Q_scope.
Local Opaque pow2.


Lemma finite_inv (x : number) :
  finite x ->
  (exists s, x = S754_zero s)
  \/ (exists s m e, x = S754_finite s m e
                    /\ fexp prec emax (Zpos (digits2_pos m) + e) = e
                    /\ (e <= 971)%Z).
Proof.
  intros [Hf Hv]. destruct x as [s|s| |s m e]; try discriminate Hf.
  - left. exists s. reflexivity.
  - right. exists s, m, e. split; [reflexivity|].
    cbn [valid_binary] in Hv. unfold bounded, canonical_mantissa in Hv.
    apply andb_prop in Hv as [Hc He].
    apply Z.eqb_eq in Hc. apply Z.leb_le in He. split; [exact Hc|exact He].
Qed.

Lemma canonical_bounds (m : positive) (e : Z) :
  fexp prec emax (Zpos (digits2_pos m) + e) = e ->
  (-1074 <= e)%Z /\ (Zpos m < 2 ^ 53)%Z
  /\ ((0 <= e)%Z -> (2 ^ 52 <= Zpos m)%Z).
Proof.
  rewrite fexp_eq. intros H. pose proof (digits_bounds m) as [Lo Hi].
  set (d := Zpos (digits2_pos m)) in *.
  split; [lia|]. split.
  - apply Z.lt_le_trans with (1 := Hi). apply Z.pow_le_mono_r; lia.
  - intros He. assert (d = 53%Z) by lia.
    rewrite H0 in Lo. exact Lo.
Qed.

Lemma rounded_exact (q : Q) (r : number) :
  finite r -> value r == q -> rounded q r.
Proof.
  intros Hf Hv. unfold rounded. split; [exact Hf|].
  assert (0 < u) by apply pow2_pos. assert (0 < eta) by apply pow2_pos.
  assert (H1 : Qabs (value r - q) == 0).
  { setoid_replace (value r - q) with 0 using relation Qeq by (rewrite Hv; ring).
    reflexivity. }
  pose proof (Qabs_nonneg q).
  assert (0 <= Qabs q * u) by (apply Qmult_le_0_compat; lra).
  split; [rewrite H1; lra|].
  repeat split; intros; lra.
Qed.

Lemma rounded_finite (q : Q) (r : number) : rounded q r -> finite r.
Proof. intros H. apply H. Qed.

(** The value of a rounded result lies within the error of a bound [B]
    on the magnitude of the exact one. *)
Lemma rounded_within (q B : Q) (r : number) :
  rounded q r -> Qabs q <= B ->
  q - (B * u + eta) <= value r <= q + (B * u + eta).
Proof.
  intros (_ & Herr & _) HB.
  assert (Hu : 0 < u) by apply pow2_pos.
  assert (Qabs q * u <= B * u) by (apply Qmult_le_compat_r; lra).
  apply Qabs_diff_Qle_condition.
  rewrite Qabs_Qminus. lra.
Qed.

Lemma mag_cond_Zopp (s : bool) (m : positive) (e : Z) :
  mag (cond_Zopp s (Zpos m)) e == sgn s * mag (Zpos m) e.
Proof.
  destruct s; cbn [cond_Zopp sgn].
  - change (- Zpos m)%Z with (Z.opp (Zpos m)). rewrite mag_opp. ring.
  - ring.
Qed.

Lemma shl_align_fst (m : positive) (e ez : Z) :
  (ez <= e)%Z ->
  mag (Zpos (fst (shl_align m e ez))) ez == mag (Zpos m) e.
Proof.
  intros H. pose proof (shl_align_spec m e ez) as Hs.
  destruct (shl_align m e ez) as [mz ez']. destruct Hs as [He Hm]. cbn [fst].
  rewrite Hm, mag_shift by lia. replace (e - ez' + ez)%Z with e by lia. reflexivity.
Qed.

Lemma mag_sub (a b e : Z) : mag (a - b) e == mag a e - mag b e.
Proof. unfold mag. rewrite inject_Z_sub. ring. Qed.

Lemma sub_rounded (x y : number) :
  finite x -> finite y ->
  Qabs (value x - value y) < pow2 1023 ->
  rounded (value x - value y) (sub x y).
Proof.
  intros Hx Hy Hlt.
  destruct (finite_inv x Hx) as [(sx & ->)|(sx & mx & ex & -> & _)];
  destruct (finite_inv y Hy) as [(sy & ->)|(sy & my & ey & -> & Hcy)].
  - assert (Hq : value (S754_zero sx) - value (S754_zero sy) == 0) by (cbn [value]; ring).
    unfold sub, SFsub. destruct sx, sy; apply rounded_zero; exact Hq.
  - unfold sub, SFsub. apply rounded_exact.
    + split; [reflexivity|]. exact (proj2 Hy).
    + rewrite !value_finite. cbn [value]. destruct sy; cbn [negb sgn]; ring.
  - unfold sub, SFsub. apply rounded_exact; [exact Hx|]. cbn [value]. ring.
  - unfold sub, SFsub.
    set (ez := Z.min ex ey).
    set (M := (cond_Zopp sx (Zpos (fst (shl_align mx ex ez)))
               - cond_Zopp sy (Zpos (fst (shl_align my ey ez))))%Z).
    assert (HM : mag M ez == value (S754_finite sx mx ex) - value (S754_finite sy my ey)).
    { unfold M. rewrite mag_sub, !mag_cond_Zopp, !shl_align_fst by (unfold ez; lia).
      rewrite !value_finite. reflexivity. }
    apply (rounded_ext (mag M ez)); [exact HM|].
    apply binary_normalize_rounded. rewrite HM. exact Hlt.
Qed.

Lemma sub_self (x : number) : finite x -> sign_of x = false -> sub x x = S754_zero false.
Proof.
  intros Hx Hs.
  destruct (finite_inv x Hx) as [(sx & ->)|(sx & mx & ex & -> & _)];
    cbn [sign_of] in Hs; subst sx.
  - reflexivity.
  - unfold sub, SFsub. rewrite Z.sub_diag. reflexivity.
Qed.

Lemma digits_mul (a b : positive) :
  (Zpos (digits2_pos a) + Zpos (digits2_pos b) - 1 <= Zpos (digits2_pos (a * b)))%Z.
Proof.
  pose proof (digits_bounds a) as [La _]. pose proof (digits_bounds b) as [Lb _].
  set (da := Zpos (digits2_pos a)) in *. set (db := Zpos (digits2_pos b)) in *.
  assert (0 < da)%Z by (unfold da; lia). assert (0 < db)%Z by (unfold db; lia).
  replace (da + db - 1)%Z with ((da + db - 2) + 1)%Z by lia.
  apply digits_ge. rewrite Pos2Z.inj_mul.
  replace (da + db - 2)%Z with ((da - 1) + (db - 1))%Z by lia.
  rewrite Z.pow_add_r by lia.
  assert (0 < 2 ^ (da - 1))%Z by (apply Z.pow_pos_nonneg; lia).
  assert (0 < 2 ^ (db - 1))%Z by (apply Z.pow_pos_nonneg; lia).
  nia.
Qed.

Lemma mag_mul (a b ea eb : Z) : mag (a * b) (ea + eb) == mag a ea * mag b eb.
Proof. unfold mag. rewrite inject_Z_mult, pow2_add. ring. Qed.

Lemma sgn_xorb (a b : bool) : sgn (xorb a b) == sgn a * sgn b.
Proof. destruct a, b; reflexivity. Qed.

Lemma mul_finite_aux (sx sy : bool) (mx my : positive) (ex ey : Z) :
  fexp prec emax (Zpos (digits2_pos mx) + ex) = ex ->
  fexp prec emax (Zpos (digits2_pos my) + ey) = ey ->
  (ex + ey <= fexp prec emax (Zpos (digits2_pos (mx * my)) + (ex + ey)))%Z.
Proof.
  rewrite !fexp_eq. intros Hx Hy. pose proof (digits_mul mx my).
  assert (0 < Zpos (digits2_pos mx))%Z by lia.
  assert (0 < Zpos (digits2_pos my))%Z by lia.
  lia.
Qed.

Lemma mul_rounded (x y : number) :
  finite x -> finite y ->
  Qabs (value x * value y) < pow2 1023 ->
  rounded (value x * value y) (mul x y).
Proof.
  intros Hx Hy Hlt.
  destruct (finite_inv x Hx) as [(sx & ->)|(sx & mx & ex & -> & Hcx & _)];
  destruct (finite_inv y Hy) as [(sy & ->)|(sy & my & ey & -> & Hcy & _)];
    try (unfold mul, SFmul; apply rounded_zero; cbn [value]; ring).
  unfold mul, SFmul.
  assert (Hq : sgn (xorb sx sy) * mag (Zpos (mx * my)) (ex + ey)
               == value (S754_finite sx mx ex) * value (S754_finite sy my ey)).
  { rewrite !value_finite, sgn_xorb, Pos2Z.inj_mul, mag_mul. ring. }
  apply (rounded_ext _ _ _ Hq).
  apply round_aux_rounded.
  - apply mul_finite_aux; assumption.
  - rewrite <- Hq in Hlt. rewrite Qabs_Qmult in Hlt.
    assert (Hs : Qabs (sgn (xorb sx sy)) == 1) by (destruct sx, sy; reflexivity).
    rewrite Hs, Qmult_1_l in Hlt.
    apply Qle_lt_trans with (2 := Hlt). apply Qle_Qabs.
Qed.

(** Signs of results. *)
Lemma round_aux_sign (sx : bool) (mx : positive) (ex : Z) :
  (ex <= fexp prec emax (Zpos (digits2_pos mx) + ex))%Z ->
  (Zpos (digits2_pos mx) + ex <= 1023)%Z ->
  sign_of (binary_round_aux prec emax sx (Zpos mx) ex loc_Exact) = sx.
Proof.
  intros Hn HD.
  destruct (binary_round_aux_spec sx mx ex Hn HD) as (m2 & e2 & -> & Hm2 & _).
  destruct m2; [reflexivity|reflexivity|lia].
Qed.

Lemma binary_round_aligned (sx : bool) (mx : positive) (ex : Z) :
  exists mz ez,
    binary_round prec emax sx mx ex = binary_round_aux prec emax sx (Zpos mz) ez loc_Exact
    /\ mag (Zpos mz) ez == mag (Zpos mx) ex
    /\ (ez <= fexp prec emax (Zpos (digits2_pos mz) + ez))%Z.
Proof.
  unfold binary_round.
  pose proof (shl_align_spec mx ex (fexp prec emax (Zpos (digits2_pos mx) + ex))) as H.
  destruct (shl_align mx ex _) as [mz ez]. destruct H as [Hez Hmz].
  exists mz, ez. split; [reflexivity|].
  assert (Hmag : mag (Zpos mz) ez == mag (Zpos mx) ex).
  { rewrite Hmz, mag_shift by lia. replace (ex - ez + ez)%Z with ex by lia. reflexivity. }
  split; [exact Hmag|].
  assert (Zpos (digits2_pos mz) = Zpos (digits2_pos mx) + (ex - ez))%Z.
  { apply digits_unique. pose proof (digits_bounds mx) as [Lo Hi].
    assert (0 < Zpos (digits2_pos mx))%Z by lia.
    assert (0 < 2 ^ (ex - ez))%Z by (apply Z.pow_pos_nonneg; lia).
    rewrite Hmz. split.
    - replace (Zpos (digits2_pos mx) + (ex - ez) - 1)%Z
        with ((Zpos (digits2_pos mx) - 1) + (ex - ez))%Z by lia.
      rewrite Z.pow_add_r by lia. nia.
    - rewrite Z.pow_add_r by lia. nia. }
  rewrite H. replace (Zpos (digits2_pos mx) + (ex - ez) + ez)%Z
    with (Zpos (digits2_pos mx) + ex)%Z by lia. lia.
Qed.

Lemma mag_exponent (m : positive) (e : Z) :
  mag (Zpos m) e < pow2 1023 -> (Zpos (digits2_pos m) + e <= 1023)%Z.
Proof.
  intros Hlt. pose proof (mag_digits m e) as [Lo _].
  assert (Zpos (digits2_pos m) - 1 + e < 1023)%Z; [|lia].
  apply pow2_lt_inv. apply Qle_lt_trans with (1 := Lo). exact Hlt.
Qed.

Lemma binary_round_sign (sx : bool) (mx : positive) (ex : Z) :
  mag (Zpos mx) ex < pow2 1023 ->
  sign_of (binary_round prec emax sx mx ex) = sx.
Proof.
  intros Hlt. destruct (binary_round_aligned sx mx ex) as (mz & ez & -> & Hmag & Hn).
  apply round_aux_sign; [exact Hn|]. apply mag_exponent. rewrite Hmag. exact Hlt.
Qed.

Lemma mag_nonneg_inv (M e : Z) : 0 <= mag M e -> (0 <= M)%Z.
Proof.
  intros H. destruct (Z.le_gt_cases 0 M) as [|Hneg]; [assumption|]. exfalso.
  assert (mag M e < mag 0 e) by (apply mag_lt; lia).
  unfold mag at 2 in H0. change (inject_Z 0) with 0 in H0. lra.
Qed.

Lemma mag_pos (m : positive) (e : Z) : 0 < mag (Zpos m) e.
Proof. unfold mag. apply Qmult_lt_0_compat; [reflexivity|apply pow2_pos]. Qed.

Lemma value_sign (x : number) :
  (sign_of x = false -> 0 <= value x) /\ (0 < value x -> sign_of x = false).
Proof.
  destruct x as [s|s| |s m e]; cbn [sign_of value].
  1-3: split; [intros _; lra | intros H; exfalso; lra].
  - pose proof (mag_pos m e). pose proof (value_finite s m e) as Hv.
    unfold value in Hv. rewrite Hv.
    destruct s; cbn [sgn]; (split; [intros Hs|intros Hp]);
      try reflexivity; try discriminate Hs; try lra.
Qed.

Lemma sub_sign (x y : number) :
  finite x -> finite y -> sign_of x = false ->
  value y <= value x ->
  Qabs (value x - value y) < pow2 1023 ->
  sign_of (sub x y) = false.
Proof.
  intros Hx Hy Hs Hle Hlt.
  destruct (finite_inv x Hx) as [(sx & ->)|(sx & mx & ex & -> & _)];
  destruct (finite_inv y Hy) as [(sy & ->)|(sy & my & ey & -> & Hcy)];
    cbn [sign_of] in Hs; subst sx.
  - destruct sy; reflexivity.
  - unfold sub, SFsub. cbn [sign_of].
    rewrite value_finite in Hle. cbn [value] in Hle.
    pose proof (mag_pos my ey). destruct sy; cbn [sgn negb] in *; [reflexivity|lra].
  - reflexivity.
  - unfold sub, SFsub.
    set (ez := Z.min ex ey).
    set (M := (cond_Zopp false (Zpos (fst (shl_align mx ex ez)))
               - cond_Zopp sy (Zpos (fst (shl_align my ey ez))))%Z).
    assert (HM : mag M ez == value (S754_finite false mx ex) - value (S754_finite sy my ey)).
    { unfold M. rewrite mag_sub, !mag_cond_Zopp, !shl_align_fst by (unfold ez; lia).
      rewrite !value_finite. reflexivity. }
    assert (HM0 : (0 <= M)%Z) by (apply (mag_nonneg_inv M ez); rewrite HM; lra).
    destruct M as [|m|m]; [reflexivity| |lia].
    cbn [binary_normalize]. apply binary_round_sign.
    rewrite <- HM in Hlt. rewrite Qabs_pos in Hlt by (apply Qlt_le_weak, mag_pos).
    exact Hlt.
Qed.

Lemma mul_sign (x y : number) :
  finite x -> finite y ->
  Qabs (value x * value y) < pow2 1023 ->
  sign_of (mul x y) = xorb (sign_of x) (sign_of y).
Proof.
  intros Hx Hy Hlt.
  destruct (finite_inv x Hx) as [(sx & ->)|(sx & mx & ex & -> & Hcx & _)];
  destruct (finite_inv y Hy) as [(sy & ->)|(sy & my & ey & -> & Hcy & _)];
    try reflexivity.
  unfold mul, SFmul. cbn [sign_of].
  apply round_aux_sign; [apply mul_finite_aux; assumption|].
  apply mag_exponent.
  rewrite !value_finite in Hlt.
  assert (Hq : sgn sx * mag (Zpos mx) ex * (sgn sy * mag (Zpos my) ey)
               == sgn (xorb sx sy) * mag (Zpos (mx * my)) (ex + ey)).
  { rewrite sgn_xorb, Pos2Z.inj_mul, mag_mul. ring. }
  rewrite Hq, Qabs_Qmult in Hlt.
  assert (Hs : Qabs (sgn (xorb sx sy)) == 1) by (destruct sx, sy; reflexivity).
  rewrite Hs, Qmult_1_l in Hlt.
  apply Qle_lt_trans with (2 := Hlt). apply Qle_Qabs.
Qed.

(** *** Integers *)

Lemma mag_small (M k E : Z) :
  (Z.abs M < 2 ^ k)%Z -> (0 <= k)%Z -> (k + E <= 1023)%Z ->
  Qabs (mag M E) < pow2 1023.
Proof.
  intros HM Hk HE.
  assert (Hp : pow2 (k + E) <= pow2 1023) by (apply pow2_le; exact HE).
  assert (Hk2 : mag (2 ^ k) E == pow2 (k + E)).
  { unfold mag. rewrite <- pow2_Z by exact Hk. rewrite pow2_add. reflexivity. }
  apply Qabs_Qlt_condition. split.
  - assert (mag (- 2 ^ k) E < mag M E) by (apply mag_lt; lia).
    rewrite mag_opp, Hk2 in H. lra.
  - assert (mag M E < mag (2 ^ k) E) by (apply mag_lt; lia).
    rewrite Hk2 in H. lra.
Qed.

Lemma mag_0 (M : Z) : mag M 0 == inject_Z M.
Proof. unfold mag. rewrite (pow2_Z 0) by lia. change (inject_Z (2 ^ 0)) with 1. ring. Qed.

Lemma of_Z_exact (z : Z) :
  (Z.abs z < 2 ^ 53)%Z -> finite (of_Z z) /\ value (of_Z z) == inject_Z z.
Proof.
  intros Hz. unfold of_Z.
  pose proof (binary_normalize_rounded z 0 false
                (mag_small z 53 0 Hz ltac:(lia) ltac:(lia))) as (Hf & _ & _ & _ & Hrep).
  split; [exact Hf|]. rewrite <- mag_0. apply Hrep.
  exists z, 0%Z. split; [reflexivity|]. split; [exact Hz|lia].
Qed.

Lemma of_Z_sign (z : Z) : (0 <= z < 2 ^ 53)%Z -> sign_of (of_Z z) = false.
Proof.
  intros Hz. unfold of_Z. destruct z as [|m|m]; [reflexivity| |lia].
  cbn [binary_normalize]. apply binary_round_sign.
  pose proof (mag_small (Zpos m) 53 0 ltac:(lia) ltac:(lia) ltac:(lia)) as H.
  rewrite Qabs_pos in H by (apply Qlt_le_weak, mag_pos). exact H.
Qed.

Lemma Qfloor_unique (q : Q) (z : Z) :
  inject_Z z <= q -> q < inject_Z (z + 1) -> Qfloor q = z.
Proof.
  intros Hlo Hhi. pose proof (Qfloor_le q) as H1. pose proof (Qlt_floor q) as H2.
  assert (inject_Z z < inject_Z (Qfloor q + 1)) by lra.
  assert (inject_Z (Qfloor q) < inject_Z (z + 1)) by lra.
  rewrite <- Zlt_Qlt in H, H0. lia.
Qed.

Lemma mag_Z (m e : Z) : (0 <= e)%Z -> mag m e == inject_Z (m * 2 ^ e).
Proof. intros H. unfold mag. rewrite inject_Z_mult, pow2_Z by exact H. reflexivity. Qed.

(** *** [Math.floor] of a non-negative Number *)

Lemma floor_spec (x : number) :
  finite x -> sign_of x = false ->
  finite (Math_floor x)
  /\ value (Math_floor x) == inject_Z (Qfloor (value x))
  /\ sign_of (Math_floor x) = false
  /\ (0 <= Qfloor (value x))%Z
  /\ (value x < pow2 52 -> Math_floor x = of_Z (Qfloor (value x))).
Proof.
  intros Hx Hs.
  destruct (finite_inv x Hx) as [(sx & ->)|(sx & m & e & -> & Hc & He)];
    cbn [sign_of] in Hs; subst sx.
  - cbn [Math_floor value]. change (Qfloor 0) with 0%Z.
    split; [exact Hx|]. split; [reflexivity|]. split; [reflexivity|].
    split; [lia|]. intros _. reflexivity.
  - pose proof (canonical_bounds m e Hc) as (Hemin & Hm53 & Hnorm).
    unfold Math_floor. cbn [cond_Zopp].
    assert (Hv : value (S754_finite false m e) == mag (Zpos m) e).
    { rewrite value_finite. cbn [sgn]. ring. }
    destruct (Z.leb_spec 0 e) as [Hpos|Hneg].
    + (* an integer already *)
      assert (Hk : Qfloor (value (S754_finite false m e)) = (Zpos m * 2 ^ e)%Z).
      { rewrite Hv, mag_Z by exact Hpos. apply Qfloor_Z. }
      rewrite Hk. split; [exact Hx|]. split; [rewrite Hv; apply mag_Z; exact Hpos|].
      split; [reflexivity|]. split; [apply Z.mul_nonneg_nonneg; [lia|apply Z.pow_nonneg; lia]|].
      intros Hlt. exfalso. rewrite Hv, mag_Z in Hlt by exact Hpos.
      rewrite (pow2_Z 52) in Hlt by lia. rewrite <- Zlt_Qlt in Hlt.
      specialize (Hnorm Hpos).
      assert (1 <= 2 ^ e)%Z by (apply (Z.pow_le_mono_r 2 0 e); lia). nia.
    + (* a fraction to drop *)
      rewrite Z.shiftr_div_pow2 by lia.
      set (k := (- e)%Z). set (z := (Zpos m / 2 ^ k)%Z).
      assert (Hk0 : (0 < 2 ^ k)%Z) by (apply Z.pow_pos_nonneg; unfold k; lia).
      pose proof (Z.div_mod (Zpos m) (2 ^ k) ltac:(lia)) as Hdm.
      pose proof (Z.mod_pos_bound (Zpos m) (2 ^ k) Hk0) as Hmod. fold z in Hdm.
      assert (Hz : (0 <= z <= Zpos m)%Z).
      { unfold z. split; [apply Z.div_pos; lia|].
        apply Z.div_le_upper_bound; [lia|]. nia. }
      assert (Hzk : forall w : Z, inject_Z w == mag (w * 2 ^ k) e).
      { intros w. rewrite mag_shift by (unfold k; lia).
        replace (k + e)%Z with 0%Z by (unfold k; lia). rewrite mag_0. reflexivity. }
      assert (Hfl : Qfloor (value (S754_finite false m e)) = z).
      { rewrite Hv. apply Qfloor_unique.
        - rewrite Hzk. apply mag_le. lia.
        - rewrite Hzk. apply mag_lt. lia. }
      rewrite Hfl. fold (of_Z z).
      destruct (of_Z_exact z ltac:(lia)) as [Hfz Hvz].
      split; [exact Hfz|]. split; [exact Hvz|].
      split; [apply of_Z_sign; lia|]. split; [lia|]. intros _. reflexivity.
Qed.

(** The fractional part is computed without error. *)
Lemma frac_exact (x : number) :
  finite x -> sign_of x = false ->
  finite (sub x (Math_floor x))
  /\ value (sub x (Math_floor x)) == value x - value (Math_floor x)
  /\ sign_of (sub x (Math_floor x)) = false.
Proof.
  intros Hx Hs.
  destruct (floor_spec x Hx Hs) as (Hfd & Hvd & Hsd & Hk0 & _).
  destruct (finite_inv x Hx) as [(sx & ->)|(sx & m & e & Ex & Hc & He)].
  { cbn [sign_of] in Hs. subst sx. cbn [Math_floor]. rewrite sub_self by assumption.
    split; [split; reflexivity|]. split; [cbn [value]; ring|reflexivity]. }
  pose proof Hs as Hs'. rewrite Ex in Hs'. cbn [sign_of] in Hs'. subst sx.
  pose proof (canonical_bounds m e Hc) as (Hemin & Hm53 & Hnorm).
  assert (Hv : value x == mag (Zpos m) e).
  { rewrite Ex, value_finite. cbn [sgn]. ring. }
  destruct (Z.leb_spec 0 e) as [Hpos|Hneg].
  - assert (Hd : Math_floor x = x).
    { rewrite Ex. unfold Math_floor.
      replace (0 <=? e)%Z with true by (symmetry; apply Z.leb_le; exact Hpos). reflexivity. }
    rewrite Hd, sub_self by assumption.
    split; [split; reflexivity|]. split; [cbn [value]; ring|reflexivity].
  - set (k := (- e)%Z).
    assert (Hk2 : (0 < 2 ^ k)%Z) by (apply Z.pow_pos_nonneg; unfold k; lia).
    set (z := Qfloor (value x)) in *.
    pose proof (Qfloor_le (value x)) as Hlo. pose proof (Qlt_floor (value x)) as Hhi.
    fold z in Hlo, Hhi. rewrite inject_Z_plus in Hhi. change (inject_Z 1) with 1 in Hhi.
    assert (Hzk : inject_Z z == mag (z * 2 ^ k) e).
    { rewrite mag_shift by (unfold k; lia).
      replace (k + e)%Z with 0%Z by (unfold k; lia). rewrite mag_0. reflexivity. }
    assert (Hdiff : value x - value (Math_floor x) == mag (Zpos m - z * 2 ^ k) e).
    { rewrite mag_sub, <- Hzk, Hvd, Hv. reflexivity. }
    assert (Hrange : 0 <= value x - value (Math_floor x) < 1) by (rewrite Hvd; lra).
    assert (Hsmall : Qabs (value x - value (Math_floor x)) < pow2 1023).
    { rewrite Qabs_pos by lra.
      apply Qlt_le_trans with 1; [lra|].
      rewrite (pow2_Z 1023) by lia. change 1 with (inject_Z 1).
      rewrite <- Zle_Qle. apply (Z.pow_le_mono_r 2 0 1023); lia. }
    pose proof (sub_rounded x (Math_floor x) Hx Hfd Hsmall) as (Hf & _ & _ & _ & Hrep).
    split; [exact Hf|]. split.
    + apply Hrep. exists (Zpos m - z * 2 ^ k)%Z, e.
      split; [exact Hdiff|]. split; [|exact Hemin].
      assert (0 <= Zpos m - z * 2 ^ k)%Z.
      { apply (mag_nonneg_inv _ e). rewrite <- Hdiff. lra. }
      assert (0 <= z * 2 ^ k)%Z; [|lia].
      apply Z.mul_nonneg_nonneg; [|lia]. fold z in Hk0. exact Hk0.
    + apply sub_sign; try assumption. lra.
Qed.

End Arith.

(** ** The coordinate encoder *)

Module Encoder.
Import Approx Rounding Values Arith.
Local Open Scope Q_scope.

(** *** Tables, checked by computation *)

Lemma div60_table : forallb div60_ok (upto 60) = true.
Proof. vm_compute. reflexivity. Qed.

Lemma numerator_table : forallb numerator_ok (upto 6000) = true.
Proof. vm_compute. reflexivity. Qed.

Lemma numerator_negative_zero : numerator_of true 0 = S754_zero true.
Proof. vm_compute. reflexivity. Qed.

Lemma u_value : u == 1 # 9007199254740992.
Proof. vm_compute. reflexivity. Qed.

Lemma pow2_m60 : pow2 (-60) == 1 # 1152921504606846976.
Proof. vm_compute. reflexivity. Qed.

Lemma pow2_m1 : pow2 (-1) == 1 # 2.
Proof. vm_compute. reflexivity. Qed.

Lemma pow2_12 : pow2 12 == 4096.
Proof. vm_compute. reflexivity. Qed.

Lemma pow2_52_big : 4096 <= pow2 52.
Proof. rewrite <- pow2_12. apply pow2_le. lia. Qed.

Local Opaque pow2.

Lemma eta_small : 0 < eta /\ eta <= 1 # 1152921504606846976.
Proof.
  split; [apply pow2_pos|]. rewrite <- pow2_m60. apply pow2_le. lia.
Qed.

Lemma pow2_1023_big : 4096 <= pow2 1023.
Proof. rewrite <- pow2_12. apply pow2_le. lia. Qed.

Lemma upto_In (n k : Z) : (0 <= k <= n)%Z -> In k (upto n).
Proof.
  intros H. unfold upto. apply in_map_iff. exists (Z.to_nat k).
  split; [lia|]. apply in_seq. lia.
Qed.

Lemma same_eq (x y : number) : same x y = true -> x = y.
Proof.
  destruct x as [a|a| |a m e], y as [b|b| |b m' e']; cbn [same]; try discriminate;
    intros H.
  - apply Bool.eqb_prop in H. congruence.
  - apply Bool.eqb_prop in H. congruence.
  - reflexivity.
  - apply andb_prop in H as [H He]. apply andb_prop in H as [Hs Hm].
    apply Bool.eqb_prop in Hs. apply Pos.eqb_eq in Hm. apply Z.eqb_eq in He. congruence.
Qed.

Lemma div60_spec (k : Z) :
  (0 <= k <= 60)%Z ->
  finite (div (of_Z k) (of_Z 60))
  /\ sign_of (div (of_Z k) (of_Z 60)) = false
  /\ Qabs (value (div (of_Z k) (of_Z 60)) - inject_Z k / 60) <= 1 # 2 ^ 54.
Proof.
  intros Hk.
  pose proof (proj1 (forallb_forall _ _) div60_table k (upto_In 60 k Hk)) as H.
  unfold div60_ok in H. cbv zeta in H.
  apply andb_prop in H as [H Hq]. apply andb_prop in H as [H Hs].
  apply andb_prop in H as [Hf Hv].
  split; [split; assumption|]. split; [apply negb_true_iff; exact Hs|].
  apply Qle_bool_iff in Hq.
  setoid_replace (inject_Z k / 60) with (k # 60) using relation Qeq; [exact Hq|].
  rewrite (Qmake_Qdiv k 60). reflexivity.
Qed.

Lemma numerator_spec (n : Z) : (0 <= n <= 6000)%Z -> numerator_of false n = of_Z n.
Proof.
  intros Hn. apply same_eq.
  exact (proj1 (forallb_forall _ _) numerator_table n (upto_In 6000 n Hn)).
Qed.

Lemma small_constant (z : Z) :
  (0 <= z < 2 ^ 53)%Z ->
  finite (of_Z z) /\ value (of_Z z) == inject_Z z /\ sign_of (of_Z z) = false.
Proof.
  intros H. destruct (of_Z_exact z ltac:(lia)) as [Hf Hv].
  split; [exact Hf|]. split; [exact Hv|]. apply of_Z_sign. exact H.
Qed.

(** *** One axis *)

Lemma Qdiv_pos (x : Q) (p : positive) : x / (Zpos p # 1) == x * (1 # p).
Proof. reflexivity. Qed.

Lemma Qabs_le_intro (q B : Q) : - B <= q -> q <= B -> Qabs q <= B.
Proof. intros H1 H2. apply Qabs_Qle_condition. split; assumption. Qed.

Lemma Qabs_lt_1023 (q : Q) : - 4000 <= q -> q <= 4000 -> Qabs q < pow2 1023.
Proof.
  intros H1 H2. pose proof pow2_1023_big.
  apply Qle_lt_trans with 4000; [apply Qabs_le_intro; assumption|lra].
Qed.

(** The degrees and minutes are the exact floors; the seconds, computed in
    binary64, stay within [10^-9] of 3600 times what is left. *)
Lemma axis_analysis (a : number) :
  finite a -> sign_of a = false ->
  exists kd km : Z,
    kd = Qfloor (value a)
    /\ km = Qfloor (value (mul (sub a (Spec.degrees a)) (of_Z 60)))
    /\ (0 <= kd)%Z /\ (0 <= km <= 60)%Z
    /\ finite (Spec.degrees a) /\ value (Spec.degrees a) == inject_Z kd
    /\ finite (Spec.minutes a) /\ value (Spec.minutes a) == inject_Z km
    /\ finite (Spec.seconds a)
    /\ - (1 # 1000000000) <= value (Spec.seconds a) <= 60 + (1 # 1000000000)
    /\ Qabs (3600 * (value a - inject_Z kd - inject_Z km / 60)
             - value (Spec.seconds a)) <= 1 # 1000000000.
Proof.
  intros Ha Hsa.
  pose proof u_value as Hu. pose proof eta_small as [Heta0 Heta].
  pose proof pow2_52_big as H52.
  (* degrees *)
  destruct (floor_spec a Ha Hsa) as (Hfd & Hvd & Hsd & Hkd & _).
  destruct (frac_exact a Ha Hsa) as (Hff & Hvf & Hsf).
  unfold Spec.seconds, Spec.minutes. fold (Spec.degrees a) in *.
  unfold Spec.degrees in *.
  set (d := Math_floor a) in *. set (f := sub a d) in *.
  set (kd := Qfloor (value a)) in *.
  pose proof (Qfloor_le (value a)) as Hlo. pose proof (Qlt_floor (value a)) as Hhi.
  fold kd in Hlo, Hhi. rewrite inject_Z_plus in Hhi. change (inject_Z 1) with 1 in Hhi.
  assert (Hf01 : 0 <= value f < 1) by (rewrite Hvf, Hvd; lra).
  (* minutes *)
  destruct (small_constant 60 ltac:(lia)) as (Hf60 & Hv60 & Hs60).
  change (inject_Z 60) with 60 in Hv60.
  assert (Hp : rounded (value f * value (of_Z 60)) (mul f (of_Z 60))).
  { apply mul_rounded; [assumption|assumption|]. rewrite Hv60.
    apply Qabs_lt_1023; lra. }
  assert (Hsp : sign_of (mul f (of_Z 60)) = false).
  { rewrite mul_sign; [rewrite Hsf, Hs60; reflexivity|assumption|assumption|].
    rewrite Hv60. apply Qabs_lt_1023; lra. }
  set (p := mul f (of_Z 60)) in *.
  pose proof (rounded_within _ 60 _ Hp
                ltac:(rewrite Hv60; apply Qabs_le_intro; lra)) as Hpw.
  rewrite Hv60 in Hpw.
  pose proof (proj1 (value_sign p) Hsp) as Hp0.
  destruct (floor_spec p (rounded_finite _ _ Hp) Hsp) as (Hfm & Hvm & _ & Hkm & Hm).
  set (km := Qfloor (value p)) in *.
  pose proof (Qfloor_le (value p)) as Hplo. pose proof (Qlt_floor (value p)) as Hphi.
  fold km in Hplo, Hphi. rewrite inject_Z_plus in Hphi. change (inject_Z 1) with 1 in Hphi.
  assert (Hkm60 : (km <= 60)%Z).
  { assert (inject_Z km < inject_Z 61); [|rewrite <- Zlt_Qlt in H; lia].
    change (inject_Z 61) with 61. lra. }
  specialize (Hm ltac:(lra)).
  (* the quotient *)
  destruct (div60_spec km ltac:(lia)) as (Hfg & Hsg & Hvg).
  rewrite <- Hm in Hfg, Hsg, Hvg.
  set (m := Math_floor p) in *. set (g := div m (of_Z 60)) in *.
  apply Qabs_diff_Qle_condition in Hvg.
  change (1 # 2 ^ 54) with (1 # 18014398509481984) in Hvg.
  rewrite (Qdiv_pos (inject_Z km) 60) in Hvg.
  (* what is left of the fraction *)
  assert (Hfg' : - (1 # 50) <= value f - value g <= 1 # 50) by lra.
  assert (Hh : rounded (value f - value g) (sub f g)).
  { apply sub_rounded; [assumption|assumption|]. apply Qabs_lt_1023; lra. }
  set (h := sub f g) in *.
  pose proof (rounded_within _ (1 # 50) _ Hh ltac:(apply Qabs_le_intro; lra)) as Hhw.
  (* seconds *)
  destruct (small_constant 3600 ltac:(lia)) as (Hf3600 & Hv3600 & _).
  change (inject_Z 3600) with 3600 in Hv3600.
  assert (Hh40 : - (1 # 40) <= value h <= 1 # 40) by lra.
  assert (Hs : rounded (value h * value (of_Z 3600)) (mul h (of_Z 3600))).
  { apply mul_rounded; [exact (rounded_finite _ _ Hh)|assumption|]. rewrite Hv3600.
    apply Qabs_lt_1023; lra. }
  set (s := mul h (of_Z 3600)) in *.
  pose proof (rounded_within _ 90 _ Hs
                ltac:(rewrite Hv3600; apply Qabs_le_intro; lra)) as Hsw.
  rewrite Hv3600 in Hsw.
  exists kd, km.
  split; [reflexivity|]. split; [reflexivity|]. split; [exact Hkd|].
  split; [split; [exact Hkm|exact Hkm60]|].
  split; [exact Hfd|]. split; [exact Hvd|]. split; [exact Hfm|]. split; [exact Hvm|].
  split; [exact (rounded_finite _ _ Hs)|].
  split; [split; lra|].
  rewrite (Qdiv_pos (inject_Z km) 60).
  apply Qabs_le_intro; lra.
Qed.

(** *** The seconds, printed and read back *)

Lemma fixed_digits_spec (m : positive) (e : Z) :
  fixed_digits m e = Qfloor (100 * mag (Zpos m) e + (1 # 2)).
Proof.
  unfold fixed_digits. destruct (Z.leb_spec 0 e) as [Hpos|Hneg].
  - symmetry. apply Qfloor_unique.
    + rewrite mag_Z by exact Hpos. rewrite <- Z.mul_assoc, (inject_Z_mult 100).
      change (inject_Z 100) with 100. lra.
    + rewrite mag_Z by exact Hpos.
      rewrite <- Z.mul_assoc, inject_Z_plus, (inject_Z_mult 100).
      change (inject_Z 100) with 100. change (inject_Z 1) with 1. lra.
  - rewrite Z.shiftr_div_pow2 by lia.
    set (k := (- e)%Z). replace (1 - e)%Z with (k + 1)%Z by (unfold k; lia).
    set (N := (2 * (100 * Zpos m) + 2 ^ k)%Z).
    assert (Hk : (0 < 2 ^ (k + 1))%Z) by (apply Z.pow_pos_nonneg; unfold k; lia).
    pose proof (Z.div_mod N (2 ^ (k + 1)) ltac:(lia)) as Hdm.
    pose proof (Z.mod_pos_bound N (2 ^ (k + 1)) Hk) as Hmod.
    set (z := (N / 2 ^ (k + 1))%Z) in *.
    assert (Hq : 100 * mag (Zpos m) e + (1 # 2) == mag N (e - 1)).
    { unfold N, mag. rewrite inject_Z_plus, !inject_Z_mult.
      rewrite <- (pow2_Z k) by (unfold k; lia).
      change (inject_Z 2) with 2. change (inject_Z 100) with 100.
      rewrite (pow2_half e).
      assert (Hh : pow2 k * pow2 (e - 1) == 1 # 2).
      { rewrite <- pow2_add. replace (k + (e - 1))%Z with (-1)%Z by (unfold k; lia).
        exact pow2_m1. }
      rewrite Qmult_plus_distr_l, Hh. ring. }
    assert (Hzk : forall w : Z, inject_Z w == mag (w * 2 ^ (k + 1)) (e - 1)).
    { intros w. rewrite mag_shift by (unfold k; lia).
      replace (k + 1 + (e - 1))%Z with 0%Z by (unfold k; lia). rewrite mag_0. reflexivity. }
    symmetry. apply Qfloor_unique.
    + rewrite Hq, Hzk. apply mag_le. lia.
    + rewrite Hq, Hzk. apply mag_lt. lia.
Qed.

Lemma ge_1e21_small (m : positive) (e : Z) :
  mag (Zpos m) e < 61 -> ge_1e21 m e = false.
Proof.
  intros H. unfold ge_1e21. destruct (Z.leb_spec 0 e) as [Hpos|Hneg].
  - rewrite mag_Z in H by exact Hpos. change 61 with (inject_Z 61) in H.
    rewrite <- Zlt_Qlt in H. apply Z.leb_gt. lia.
  - set (k := (- e)%Z).
    assert (Hk : (0 < 2 ^ k)%Z) by (apply Z.pow_pos_nonneg; unfold k; lia).
    assert (H61 : 61 == mag (61 * 2 ^ k) e).
    { rewrite mag_shift by (unfold k; lia).
      replace (k + e)%Z with 0%Z by (unfold k; lia). rewrite mag_0. reflexivity. }
    rewrite H61 in H.
    assert (Zpos m < 61 * 2 ^ k)%Z.
    { destruct (Z.lt_ge_cases (Zpos m) (61 * 2 ^ k)) as [|Hge]; [assumption|].
      exfalso. apply (mag_le _ _ e) in Hge. lra. }
    apply Z.leb_gt. lia.
Qed.

(** A seconds value in range is printed by [toFixed(2)], and reading the
    text back, scaling by 100 and rounding yields the integer nearest to
    100 times the seconds. *)
Lemma seconds_numerator (s : number) :
  finite s ->
  - (1 # 1000000000) <= value s <= 60 + (1 # 1000000000) ->
  exists str n,
    toFixed2 s = Some str
    /\ (0 <= n <= 6000)%Z
    /\ n = Spec.round_half_away (100 * value s)
    /\ finite (Math_round (mul (parseFloat str) (of_Z 100)))
    /\ value (Math_round (mul (parseFloat str) (of_Z 100))) == inject_Z n
    /\ Qabs (100 * value s - inject_Z n) <= 1 # 2.
Proof.
  intros Hs Hr.
  destruct (finite_inv s Hs) as [(sg & ->)|(sg & m & e & -> & _)].
  - exists (place_point (decimal_digits 0)), 0%Z.
    split; [reflexivity|]. split; [lia|]. split; [reflexivity|].
    change (Math_round (mul (parseFloat (place_point (decimal_digits 0))) (of_Z 100)))
      with (numerator_of false 0).
    rewrite numerator_spec by lia.
    destruct (small_constant 0 ltac:(lia)) as (Hf & Hv & _).
    split; [exact Hf|]. split; [exact Hv|].
    cbn [value]. apply Qabs_le_intro; change (inject_Z 0) with 0; lra.
  - rewrite value_finite in Hr. pose proof (mag_pos m e) as Hm.
    pose proof (fixed_digits_spec m e) as Hn.
    pose proof (Qfloor_le (100 * mag (Zpos m) e + (1 # 2))) as Hlo.
    pose proof (Qlt_floor (100 * mag (Zpos m) e + (1 # 2))) as Hhi.
    rewrite <- Hn in Hlo, Hhi. rewrite inject_Z_plus in Hhi.
    change (inject_Z 1) with 1 in Hhi.
    set (n := fixed_digits m e) in *.
    assert (Hsmall : mag (Zpos m) e < 61) by (destruct sg; cbn [sgn] in Hr; lra).
    exists ((if sg then "-" else EmptyString) ++ place_point (decimal_digits n))%string, n.
    split.
    { unfold toFixed2. rewrite (ge_1e21_small m e Hsmall). reflexivity. }
    change (Math_round (mul (parseFloat ((if sg then "-" else EmptyString)
                                           ++ place_point (decimal_digits n))) (of_Z 100)))
      with (numerator_of sg n).
    assert (Hn0 : (0 <= n)%Z).
    { assert (inject_Z (-1) < inject_Z n); [|rewrite <- Zlt_Qlt in H; lia].
      change (inject_Z (-1)) with (-1). lra. }
    destruct sg; cbn [sgn] in Hr.
    + (* a negative remainder, below half a hundredth: it prints as -0.00 *)
      assert (Hz : n = 0%Z).
      { assert (inject_Z n < inject_Z 1); [|rewrite <- Zlt_Qlt in H; lia].
        change (inject_Z 1) with 1. lra. }
      split; [lia|]. split.
      { unfold Spec.round_half_away.
        replace (Qle_bool 0 (100 * value (S754_finite true m e))) with false.
        - rewrite value_finite. cbn [sgn].
          setoid_replace (- (100 * (-1 * mag (Zpos m) e)) + (1 # 2))
            with (100 * mag (Zpos m) e + (1 # 2)) using relation Qeq by ring.
          rewrite <- Hn. fold n. lia.
        - symmetry. apply not_true_iff_false. intros Hb.
          apply Qle_bool_iff in Hb. rewrite value_finite in Hb. cbn [sgn] in Hb. lra. }
      rewrite Hz, numerator_negative_zero.
      split; [split; reflexivity|]. split; [reflexivity|].
      rewrite value_finite. cbn [sgn]. change (inject_Z 0) with 0.
      apply Qabs_le_intro; lra.
    + assert (Hn6 : (n <= 6000)%Z).
      { assert (inject_Z n < inject_Z 6001); [|rewrite <- Zlt_Qlt in H; lia].
        change (inject_Z 6001) with 6001. lra. }
      split; [lia|]. split.
      { unfold Spec.round_half_away.
        replace (Qle_bool 0 (100 * value (S754_finite false m e))) with true.
        - rewrite value_finite. cbn [sgn].
          setoid_replace (100 * (1 * mag (Zpos m) e) + (1 # 2))
            with (100 * mag (Zpos m) e + (1 # 2)) using relation Qeq by ring.
          exact Hn.
        - symmetry. apply Qle_bool_iff. rewrite value_finite. cbn [sgn]. lra. }
      rewrite numerator_spec by lia.
      destruct (small_constant n ltac:(lia)) as (Hf & Hv & _).
      split; [exact Hf|]. split; [exact Hv|].
      rewrite value_finite. cbn [sgn]. apply Qabs_le_intro; lra.
Qed.

(** *** Both axes *)

Lemma abs_spec (x : number) :
  finite x ->
  finite (Math_abs x) /\ sign_of (Math_abs x) = false
  /\ value (Math_abs x) == Qabs (value x).
Proof.
  intros Hx.
  destruct (finite_inv x Hx) as [(s & ->)|(s & m & e & -> & _)].
  - split; [split; reflexivity|]. split; reflexivity.
  - split; [split; [reflexivity|exact (proj2 Hx)]|]. split; [reflexivity|].
    cbn [Math_abs SFabs]. rewrite !value_finite. pose proof (mag_pos m e).
    destruct s; cbn [sgn].
    + rewrite Qabs_neg by lra. ring.
    + rewrite Qabs_pos by lra. ring.
Qed.

Lemma ge_zero (x : number) :
  finite x -> ge x (of_Z 0) = Qle_bool 0 (value x).
Proof.
  intros Hx.
  destruct (finite_inv x Hx) as [(s & ->)|(s & m & e & -> & _)].
  - reflexivity.
  - pose proof (mag_pos m e) as Hm. pose proof (value_finite s m e) as Hv.
    destruct s; cbn [sgn] in Hv.
    + change (ge (S754_finite true m e) (of_Z 0)) with false.
      symmetry. apply not_true_iff_false. intros Hb. apply Qle_bool_iff in Hb. lra.
    + change (ge (S754_finite false m e) (of_Z 0)) with true.
      symmetry. apply Qle_bool_iff. lra.
Qed.

Lemma convertGPSToExif_unfold (lat lng : number) :
  convertGPSToExif lat lng =
  match toFixed2 (Spec.seconds (Math_abs lat)) with
  | None => None
  | Some latSec =>
      match toFixed2 (Spec.seconds (Math_abs lng)) with
      | None => None
      | Some lngSec =>
          Some {| latRef := if ge lat (of_Z 0) then "N"%string else "S"%string;
                  lngRef := if ge lng (of_Z 0) then "E"%string else "W"%string;
                  lat := [ (Spec.degrees (Math_abs lat), of_Z 1);
                           (Spec.minutes (Math_abs lat), of_Z 1);
                           (Math_round (mul (parseFloat latSec) (of_Z 100)), of_Z 100) ];
                  lng := [ (Spec.degrees (Math_abs lng), of_Z 1);
                           (Spec.minutes (Math_abs lng), of_Z 1);
                           (Math_round (mul (parseFloat lngSec) (of_Z 100)), of_Z 100) ] |}
      end
  end.
Proof. reflexivity. Qed.

(** One axis, end to end. *)
Lemma encode_axis (x : number) :
  finite x ->
  exists (str : string) (kd km kn : Z),
    toFixed2 (Spec.seconds (Math_abs x)) = Some str
    /\ kd = Qfloor (value (Math_abs x))
    /\ km = Qfloor (value (mul (sub (Math_abs x) (Spec.degrees (Math_abs x))) (of_Z 60)))
    /\ kn = Spec.round_half_away (100 * value (Spec.seconds (Math_abs x)))
    /\ finite (Spec.degrees (Math_abs x))
    /\ finite (Spec.minutes (Math_abs x))
    /\ finite (Math_round (mul (parseFloat str) (of_Z 100)))
    /\ value (Spec.degrees (Math_abs x)) == inject_Z kd
    /\ value (Spec.minutes (Math_abs x)) == inject_Z km
    /\ value (Math_round (mul (parseFloat str) (of_Z 100))) == inject_Z kn
    /\ Qabs (value (Math_abs x)
             - (inject_Z kd + inject_Z km * (1 # 60) + inject_Z kn * (1 # 360000)))
       <= 1 # 360000.
Proof.
  intros Hx. destruct (abs_spec x Hx) as (Ha & Hsa & _).
  destruct (axis_analysis (Math_abs x) Ha Hsa)
    as (kd & km & Hkd & Hkm & _ & _ & Hfd & Hvd & Hfm & Hvm & Hfs & Hrange & Herr).
  destruct (seconds_numerator _ Hfs Hrange) as (str & kn & Hstr & _ & Hkn & Hfn & Hvn & Hround).
  exists str, kd, km, kn.
  repeat (split; [assumption|]).
  rewrite (Qdiv_pos (inject_Z km) 60) in Herr.
  apply Qabs_Qle_condition in Herr. apply Qabs_Qle_condition in Hround.
  apply Qabs_le_intro; lra.
Qed.

Lemma axis_encoded_intro (x : number) (str : string) (kd km kn : Z) :
  kd = Qfloor (value (Math_abs x)) ->
  km = Qfloor (value (mul (sub (Math_abs x) (Spec.degrees (Math_abs x))) (of_Z 60))) ->
  kn = Spec.round_half_away (100 * value (Spec.seconds (Math_abs x))) ->
  finite (Spec.degrees (Math_abs x)) ->
  finite (Spec.minutes (Math_abs x)) ->
  finite (Math_round (mul (parseFloat str) (of_Z 100))) ->
  value (Spec.degrees (Math_abs x)) == inject_Z kd ->
  value (Spec.minutes (Math_abs x)) == inject_Z km ->
  value (Math_round (mul (parseFloat str) (of_Z 100))) == inject_Z kn ->
  Spec.axis_encoded (Math_abs x)
    [ (Spec.degrees (Math_abs x), of_Z 1);
      (Spec.minutes (Math_abs x), of_Z 1);
      (Math_round (mul (parseFloat str) (of_Z 100)), of_Z 100) ].
Proof.
  intros Hkd Hkm Hkn Hfd Hfm Hfn Hvd Hvm Hvn.
  exists (Spec.degrees (Math_abs x)), (Spec.minutes (Math_abs x)),
         (Math_round (mul (parseFloat str) (of_Z 100))).
  split; [reflexivity|]. split; [exact Hfd|]. split; [exact Hfm|]. split; [exact Hfn|].
  split; [rewrite Hvd, Hkd; reflexivity|].
  split; [rewrite Hvm, Hkm; reflexivity|].
  change (mul (sub (sub (Math_abs x) (Spec.degrees (Math_abs x)))
                   (div (Spec.minutes (Math_abs x)) (of_Z 60))) (of_Z 3600))
    with (Spec.seconds (Math_abs x)).
  split; [unfold Spec.round2; rewrite Hvn, Hkn; reflexivity|].
  rewrite Hvn, Hkn. reflexivity.
Qed.

(** C1.  For finite inputs [convertGPSToExif] returns: the references by
    sign (N or E for a value of zero or more, S or W below zero); and, per
    axis, on the absolute value [a]: degrees the floor of [a] over 1,
    minutes the floor of (a - degrees) * 60 over 1, and over 100 the integer
    that is 100 times the seconds (a - degrees - minutes / 60) * 3600
    rounded to two decimals.  The arithmetic between the floors is that of
    Numbers (binary64, rounded to nearest). *)
Theorem convertGPSToExif_algorithm (latitude longitude : number) :
  finite latitude -> finite longitude ->
  exists r,
    convertGPSToExif latitude longitude = Some r
    /\ latRef r = (if Qle_bool 0 (value latitude) then "N" else "S")%string
    /\ lngRef r = (if Qle_bool 0 (value longitude) then "E" else "W")%string
    /\ value (Math_abs latitude) == Qabs (value latitude)
    /\ value (Math_abs longitude) == Qabs (value longitude)
    /\ Spec.axis_encoded (Math_abs latitude) (lat r)
    /\ Spec.axis_encoded (Math_abs longitude) (lng r).
Proof.
  intros Hlat Hlng.
  destruct (encode_axis latitude Hlat)
    as (s1 & kd1 & km1 & kn1 & Hs1 & Hkd1 & Hkm1 & Hkn1 & Hfd1 & Hfm1 & Hfn1
        & Hvd1 & Hvm1 & Hvn1 & _).
  destruct (encode_axis longitude Hlng)
    as (s2 & kd2 & km2 & kn2 & Hs2 & Hkd2 & Hkm2 & Hkn2 & Hfd2 & Hfm2 & Hfn2
        & Hvd2 & Hvm2 & Hvn2 & _).
  rewrite convertGPSToExif_unfold, Hs1, Hs2.
  eexists. split; [reflexivity|]. cbn [latRef lngRef lat lng].
  rewrite !ge_zero by assumption.
  split; [reflexivity|]. split; [reflexivity|].
  split; [apply abs_spec; exact Hlat|]. split; [apply abs_spec; exact Hlng|].
  split; eapply axis_encoded_intro; eassumption.
Qed.

Lemma reconstruct_triplet (ref : string) (d m n : number) (kd km kn : Z) :
  value d == inject_Z kd -> value m == inject_Z km -> value n == inject_Z kn ->
  Spec.reconstruct ref [ (d, of_Z 1); (m, of_Z 1); (n, of_Z 100) ]
  == (if (String.eqb ref "S" || String.eqb ref "W")%bool then -1 else 1)
     * (inject_Z kd + inject_Z km * (1 # 60) + inject_Z kn * (1 # 360000)).
Proof.
  intros Hd Hm Hn. unfold Spec.reconstruct. cbn [nth_error].
  destruct (small_constant 1 ltac:(lia)) as (_ & H1 & _).
  destruct (small_constant 100 ltac:(lia)) as (_ & H100 & _).
  rewrite Hd, Hm, Hn, H1, H100.
  change (inject_Z 1) with 1. change (inject_Z 100) with 100.
  set (sg := if (String.eqb ref "S" || String.eqb ref "W")%bool then -1 else 1).
  field.
Qed.

Lemma roundtrip_axis (x : number) (pos neg : string)
    (kd km kn : Z) (d m n : number) :
  (String.eqb pos "S" || String.eqb pos "W")%bool = false ->
  (String.eqb neg "S" || String.eqb neg "W")%bool = true ->
  finite x ->
  value d == inject_Z kd -> value m == inject_Z km -> value n == inject_Z kn ->
  Qabs (value (Math_abs x)
        - (inject_Z kd + inject_Z km * (1 # 60) + inject_Z kn * (1 # 360000)))
  <= 1 # 360000 ->
  Qabs (Spec.reconstruct (if Qle_bool 0 (value x) then pos else neg)
          [ (d, of_Z 1); (m, of_Z 1); (n, of_Z 100) ] - value x) <= 1 # 360000.
Proof.
  intros Hpos Hneg Hx Hd Hm Hn Herr.
  rewrite (reconstruct_triplet _ d m n kd km kn Hd Hm Hn).
  destruct (abs_spec x Hx) as (_ & _ & Habs). rewrite Habs in Herr.
  apply Qabs_Qle_condition in Herr.
  destruct (Qle_bool 0 (value x)) eqn:Eb.
  - apply Qle_bool_iff in Eb. rewrite Hpos. rewrite Qabs_pos in Herr by exact Eb.
    apply Qabs_le_intro; lra.
  - assert (value x < 0).
    { apply Qnot_le_lt. intros H. apply Qle_bool_iff in H. congruence. }
    rewrite Hneg. rewrite Qabs_neg in Herr by lra.
    apply Qabs_le_intro; lra.
Qed.

(** C4.  For a latitude in [-90, 90] and a longitude in [-180, 180], the
    value rebuilt from the references and triplets that [convertGPSToExif]
    returns, sign * (degrees + minutes / 60 + (numerator / denominator) /
    3600), is within 1/360000 of a degree of the input.  (The bound holds
    at the inputs whose seconds round to 60.00 as well.) *)
Theorem roundtrip_precision (latitude longitude : number) :
  finite latitude -> finite longitude ->
  - 90 <= value latitude <= 90 -> - 180 <= value longitude <= 180 ->
  exists r,
    convertGPSToExif latitude longitude = Some r
    /\ Qabs (Spec.reconstruct (latRef r) (lat r) - value latitude) <= 1 # 360000
    /\ Qabs (Spec.reconstruct (lngRef r) (lng r) - value longitude) <= 1 # 360000.
Proof.
  intros Hlat Hlng _ _.
  destruct (encode_axis latitude Hlat)
    as (s1 & kd1 & km1 & kn1 & Hs1 & _ & _ & _ & _ & _ & _ & Hvd1 & Hvm1 & Hvn1 & He1).
  destruct (encode_axis longitude Hlng)
    as (s2 & kd2 & km2 & kn2 & Hs2 & _ & _ & _ & _ & _ & _ & Hvd2 & Hvm2 & Hvn2 & He2).
  rewrite convertGPSToExif_unfold, Hs1, Hs2.
  eexists. split; [reflexivity|]. cbn [latRef lngRef lat lng].
  rewrite !ge_zero by assumption.
  split.
  - apply (roundtrip_axis latitude "N" "S" kd1 km1 kn1); try assumption; reflexivity.
  - apply (roundtrip_axis longitude "E" "W" kd2 km2 kn2); try assumption; reflexivity.
Qed.

(** C5.  There is a finite input, 0.9999999, for which the seconds come out
    as 6000/100 while the minutes stay 59 and the degrees 0; and for every
    input the degrees and minutes returned are the two floors, whatever the
    seconds round to: nothing is carried over. *)
Theorem no_rounding_carry :
  (exists x r,
     x = parseFloat "0.9999999" /\ finite x
     /\ convertGPSToExif x (of_Z 0) = Some r
     /\ lat r = [ (of_Z 0, of_Z 1); (of_Z 59, of_Z 1); (of_Z 6000, of_Z 100) ])
  /\ (forall latitude longitude r,
        convertGPSToExif latitude longitude = Some r ->
        nth_error (lat r) 0 = Some (Spec.degrees (Math_abs latitude), of_Z 1)
        /\ nth_error (lat r) 1 = Some (Spec.minutes (Math_abs latitude), of_Z 1)
        /\ nth_error (lng r) 0 = Some (Spec.degrees (Math_abs longitude), of_Z 1)
        /\ nth_error (lng r) 1 = Some (Spec.minutes (Math_abs longitude), of_Z 1)).
Proof.
  split.
  - eexists. eexists. split; [reflexivity|]. split; [split; reflexivity|].
    split; vm_compute; reflexivity.
  - intros latitude longitude r. rewrite convertGPSToExif_unfold.
    destruct (toFixed2 (Spec.seconds (Math_abs latitude))); [|discriminate].
    destruct (toFixed2 (Spec.seconds (Math_abs longitude))); [|discriminate].
    intros H. injection H as <-. repeat split.
Qed.

Lemma fixed_coordinates_finite : finite GPSLatitude /\ finite GPSLongitude.
Proof. split; split; reflexivity. Qed.

Lemma convertGPSToExif_algorithm_witness :
  exists r,
    convertGPSToExif GPSLatitude GPSLongitude = Some r
    /\ latRef r = (if Qle_bool 0 (value GPSLatitude) then "N" else "S")%string
    /\ lngRef r = (if Qle_bool 0 (value GPSLongitude) then "E" else "W")%string
    /\ value (Math_abs GPSLatitude) == Qabs (value GPSLatitude)
    /\ value (Math_abs GPSLongitude) == Qabs (value GPSLongitude)
    /\ Spec.axis_encoded (Math_abs GPSLatitude) (lat r)
    /\ Spec.axis_encoded (Math_abs GPSLongitude) (lng r).
Proof.
  exact (convertGPSToExif_algorithm GPSLatitude GPSLongitude
           (proj1 fixed_coordinates_finite) (proj2 fixed_coordinates_finite)).
Defined.

Lemma fixed_coordinates_in_range :
  (- 90 <= value GPSLatitude <= 90) /\ (- 180 <= value GPSLongitude <= 180).
Proof.
  repeat split; apply Qle_bool_iff; vm_compute; reflexivity.
Qed.

Lemma roundtrip_precision_witness :
  exists r,
    convertGPSToExif GPSLatitude GPSLongitude = Some r
    /\ Qabs (Spec.reconstruct (latRef r) (lat r) - value GPSLatitude) <= 1 # 360000
    /\ Qabs (Spec.reconstruct (lngRef r) (lng r) - value GPSLongitude) <= 1 # 360000.
Proof.
  exact (roundtrip_precision GPSLatitude GPSLongitude
           (proj1 fixed_coordinates_finite) (proj2 fixed_coordinates_finite)
           (proj1 fixed_coordinates_in_range) (proj2 fixed_coordinates_in_range)).
Defined.

End Encoder.
(** ** The file name *)

Module PathFacts.
Import Path Spec.

Lemma take_drop_while {A} (p : A -> bool) (l : list A) :
  l = take_while p l ++ drop_while p l.
Proof.
  induction l as [|x l IH]; [reflexivity|]. simpl.
  destruct (p x); [simpl; f_equal; exact IH | reflexivity].
Qed.

Lemma take_while_all {A} (p : A -> bool) (l : list A) :
  forallb p (take_while p l) = true.
Proof.
  induction l as [|x l IH]; [reflexivity|]. simpl.
  destruct (p x) eqn:E; [simpl; rewrite E; exact IH | reflexivity].
Qed.

Lemma drop_while_head {A} (p : A -> bool) (l : list A) :
  match drop_while p l with
  | [] => True
  | x :: _ => p x = false
  end.
Proof.
  induction l as [|x l IH]; [exact I|]. simpl.
  destruct (p x) eqn:E; [exact IH | exact E].
Qed.


Lemma loop_slashes (sl r : list ascii) (i : Z) :
  forallb is_slash sl = true ->
  loop (sl ++ r) i init = loop r (i - Z.of_nat (List.length sl)) init.
Proof.
  revert i. induction sl as [|c sl IH]; intros i H.
  - simpl. f_equal. lia.
  - simpl in H. apply andb_prop in H as [Hc Hsl].
    cbn [app loop]. unfold step. unfold is_slash in Hc. unfold slash. rewrite Hc.
    cbn [matchedSlash init negb]. rewrite IH by exact Hsl.
    f_equal. cbn [List.length]. lia.
Qed.

Lemma loop_component (rcomp rest : list ascii) (i sd sp en pds : Z) :
  forallb (fun c => negb (is_slash c)) rcomp = true ->
  match rest with [] => True | c :: _ => is_slash c = true end ->
  en <> -1 ->
  loop (rcomp ++ rest) i
    {| startDot := sd; startPart := sp; end_ := en;
       matchedSlash := false; preDotState := pds |}
  = {| startDot := fst (dot_state rcomp i sd pds);
       startPart := match rest with [] => sp | _ => i - Z.of_nat (List.length rcomp) + 1 end;
       end_ := en; matchedSlash := false;
       preDotState := snd (dot_state rcomp i sd pds) |}.
Proof.
  revert i sd pds. induction rcomp as [|c r IH]; intros i sd pds Hc Hrest Hen.
  - cbn [app dot_state fst snd List.length].
    destruct rest as [|c rest]; [reflexivity|].
    cbn [loop]. unfold step. unfold is_slash in Hrest. unfold slash. rewrite Hrest.
    cbn [matchedSlash negb startDot end_ preDotState]. f_equal. lia.
  - simpl in Hc. apply andb_prop in Hc as [Hc Hr].
    apply negb_true_iff in Hc. unfold is_slash in Hc.
    cbn [app loop]. unfold step. unfold slash. rewrite Hc.
    cbn [end_]. destruct (Z.eqb_spec en (-1)) as [|_]; [contradiction|].
    cbn [dot_state]. unfold is_dot, dot.
    destruct (Ascii.eqb c ".").
    + cbn [startDot]. destruct (sd =? -1).
      * rewrite IH by assumption. cbn [List.length].
        destruct rest; f_equal; lia.
      * cbn [preDotState]. destruct (pds =? 1) eqn:Ep; cbn [negb].
        -- apply Z.eqb_eq in Ep. subst pds.
           rewrite IH by assumption. cbn [List.length].
           destruct rest; f_equal; lia.
        -- cbn [startDot startPart end_ matchedSlash].
           rewrite IH by assumption. cbn [List.length].
           destruct rest; f_equal; lia.
    + cbn [startDot]. destruct (sd =? -1); cbn [negb].
      * rewrite IH by assumption. cbn [List.length].
        destruct rest; f_equal; lia.
      * cbn [startDot startPart end_ matchedSlash].
        rewrite IH by assumption. cbn [List.length].
        destruct rest; f_equal; lia.
Qed.

(** The first character of the component also fixes [end]. *)
Lemma loop_component_init (c : ascii) (rcomp rest : list ascii) (i : Z) :
  forallb (fun c => negb (is_slash c)) (c :: rcomp) = true ->
  match rest with [] => True | c :: _ => is_slash c = true end ->
  0 <= i ->
  loop (c :: rcomp ++ rest) i init
  = {| startDot := fst (dot_state (c :: rcomp) i (-1) 0);
       startPart := match rest with [] => 0 | _ => i - Z.of_nat (List.length rcomp) end;
       end_ := i + 1; matchedSlash := false;
       preDotState := snd (dot_state (c :: rcomp) i (-1) 0) |}.
Proof.
  intros Hc Hrest Hi.
  simpl in Hc. apply andb_prop in Hc as [Hc Hr].
  apply negb_true_iff in Hc. unfold is_slash in Hc.
  cbn [loop]. unfold step. unfold slash. rewrite Hc.
  cbn [end_ init Z.eqb Pos.eqb startDot preDotState negb matchedSlash startPart].
  cbn [dot_state Z.eqb Pos.eqb]. unfold is_dot, dot.
  destruct (Ascii.eqb c ".").
  - rewrite loop_component by (assumption || lia).
    destruct rest; f_equal; lia.
  - rewrite loop_component by (assumption || lia).
    destruct rest; f_equal; lia.
Qed.

Lemma dot_state_after (r : list ascii) (i sd pds : Z) :
  sd <> -1 ->
  dot_state r i sd pds
  = (sd, match r with
         | [] => pds
         | _ => if is_dot (last r "."%char) then 1 else -1
         end).
Proof.
  intros Hsd. revert i pds. induction r as [|c r IH]; intros i pds; [reflexivity|].
  cbn [dot_state]. destruct (Z.eqb_spec sd (-1)) as [|_]; [contradiction|].
  destruct (is_dot c) eqn:Ec; rewrite IH; destruct r as [|c' r]; cbn [last];
    rewrite ?Ec; reflexivity.
Qed.

Lemma dot_state_spec (rcomp : list ascii) (i : Z) :
  Z.of_nat (List.length rcomp) <= i + 1 ->
  dot_state rcomp i (-1) 0
  = match drop_while (fun c => negb (is_dot c)) rcomp with
    | [] => (-1, 0)
    | _ :: rstem =>
        (i - Z.of_nat (List.length (take_while (fun c => negb (is_dot c)) rcomp)),
         match rstem with
         | [] => 0
         | _ => if is_dot (last rstem "."%char) then 1 else -1
         end)
    end.
Proof.
  revert i. induction rcomp as [|c r IH]; intros i Hi; [reflexivity|].
  cbn [List.length] in Hi.
  cbn [dot_state drop_while take_while Z.eqb Pos.eqb].
  destruct (is_dot c) eqn:Ec; cbn [negb].
  - rewrite dot_state_after by lia. simpl List.length. f_equal. lia.
  - rewrite IH by lia. simpl List.length.
    destruct (drop_while _ r); [reflexivity|]. f_equal. lia.
Qed.

Lemma slice_middle (a b c : list ascii) :
  slice (a ++ b ++ c) (Z.of_nat (List.length a))
        (Z.of_nat (List.length a) + Z.of_nat (List.length b)) = b.
Proof.
  unfold slice. rewrite Nat2Z.id.
  replace (Z.to_nat _) with (List.length b) by lia.
  rewrite skipn_app, skipn_all, Nat.sub_diag, skipn_O. cbn [app].
  rewrite firstn_app, firstn_all, Nat.sub_diag, firstn_O. apply app_nil_r.
Qed.

Lemma last_rev_cons (c : ascii) (l : list ascii) (d : ascii) :
  last (rev (c :: l)) d = c.
Proof. cbn [rev]. apply last_last. Qed.

(** The state in which the scan of a relative path ends. *)
Lemma loop_relative (path : list ascii) :
  let r := rev path in
  let r1 := drop_while is_slash r in
  let rcomp := take_while (fun c => negb (is_slash c)) r1 in
  let rest := drop_while (fun c => negb (is_slash c)) r1 in
  let i := Z.of_nat (List.length rest) + Z.of_nat (List.length rcomp) - 1 in
  path = rev rest ++ rev rcomp ++ rev (take_while is_slash r)
  /\ loop r (Z.of_nat (List.length path) - 1) init
     = match rcomp with
       | [] => init
       | _ => {| startDot := fst (dot_state rcomp i (-1) 0);
                 startPart := Z.of_nat (List.length rest);
                 end_ := i + 1; matchedSlash := false;
                 preDotState := snd (dot_state rcomp i (-1) 0) |}
       end.
Proof.
  intros r r1 rcomp rest i.
  set (sl := take_while is_slash r).
  assert (Hr : r = sl ++ rcomp ++ rest).
  { unfold sl, rcomp, rest, r1.
    rewrite <- take_drop_while. apply take_drop_while. }
  assert (Hsl : forallb is_slash sl = true) by apply take_while_all.
  assert (Hcomp : forallb (fun c => negb (is_slash c)) rcomp = true)
    by apply take_while_all.
  assert (Hrest : match rest with [] => True | c :: _ => is_slash c = true end).
  { pose proof (drop_while_head (fun c => negb (is_slash c)) r1) as H.
    fold rest in H. destruct rest; [exact I|]. apply negb_false_iff. exact H. }
  assert (Hlen : Z.of_nat (List.length path)
                 = Z.of_nat (List.length sl) + Z.of_nat (List.length rcomp)
                   + Z.of_nat (List.length rest)).
  { rewrite <- (length_rev path). fold r. rewrite Hr, !length_app. lia. }
  split.
  { rewrite <- (rev_involutive path). fold r. rewrite Hr, !rev_app_distr.
    symmetry. apply app_assoc. }
  rewrite Hr at 1. rewrite loop_slashes by exact Hsl.
  replace (Z.of_nat (List.length path) - 1 - Z.of_nat (List.length sl)) with i
    by (unfold i; lia).
  destruct rcomp as [|c rcomp'] eqn:Ecomp.
  - assert (rest = []) as Erest.
    { pose proof (drop_while_head is_slash r) as H. fold r1 in H.
      unfold rest. destruct r1 as [|x r1']; [reflexivity|].
      unfold rcomp in Ecomp. cbn [take_while] in Ecomp. rewrite H in Ecomp.
      discriminate Ecomp. }
    rewrite Erest. reflexivity.
  - cbn [app]. rewrite loop_component_init;
      [| exact Hcomp | exact Hrest | unfold i; cbn [List.length]; lia].
    f_equal. unfold i. cbn [List.length]. destruct rest; cbn [List.length]; lia.
Qed.

Lemma rev_stem_split (ext rstem : list ascii) (d : ascii) :
  rev (ext ++ d :: rstem) = rev rstem ++ [d] ++ rev ext.
Proof. rewrite rev_app_distr. cbn [rev]. rewrite <- app_assoc. reflexivity. Qed.

(** For a relative path the library's scan yields the base name without
    its extension. *)
Lemma parse_name_stem (path : list ascii) :
  match path with c :: _ => is_slash c = false | [] => True end ->
  parse_name path = strip_extension (basename path).
Proof.
  destruct path as [|c0 path0]; [reflexivity|]. intros Hrel.
  unfold parse_name. unfold is_slash in Hrel. unfold slash. rewrite Hrel.
  cbn [Z.to_nat]. rewrite skipn_O.
  set (path := c0 :: path0) in *.
  destruct (loop_relative path) as [Hpath Hloop].
  unfold basename.
  set (r := rev path) in *.
  set (sl := take_while is_slash r) in *.
  set (r1 := drop_while is_slash r) in *.
  set (rcomp := take_while (fun c => negb (is_slash c)) r1) in *.
  set (rest := drop_while (fun c => negb (is_slash c)) r1) in *.
  rewrite Hloop. clear Hloop.
  destruct rcomp as [|c rcomp'] eqn:Ecomp; [reflexivity|].
  rewrite <- Ecomp in *.
  assert (Hn : (0 < List.length rcomp)%nat) by (rewrite Ecomp; cbn; lia).
  set (i := Z.of_nat (List.length rest) + Z.of_nat (List.length rcomp) - 1).
  cbn [end_ startPart startDot preDotState].
  destruct (Z.eqb_spec (i + 1) (-1)) as [|_]; [lia|]. cbn [negb].
  rewrite andb_false_r.
  assert (Hbase : slice path (Z.of_nat (List.length rest)) (i + 1) = rev rcomp).
  { rewrite Hpath. rewrite <- (length_rev rest).
    replace (i + 1) with (Z.of_nat (List.length (rev rest))
                          + Z.of_nat (List.length (rev rcomp)))
      by (rewrite !length_rev; unfold i; lia).
    apply slice_middle. }
  unfold strip_extension. rewrite rev_involutive.
  pose proof (take_drop_while (fun c => negb (is_dot c)) rcomp) as Hsplit.
  rewrite dot_state_spec by (unfold i; lia).
  set (ext := take_while (fun c => negb (is_dot c)) rcomp) in *.
  destruct (drop_while (fun c => negb (is_dot c)) rcomp) as [|d rstem].
  { cbn [fst snd Z.eqb Pos.eqb orb]. exact Hbase. }
  assert (Hlen : List.length rcomp = (List.length ext + S (List.length rstem))%nat).
  { rewrite Hsplit at 1. rewrite length_app. reflexivity. }
  cbn [fst snd].
  destruct (Z.eqb_spec (i - Z.of_nat (List.length ext)) (-1)) as [|_]; [lia|].
  cbn [orb].
  destruct rstem as [|x rstem'].
  { cbn [Z.eqb orb]. exact Hbase. }
  cbv iota.
  set (rstem := x :: rstem') in *.
  assert (Hstem : slice path (Z.of_nat (List.length rest))
                    (i - Z.of_nat (List.length ext)) = rev rstem).
  { rewrite Hpath, Hsplit, rev_stem_split, <- !app_assoc.
    rewrite <- (length_rev rest).
    replace (i - Z.of_nat (List.length ext))
      with (Z.of_nat (List.length (rev rest)) + Z.of_nat (List.length (rev rstem)))
      by (rewrite !length_rev; unfold i; lia).
    apply slice_middle. }
  destruct (Z.eqb_spec (i - Z.of_nat (List.length ext)) (i + 1 - 1)) as [He|He];
  destruct (Z.eqb_spec (i - Z.of_nat (List.length ext))
                       (Z.of_nat (List.length rest) + 1)) as [Hs|Hs];
  destruct (Nat.eqb_spec (List.length rstem) 1) as [H1|H1];
  destruct (Nat.eqb_spec (List.length ext) 0) as [H0|H0];
  try (exfalso; unfold i in *; lia);
  rewrite ?andb_false_r; cbn [andb orb].
  2-4: destruct (is_dot (last rstem "."%char)); cbn [Z.eqb Pos.eqb orb andb]; exact Hstem.
  (* one character before a final dot: is it a dot? *)
  unfold rstem in H1 |- *. destruct rstem' as [|? ?]; [|discriminate H1].
  cbn [last forallb]. rewrite andb_true_r.
  destruct (is_dot x); cbn [Z.eqb Pos.eqb orb andb]; [exact Hbase|exact Hstem].
Qed.

Lemma name_is_stem (originalName : string) :
  prefix "/" originalName = false ->
  Path.name originalName = Spec.stem originalName.
Proof.
  intros H. unfold Path.name, Spec.stem. f_equal. apply parse_name_stem.
  destruct originalName as [|c s]; [exact I|].
  cbn [list_ascii_of_string]. cbn [prefix] in H. unfold is_slash.
  destruct (Ascii.eqb c "/") eqn:E; [|reflexivity].
  apply Ascii.eqb_eq in E. subst c.
  destruct (ascii_dec "/" "/") as [_|n]; [|contradiction].
  destruct s; discriminate H.
Qed.

End PathFacts.
(** ** Properties of the request handlers *)

Module ServerFacts.
Import Server Trace Tactics.

Lemma build_exifObj_fixed : Exif.build_exifObj = Some Spec.fixed_record.
Proof. vm_compute. reflexivity. Qed.

Lemma parseInt_zero : Quality.parseInt (Some "0"%string) = Some 0.
Proof. reflexivity. Qed.

Lemma effective_quality_range (field : option string) :
  1 <= Quality.effective_quality field <= 100.
Proof.
  unfold Quality.effective_quality.
  destruct (Quality.parseInt field) as [z|]; [|simpl; lia].
  destruct (Z.eqb_spec z 0); [simpl; lia|].
  destruct (Z.ltb_spec z 0); [simpl; lia|].
  destruct (Z.ltb_spec 100 z); simpl; lia.
Qed.

Lemma effective_quality_default (field : option string) :
  Quality.parseInt field = None \/
  (exists z, Quality.parseInt field = Some z /\ (z < 0 \/ 100 < z)) ->
  Quality.effective_quality field = 75.
Proof.
  unfold Quality.effective_quality.
  intros [-> | (z & -> & Hz)]; [reflexivity|].
  destruct (Z.eqb_spec z 0); [reflexivity|].
  destruct (Z.ltb_spec z 0); [reflexivity|].
  destruct (Z.ltb_spec 100 z); [reflexivity|lia].
Qed.

Section Facts.

Variable sharp_toBuffer : SharpCall -> Result Buffer.
Variable piexifjs_dump : Exif.exifObj -> Result string.
Variable piexifjs_insert : string -> string -> Result string.
Variable toString_base64 : Buffer -> string.
Variable Buffer_from_base64 : string -> Buffer.

Local Abbreviation fabricate :=
  (process_fabricate sharp_toBuffer piexifjs_dump piexifjs_insert
     toString_base64 Buffer_from_base64).
Local Abbreviation strip := (process_strip sharp_toBuffer).
Local Abbreviation h_fabricate :=
  (handler_fabricate sharp_toBuffer piexifjs_dump piexifjs_insert
     toString_base64 Buffer_from_base64).
Local Abbreviation h_strip := (handler_strip sharp_toBuffer).
Local Abbreviation failure :=
  (failed sharp_toBuffer piexifjs_dump piexifjs_insert).
Local Abbreviation stops_at_failure :=
  (Trace.stops_at_failure sharp_toBuffer piexifjs_dump piexifjs_insert).

Lemma fabricate_trace (file : File) (q : option string) :
  fst (h_fabricate (Some file) q) =
  let quality := Quality.effective_quality q in
  let c1 := {| input := buffer file; metadata := None; output := Jpeg 95 |} in
  Sharp c1 ::
  match sharp_toBuffer c1 with
  | Throw _ => [Respond (JsonResponse 400 [("error", corrupted_message)]%string)]
  | Ok jpeg =>
      let url := (data_url_prefix ++ toString_base64 jpeg)%string in
      PiexifDump Spec.fixed_record ::
      match piexifjs_dump Spec.fixed_record with
      | Throw e =>
          [ ConsoleError "EXIF injection error:" e;
            Respond (JsonResponse 500
              [("error", "Failed to inject EXIF metadata");
               ("message", "Failed to inject EXIF metadata into image")]%string) ]
      | Ok exifBytes =>
          PiexifInsert exifBytes url ::
          match piexifjs_insert exifBytes url with
          | Throw e =>
              [ ConsoleError "EXIF injection error:" e;
                Respond (JsonResponse 500
                  [("error", "Failed to inject EXIF metadata");
                   ("message", "Failed to inject EXIF metadata into image")]%string) ]
          | Ok injected =>
              let c3 := {| input := Buffer_from_base64 (replace_data_url_prefix injected);
                           metadata := None; output := Webp quality 4 |} in
              Sharp c3 ::
              match sharp_toBuffer c3 with
              | Throw e =>
                  [ Respond (JsonResponse 500
                      [("error", "Failed to convert image to WebP");
                       ("message", e)]%string) ]
              | Ok webp =>
                  [ Respond (FileResponse
                      (success_headers (newFilename (originalname file)) webp) webp) ]
              end
          end
      end
  end.
Proof.
  unfold handler_fabricate, injectExifIntoJpeg.
  rewrite build_exifObj_fixed.
  run.
  destruct (sharp_toBuffer _) as [jpeg|e1]; run; [|reflexivity].
  destruct (piexifjs_dump _) as [bytes|e2]; run; [|reflexivity].
  destruct (piexifjs_insert _ _) as [inj|e3]; run; [|reflexivity].
  destruct (sharp_toBuffer _) as [webp|e4]; run; reflexivity.
Qed.

Lemma strip_trace (file : File) (q : option string) :
  fst (h_strip (Some file) q) =
  let c := {| input := buffer file; metadata := Some false;
              output := Webp (Quality.effective_quality q) 4 |} in
  Sharp c ::
  match sharp_toBuffer c with
  | Throw e =>
      [ Respond (JsonResponse 400
          [("error", corrupted_message); ("details", e)]%string) ]
  | Ok webp =>
      [ Respond (FileResponse
          (success_headers (newFilename (originalname file)) webp) webp) ]
  end.
Proof.
  unfold handler_strip. run.
  destruct (sharp_toBuffer _) as [webp|e]; run; reflexivity.
Qed.

Lemma no_file_trace (q : option string) :
  fst (h_fabricate None q) = [Respond (JsonResponse 400 [("error", no_file_message)]%string)]
  /\ fst (h_strip None q) = [Respond (JsonResponse 400 [("error", no_file_message)]%string)].
Proof. split; reflexivity. Qed.

(** The three outcomes of the upload middleware. *)
Lemma route_cases (handler : option File -> option string -> Script unit) (req : Request) :
  (exists error, upload_single req = inl error
                 /\ route handler req = [Respond (error_middleware error)])
  \/ (upload_single req = inr None
      /\ route handler req = fst (handler None (body_quality req)))
  \/ (exists file, upload_single req = inr (Some file)
                   /\ image_part req = Some file
                   /\ route handler req = fst (handler (Some file) (body_quality req))).
Proof.
  unfold route, upload_single.
  destruct (image_part req) as [file|].
  - destruct (fileFilter file); [|left; eexists; split; reflexivity].
    destruct (_ <? _); [left; eexists; split; reflexivity|].
    destruct (other_parts req); [left; eexists; split; reflexivity|].
    right; right; exists file; repeat split; reflexivity.
  - destruct (other_parts req); [left; eexists; split; reflexivity|].
    right; left; split; reflexivity.
Qed.

Lemma error_middleware_json (error : UploadError) :
  exists status body, error_middleware error = JsonResponse status body /\ 400 <= status.
Proof.
  destruct error as [code message|message]; simpl.
  - destruct (String.eqb _ _); do 2 eexists; split; try reflexivity; lia.
  - destruct (String.eqb _ _); do 2 eexists; split; try reflexivity; lia.
Qed.

(** *** Order of the stages *)

(** C3.  For every accepted upload, whatever its type, the library calls of
    the fabricating route are the chain of the specification, in that order:
    the upload is re-encoded to JPEG (quality 95) first, the fixed record is
    serialized and spliced into the data URL of that JPEG and of nothing
    else, and the buffer decoded from the splice is what is encoded to WebP;
    the calls stop at the first stage that throws. *)
Theorem fabricate_pipeline_order (req : Request) (file : File) :
  upload_single req = inr (Some file) ->
  library_calls (fabricate req) =
  fabricate_chain sharp_toBuffer piexifjs_dump piexifjs_insert
    toString_base64 Buffer_from_base64
    Spec.fixed_record (buffer file) (Quality.effective_quality (body_quality req)).
Proof.
  intros Hup.
  unfold process_fabricate, route. rewrite Hup.
  rewrite fabricate_trace. unfold fabricate_chain, library_calls.
  cbn zeta.
  cbn [filter is_library_call].
  destruct (sharp_toBuffer _) as [jpeg|e1]; cbn [filter is_library_call]; [|reflexivity].
  destruct (piexifjs_dump _) as [bytes|e2]; cbn [filter is_library_call]; [|reflexivity].
  destruct (piexifjs_insert _ _) as [inj|e3]; cbn [filter is_library_call]; [|reflexivity].
  destruct (sharp_toBuffer _) as [webp|e4]; reflexivity.
Qed.

(** *** Failure and delivery *)



Lemma fabricate_handler_fail_stop (file : File) (q : option string) :
  let t := fst (h_fabricate (Some file) q) in
  one_response_last t /\ stops_at_failure t.
Proof.
  cbn zeta. rewrite fabricate_trace. cbn zeta.
  unfold one_response_last, stops_at_failure.
  destruct (sharp_toBuffer _) as [jpeg|e1] eqn:E1.
  2:{ split; [exists [Sharp {| input := buffer file; metadata := None; output := Jpeg 95 |}];
                eexists; split; reflexivity | ordered]. }
  destruct (piexifjs_dump _) as [bytes|e2] eqn:E2.
  2:{ split; [eexists [_; _; _]; eexists; split; reflexivity | ordered]. }
  destruct (piexifjs_insert _ _) as [inj|e3] eqn:E3.
  2:{ split; [eexists [_; _; _; _]; eexists; split; reflexivity | ordered]. }
  destruct (sharp_toBuffer {| input := Buffer_from_base64 _ |}) as [webp|e4] eqn:E4.
  2:{ split; [eexists [_; _; _; _]; eexists; split; reflexivity | ordered]. }
  split; [eexists [_; _; _; _]; eexists; split; reflexivity | ordered].
Qed.

Lemma strip_handler_fail_stop (file : File) (q : option string) :
  let t := fst (h_strip (Some file) q) in
  one_response_last t /\ stops_at_failure t.
Proof.
  cbn zeta. rewrite strip_trace. cbn zeta.
  unfold one_response_last, stops_at_failure.
  destruct (sharp_toBuffer _) as [webp|e] eqn:E.
  - split; [eexists [_]; eexists; split; reflexivity | ordered].
  - split; [eexists [_]; eexists; split; reflexivity | ordered].
Qed.

Lemma single_response_fail_stop (r : Response) :
  one_response_last [Respond r] /\ stops_at_failure [Respond r].
Proof.
  split; [exists [], r; split; reflexivity | unfold stops_at_failure; ordered].
Qed.

Lemma route_fail_stop (handler : option File -> option string -> Script unit) (req : Request) :
  (forall q, exists r, fst (handler None q) = [Respond r]) ->
  (forall file q, one_response_last (fst (handler (Some file) q))
                  /\ stops_at_failure (fst (handler (Some file) q))) ->
  one_response_last (route handler req) /\ stops_at_failure (route handler req).
Proof.
  intros Hnone Hsome.
  destruct (route_cases handler req)
    as [(error & _ & ->) | [(_ & ->) | (file & _ & _ & ->)]].
  - apply single_response_fail_stop.
  - destruct (Hnone (body_quality req)) as (r & ->). apply single_response_fail_stop.
  - apply Hsome.
Qed.

(** A stage that threw is answered by a JSON error, never by an image. *)
Lemma fabricate_failure_reported (req : Request) (e : Event) :
  In e (fabricate req) -> failure e = true ->
  exists status body,
    responses (fabricate req) = [Respond (JsonResponse status body)] /\ 400 <= status.
Proof.
  unfold process_fabricate.
  destruct (route_cases h_fabricate req)
    as [(error & _ & ->) | [(_ & ->) | (file & _ & _ & ->)]].
  - intros [<-|[]] H. discriminate H.
  - intros [<-|[]] H. discriminate H.
  - rewrite fabricate_trace. cbn zeta.
    destruct (sharp_toBuffer _) as [jpeg|e1] eqn:E1.
    2:{ intros _ _. do 2 eexists. split; [reflexivity|lia]. }
    destruct (piexifjs_dump _) as [exifBytes|e2] eqn:E2.
    2:{ intros _ _. do 2 eexists. split; [reflexivity|lia]. }
    destruct (piexifjs_insert _ _) as [inj|e3] eqn:E3.
    2:{ intros _ _. do 2 eexists. split; [reflexivity|lia]. }
    destruct (sharp_toBuffer {| input := Buffer_from_base64 _ |}) as [webp|e4] eqn:E4.
    2:{ intros _ _. do 2 eexists. split; [reflexivity|lia]. }
    intros [<-|[<-|[<-|[<-|[<-|[]]]]]]; cbn [failed throws];
      rewrite ?E1, ?E2, ?E3, ?E4; intros H; discriminate H.
Qed.

Lemma strip_failure_reported (req : Request) (e : Event) :
  In e (strip req) -> failure e = true ->
  exists status body,
    responses (strip req) = [Respond (JsonResponse status body)] /\ 400 <= status.
Proof.
  unfold process_strip.
  destruct (route_cases h_strip req)
    as [(error & _ & ->) | [(_ & ->) | (file & _ & _ & ->)]].
  - intros [<-|[]] H. discriminate H.
  - intros [<-|[]] H. discriminate H.
  - rewrite strip_trace. cbn zeta.
    destruct (sharp_toBuffer _) as [webp|e1] eqn:E1.
    2:{ intros _ _. do 2 eexists. split; [reflexivity|lia]. }
    intros [<-|[<-|[]]]; cbn [failed throws]; rewrite ?E1; intros H; discriminate H.
Qed.


(** *** The quality parameter *)

Lemma within_limit_not_too_long (value : option string) :
  field_within_limit value = true -> field_too_long value = false.
Proof.
  destruct value as [s|]; [|reflexivity]. cbn [field_within_limit field_too_long].
  intros H. apply Z.ltb_lt in H. apply Z.ltb_ge. lia.
Qed.

(** How the upload ends does not depend on a quality field that is within
    the size limit. *)
Lemma upload_ignores_quality (req : Request) (q : option string) :
  field_within_limit (body_quality req) = true -> field_within_limit q = true ->
  upload_single (with_quality req q) = upload_single req.
Proof.
  intros H1 H2. apply within_limit_not_too_long in H1, H2.
  unfold upload_single, other_parts, with_quality.
  cbn [image_part body_quality unexpected_file]. rewrite H1, H2. reflexivity.
Qed.

(** An acceptable image part, with nothing else for the upload middleware
    to refuse, is handed over. *)
Lemma upload_accepted (req : Request) (file : File) :
  image_part req = Some file ->
  includes allowedMimes (mimetype file) = true ->
  Z.of_nat (List.length (buffer file)) < fileSize_limit ->
  unexpected_file req = None ->
  field_within_limit (body_quality req) = true ->
  upload_single req = inr (Some file).
Proof.
  intros Hfile Htype Hsize Hstray Hlen. apply within_limit_not_too_long in Hlen.
  unfold upload_single, other_parts, fileFilter.
  rewrite Hfile, Htype, Hstray, Hlen.
  destruct (Z.ltb_spec fileSize_limit (Z.of_nat (List.length (buffer file))));
    [lia|reflexivity].
Qed.

(** The quality of every WebP encoding asked of the codec. *)
Lemma webp_calls_quality (req : Request) (call : SharpCall) (quality effort : Z) :
  In (Sharp call) (fabricate req) \/ In (Sharp call) (strip req) ->
  output call = Webp quality effort ->
  quality = Quality.effective_quality (body_quality req) /\ effort = 4.
Proof.
  intros [Hin|Hin] Hout.
  - unfold process_fabricate in Hin.
    destruct (route_cases h_fabricate req)
      as [(error & _ & E) | [(_ & E) | (file & _ & _ & E)]]; rewrite E in Hin.
    + Cases.pick Hin.
    + Cases.pick Hin.
    + rewrite fabricate_trace in Hin. cbn zeta in Hin.
      destruct (sharp_toBuffer _) as [jpeg|e1].
      2:{ Cases.pick Hin. injection Hin as <-. discriminate Hout. }
      destruct (piexifjs_dump _) as [exifBytes|e2].
      2:{ Cases.pick Hin. injection Hin as <-. discriminate Hout. }
      destruct (piexifjs_insert _ _) as [inj|e3].
      2:{ Cases.pick Hin. injection Hin as <-. discriminate Hout. }
      destruct (sharp_toBuffer {| input := Buffer_from_base64 _ |}) as [webp|e4];
        (destruct Hin as [Hin|[Hin|[Hin|[Hin|[Hin|[]]]]]]; try discriminate Hin;
         injection Hin as <-; [discriminate Hout|];
         injection Hout as <- <-; split; reflexivity).
  - unfold process_strip in Hin.
    destruct (route_cases h_strip req)
      as [(error & _ & E) | [(_ & E) | (file & _ & _ & E)]]; rewrite E in Hin.
    + Cases.pick Hin.
    + Cases.pick Hin.
    + rewrite strip_trace in Hin. cbn zeta in Hin.
      destruct (sharp_toBuffer _) as [webp|e];
        (destruct Hin as [Hin|[Hin|[]]]; try discriminate Hin;
         injection Hin as <-; injection Hout as <- <-; split; reflexivity).
Qed.


(** C7.  The field ["0"] parses to the integer 0, which lies in the
    documented range, yet the effective quality is 75; no field at all
    yields the effective quality 0, which always lies between 1 and 100. *)
Theorem quality_zero_is_default :
  Quality.parseInt (Some "0"%string) = Some 0
  /\ Quality.effective_quality (Some "0"%string) = 75
  /\ forall field, Quality.effective_quality field <> 0
                   /\ 1 <= Quality.effective_quality field <= 100.
Proof.
  split; [reflexivity|]. split; [reflexivity|].
  intros field. pose proof (effective_quality_range field). lia.
Qed.

(** *** What a client sees of a failure *)

(** X21.  In server.js every response of status 400 has a body of one
    field, [error].  Its text is one of the four fixed texts of server.js
    or the message of the MulterError the upload middleware raised: a
    message of the codec or of the metadata library never reaches the
    client of a client fault. *)
Lemma fabricate_client_faults_are_opaque (req : Request) (status : Z)
    (body : list (string * string)) :
  In (Respond (JsonResponse status body)) (fabricate req) ->
  status = 400 ->
  exists text,
    body = [("error", text)]%string
    /\ (In text [ no_file_message; corrupted_message; invalid_type_message;
                  "File size too large. Maximum size is 50MB."%string ]
        \/ exists code, upload_single req = inl (MulterError code text)).
Proof.
  unfold process_fabricate.
  destruct (route_cases h_fabricate req)
    as [(error & Hup & ->) | [(_ & ->) | (file & _ & _ & ->)]].
  - intros [H|[]] Hs. destruct error as [code message|message]; cbn [error_middleware] in H.
    + destruct (String.eqb code "LIMIT_FILE_SIZE"); injection H as _ <-.
      * eexists; split; [reflexivity|]. left. simpl. auto.
      * eexists; split; [reflexivity|]. right. exists code. exact Hup.
    + destruct (String.eqb_spec message invalid_type_message) as [->|_];
        injection H as <- <-; [|discriminate Hs].
      eexists; split; [reflexivity|]. left. simpl. auto.
  - intros [H|[]] _. injection H as <- <-.
    eexists; split; [reflexivity|]. left. simpl. auto.
  - rewrite fabricate_trace. cbn zeta.
    destruct (sharp_toBuffer _) as [jpeg|e1].
    2:{ intros [H|[H|[]]] _; [discriminate H|]. injection H as <- <-.
        eexists; split; [reflexivity|]. left. simpl. auto. }
    destruct (piexifjs_dump _) as [exifBytes|e2].
    2:{ intros [H|[H|[H|[H|[]]]]] Hs; try discriminate H.
        injection H as <- <-. discriminate Hs. }
    destruct (piexifjs_insert _ _) as [inj|e3].
    2:{ intros [H|[H|[H|[H|[H|[]]]]]] Hs; try discriminate H.
        injection H as <- <-. discriminate Hs. }
    destruct (sharp_toBuffer {| input := Buffer_from_base64 _ |}) as [webp|e4].
    2:{ intros [H|[H|[H|[H|[H|[]]]]]] Hs; try discriminate H.
        injection H as <- <-. discriminate Hs. }
    intros [H|[H|[H|[H|[H|[]]]]]] Hs; discriminate H.
Qed.

(** C8, on the stripping variant.  When the codec cannot decode an accepted
    upload and throws with some message, the 400 response carries that
    message to the client in its [details] field. *)
Theorem strip_decode_error_exposes_codec_message (req : Request) (file : File)
    (message : string) :
  upload_single req = inr (Some file) ->
  sharp_toBuffer {| input := buffer file; metadata := Some false;
                    output := Webp (Quality.effective_quality (body_quality req)) 4 |}
  = Throw message ->
  responses (strip req)
  = [ Respond (JsonResponse 400
        [("error", corrupted_message); ("details", message)]%string) ].
Proof.
  intros Hup Hthrow.
  unfold process_strip, route. rewrite Hup, strip_trace. cbn zeta.
  rewrite Hthrow. reflexivity.
Qed.

(** *** The record and the final encoding *)

(** C2.  On the fabricating route the record serialized for injection is
    the fixed one, whatever was uploaded; and no codec call of the route,
    the final WebP encoding included, asks the codec to keep metadata
    ([withMetadata] is never called). *)
Theorem fabricate_record_and_final_encoding (req : Request) (e : Event) :
  In e (fabricate req) ->
  match e with
  | PiexifDump record => record = Spec.fixed_record
  | Sharp call => metadata call = None
  | _ => True
  end.
Proof.
  unfold process_fabricate.
  destruct (route_cases h_fabricate req)
    as [(error & _ & ->) | [(_ & ->) | (file & _ & _ & ->)]].
  - intros [<-|[]]. exact I.
  - intros [<-|[]]. exact I.
  - rewrite fabricate_trace. cbn zeta.
    destruct (sharp_toBuffer _) as [jpeg|e1].
    2:{ intros [<-|[<-|[]]]; cbn; auto. }
    destruct (piexifjs_dump _) as [exifBytes|e2].
    2:{ intros [<-|[<-|[<-|[<-|[]]]]]; cbn; auto. }
    destruct (piexifjs_insert _ _) as [inj|e3].
    2:{ intros [<-|[<-|[<-|[<-|[<-|[]]]]]]; cbn; auto. }
    destruct (sharp_toBuffer {| input := Buffer_from_base64 _ |}) as [webp|e4].
    2:{ intros [<-|[<-|[<-|[<-|[<-|[]]]]]]; cbn; auto. }
    intros [<-|[<-|[<-|[<-|[<-|[]]]]]]; cbn; auto.
Qed.

(** *** The suggested file name *)

(** C10.  When image bytes are delivered, on either variant, the
    [Content-Disposition] header suggests, as an attachment, the base name
    of the declared file name with its extension stripped, followed by
    [.webp].  (The declared name is relative, as the upload middleware
    reports it: it keeps no directory part.) *)
Theorem output_filename (req : Request) (file : File)
    (headers : list (string * string)) (bytes : Buffer) :
  image_part req = Some file ->
  prefix "/" (originalname file) = false ->
  In (Respond (FileResponse headers bytes)) (fabricate req)
  \/ In (Respond (FileResponse headers bytes)) (strip req) ->
  Trace.header "Content-Disposition" headers
  = Some ("attachment; filename=" ++ dquote
          ++ (Spec.stem (originalname file) ++ ".webp") ++ dquote)%string.
Proof.
  intros Hfile Hrel Hin.
  rewrite <- (PathFacts.name_is_stem _ Hrel).
  change (Path.name (originalname file) ++ ".webp")%string
    with (newFilename (originalname file)).
  destruct Hin as [Hin|Hin].
  - unfold process_fabricate in Hin.
    destruct (route_cases h_fabricate req)
      as [(error & _ & E) | [(_ & E) | (file' & _ & Hf & E)]]; rewrite E in Hin.
    + destruct (error_middleware_json error) as (st & body & Ee & _).
      rewrite Ee in Hin. destruct Hin as [H|[]]; discriminate H.
    + destruct Hin as [H|[]]; discriminate H.
    + rewrite Hfile in Hf. injection Hf as <-.
      rewrite fabricate_trace in Hin. cbn zeta in Hin.
      destruct (sharp_toBuffer _) as [jpeg|e1].
      2:{ destruct Hin as [H|[H|[]]]; discriminate H. }
      destruct (piexifjs_dump _) as [exifBytes|e2].
      2:{ destruct Hin as [H|[H|[H|[H|[]]]]]; discriminate H. }
      destruct (piexifjs_insert _ _) as [inj|e3].
      2:{ destruct Hin as [H|[H|[H|[H|[H|[]]]]]]; discriminate H. }
      destruct (sharp_toBuffer {| input := Buffer_from_base64 _ |}) as [webp|e4].
      2:{ destruct Hin as [H|[H|[H|[H|[H|[]]]]]]; discriminate H. }
      destruct Hin as [H|[H|[H|[H|[H|[]]]]]]; try discriminate H.
      injection H as <- _. reflexivity.
  - unfold process_strip in Hin.
    destruct (route_cases h_strip req)
      as [(error & _ & E) | [(_ & E) | (file' & _ & Hf & E)]]; rewrite E in Hin.
    + destruct (error_middleware_json error) as (st & body & Ee & _).
      rewrite Ee in Hin. destruct Hin as [H|[]]; discriminate H.
    + destruct Hin as [H|[]]; discriminate H.
    + rewrite Hfile in Hf. injection Hf as <-.
      rewrite strip_trace in Hin. cbn zeta in Hin.
      destruct (sharp_toBuffer _) as [webp|e].
      2:{ destruct Hin as [H|[H|[]]]; discriminate H. }
      destruct Hin as [H|[H|[]]]; try discriminate H.
      injection H as <- _. reflexivity.
Qed.

End Facts.
End ServerFacts.

(** The sample request on libraries that succeed, and on a codec that
    rejects its input. *)
Module Examples.
Import Server Trace.

Lemma sample_upload : upload_single sample_request = inr (Some sample_file).
Proof. reflexivity. Qed.

Lemma fabricate_pipeline_order_witness :
  library_calls
    (process_fabricate echo_sharp echo_dump echo_insert echo_base64 echo_from_base64
       sample_request)
  = fabricate_chain echo_sharp echo_dump echo_insert echo_base64 echo_from_base64
      Spec.fixed_record (buffer sample_file) 90.
Proof.
  exact (ServerFacts.fabricate_pipeline_order echo_sharp echo_dump echo_insert
           echo_base64 echo_from_base64 sample_request sample_file sample_upload).
Defined.


(** The quality field of [long_quality_request] is one character over the
    limit. *)
Lemma length_of_list (l : list ascii) :
  String.length (string_of_list_ascii l) = List.length l.
Proof.
  induction l as [|c l IH]; [reflexivity|].
  change (S (String.length (string_of_list_ascii l)) = S (List.length l)).
  rewrite IH. reflexivity.
Qed.

Lemma padded_length (c : ascii) (n : nat) :
  Z.of_nat (String.length (String c (string_of_list_ascii (repeat c n))))
  = Z.of_nat n + 1.
Proof.
  cbn [String.length]. rewrite length_of_list, repeat_length. lia.
Qed.

Lemma long_text_length :
  Z.of_nat (String.length Cases.long_text) = fieldSize_default + 1.
Proof.
  unfold Cases.long_text.
  rewrite (padded_length "q" (Z.to_nat fieldSize_default)).
  rewrite Z2Nat.id; [reflexivity|]. unfold fieldSize_default. lia.
Qed.

Lemma long_text_too_long : field_too_long (Some Cases.long_text) = true.
Proof.
  unfold field_too_long. rewrite long_text_length. apply Z.ltb_lt. lia.
Qed.

Lemma long_quality_refused :
  upload_single Cases.long_quality_request
  = inl (MulterError "LIMIT_FIELD_VALUE" "Field value too long").
Proof.
  unfold upload_single, other_parts.
  change (body_quality Cases.long_quality_request) with (Some Cases.long_text).
  rewrite long_text_too_long. reflexivity.
Qed.


Lemma strip_decode_error_witness :
  responses (process_strip rejecting_sharp sample_request)
  = [ Respond (JsonResponse 400
        [("error", corrupted_message);
         ("details", "Input buffer contains unsupported image format")]%string) ].
Proof.
  apply (ServerFacts.strip_decode_error_exposes_codec_message rejecting_sharp
           sample_request sample_file); reflexivity.
Defined.

Lemma fabricate_final_encoding_witness :
  metadata {| input := echo_from_base64
                         (replace_data_url_prefix (data_url_prefix ++ echo_base64 (buffer sample_file)));
              metadata := None; output := Webp 90 4 |} = None.
Proof.
  apply (ServerFacts.fabricate_record_and_final_encoding echo_sharp echo_dump echo_insert
           echo_base64 echo_from_base64 sample_request
           (Sharp {| input := echo_from_base64
                         (replace_data_url_prefix (data_url_prefix ++ echo_base64 (buffer sample_file)));
                     metadata := None; output := Webp 90 4 |})).
  vm_compute. auto 10.
Defined.

Lemma output_filename_witness :
  Trace.header "Content-Disposition"
    (success_headers "holiday.photo.webp" (buffer sample_file))
  = Some ("attachment; filename=" ++ dquote
          ++ (Spec.stem "holiday.photo.png" ++ ".webp") ++ dquote)%string.
Proof.
  apply (ServerFacts.output_filename echo_sharp echo_dump echo_insert
           echo_base64 echo_from_base64 sample_request sample_file
           (success_headers "holiday.photo.webp" (buffer sample_file))
           (buffer sample_file)).
  - reflexivity.
  - reflexivity.
  - left. vm_compute. auto 10.
Defined.

End Examples.

(** ** Further properties of the two routes *)

Module PipelineFacts.
Import Server Trace Tactics Cases.

Section Routes.

Variable sharp_toBuffer : SharpCall -> Result Buffer.
Variable piexifjs_dump : Exif.exifObj -> Result string.
Variable piexifjs_insert : string -> string -> Result string.
Variable toString_base64 : Buffer -> string.
Variable Buffer_from_base64 : string -> Buffer.

Local Abbreviation fabricate :=
  (process_fabricate sharp_toBuffer piexifjs_dump piexifjs_insert
     toString_base64 Buffer_from_base64).
Local Abbreviation strip := (process_strip sharp_toBuffer).
Local Abbreviation h_fabricate :=
  (handler_fabricate sharp_toBuffer piexifjs_dump piexifjs_insert
     toString_base64 Buffer_from_base64).
Local Abbreviation h_strip := (handler_strip sharp_toBuffer).
Local Abbreviation fabricate_trace :=
  (ServerFacts.fabricate_trace sharp_toBuffer piexifjs_dump piexifjs_insert
     toString_base64 Buffer_from_base64).
Local Abbreviation strip_trace := (ServerFacts.strip_trace sharp_toBuffer).

(** The trace of a request whose upload was accepted. *)
Lemma accepted_route (handler : option File -> option string -> Script unit)
    (req : Request) (file : File) :
  upload_single req = inr (Some file) ->
  route handler req = fst (handler (Some file) (body_quality req)).
Proof. intros H. unfold route. rewrite H. reflexivity. Qed.

Lemma rejected_route (handler : option File -> option string -> Script unit)
    (req : Request) (error : UploadError) :
  upload_single req = inl error ->
  route handler req = [Respond (error_middleware error)].
Proof. intros H. unfold route. rewrite H. reflexivity. Qed.

(** X1.  An upload whose declared type is none of image/jpeg, image/jpg and
    image/png is answered, on either variant, by the single response 400
    with the text of the file filter; no library is called.  (The text the
    filter raises is the one the error middleware recognises: the answer is
    not the 500 of an unknown error.) *)
Theorem unsupported_type_rejected (req : Request) (file : File) :
  image_part req = Some file ->
  includes allowedMimes (mimetype file) = false ->
  fabricate req = [Respond (JsonResponse 400 [("error", invalid_type_message)]%string)]
  /\ strip req = [Respond (JsonResponse 400 [("error", invalid_type_message)]%string)].
Proof.
  intros Hfile Htype.
  assert (Hup : upload_single req = inl (PlainError invalid_type_message)).
  { unfold upload_single, fileFilter. rewrite Hfile, Htype. reflexivity. }
  unfold process_fabricate, process_strip.
  rewrite !(rejected_route _ _ _ Hup). split; reflexivity.
Qed.

(** X2.  An upload of an allowed type that holds more than 50 * 1024 * 1024
    bytes is answered, on either variant, by the single response 400 with
    the text "File size too large. Maximum size is 50MB."; no library is
    called. *)
Theorem oversized_upload_rejected (req : Request) (file : File) :
  image_part req = Some file ->
  includes allowedMimes (mimetype file) = true ->
  fileSize_limit < Z.of_nat (List.length (buffer file)) ->
  fabricate req = [Respond (JsonResponse 400 [("error", too_large_message)]%string)]
  /\ strip req = [Respond (JsonResponse 400 [("error", too_large_message)]%string)].
Proof.
  intros Hfile Htype Hsize.
  assert (Hup : upload_single req = inl (MulterError "LIMIT_FILE_SIZE" "File too large")).
  { unfold upload_single, fileFilter. rewrite Hfile, Htype.
    apply Z.ltb_lt in Hsize. rewrite Hsize. reflexivity. }
  unfold process_fabricate, process_strip.
  rewrite !(rejected_route _ _ _ Hup). split; reflexivity.
Qed.

(** X3.  A form with no file part (none under the field name image, none
    under another name) whose quality field, if any, is shorter than the
    size limit is answered, on either variant and whatever that field holds, by
    the single response 400 "No image file provided..."; no library is
    called. *)
Theorem missing_file_rejected (req : Request) :
  image_part req = None -> unexpected_file req = None ->
  field_within_limit (body_quality req) = true ->
  fabricate req = [Respond (JsonResponse 400 [("error", no_file_message)]%string)]
  /\ strip req = [Respond (JsonResponse 400 [("error", no_file_message)]%string)].
Proof.
  intros Hfile Hstray Hlen. apply ServerFacts.within_limit_not_too_long in Hlen.
  unfold process_fabricate, process_strip, route, upload_single, other_parts.
  rewrite Hfile, Hstray, Hlen. split; reflexivity.
Qed.

(** X23.  A form whose only file part is under a field name other than
    image is refused by the upload middleware: on either variant the single
    response is 400 with multer's own message, not the text of the handler
    for a missing file; no library is called. *)
Theorem unexpected_file_rejected (req : Request) (name : string) :
  image_part req = None -> unexpected_file req = Some name ->
  fabricate req = [Respond (JsonResponse 400 [("error", "Unexpected file field")]%string)]
  /\ strip req = [Respond (JsonResponse 400 [("error", "Unexpected file field")]%string)].
Proof.
  intros Hfile Hstray.
  unfold process_fabricate, process_strip, route, upload_single, other_parts.
  rewrite Hfile, Hstray. split; reflexivity.
Qed.

(** X24.  A quality field above the size limit of the multipart parser
    (1 MiB, the default) makes the upload middleware refuse a request whose
    image part is acceptable: on either variant the single response is 400
    with multer's message "Field value too long"; no library is called. *)
Theorem long_quality_rejected (req : Request) (file : File) (quality : string) :
  image_part req = Some file ->
  includes allowedMimes (mimetype file) = true ->
  Z.of_nat (List.length (buffer file)) < fileSize_limit ->
  unexpected_file req = None ->
  body_quality req = Some quality ->
  fieldSize_default < Z.of_nat (String.length quality) ->
  fabricate req = [Respond (JsonResponse 400 [("error", "Field value too long")]%string)]
  /\ strip req = [Respond (JsonResponse 400 [("error", "Field value too long")]%string)].
Proof.
  intros Hfile Htype Hsize Hstray Hq Hlen.
  assert (Hup : upload_single req
                = inl (MulterError "LIMIT_FIELD_VALUE" "Field value too long")).
  { unfold upload_single, other_parts, fileFilter, field_too_long.
    rewrite Hfile, Htype, Hstray, Hq.
    apply Z.ltb_lt in Hlen. rewrite Hlen.
    destruct (Z.ltb_spec fileSize_limit (Z.of_nat (List.length (buffer file))));
      [lia|reflexivity]. }
  unfold process_fabricate, process_strip.
  rewrite !(rejected_route _ _ _ Hup). split; reflexivity.
Qed.

(** X4.  On the fabricating route, when the serializer or the splice of
    the metadata throws, with whatever message, the client gets the single
    response 500 with the two fixed texts; the message of the library goes
    to [console.error] only, and the final encoding is not attempted. *)
Theorem injection_failure_is_opaque (req : Request) (e : Event) (message : string) :
  In e (fabricate req) ->
  match e with
  | PiexifDump record => piexifjs_dump record = Throw message
  | PiexifInsert exifBytes dataUrl => piexifjs_insert exifBytes dataUrl = Throw message
  | _ => False
  end ->
  responses (fabricate req) = [Respond (JsonResponse 500 injection_failed_body)]
  /\ In (ConsoleError "EXIF injection error:" message) (fabricate req)
  /\ (forall call, In (Sharp call) (fabricate req) -> output call = Jpeg 95).
Proof.
  unfold process_fabricate.
  destruct (ServerFacts.route_cases h_fabricate req)
    as [(error & _ & ->) | [(_ & ->) | (file & _ & _ & ->)]].
  - intros [<-|[]] [].
  - intros [<-|[]] [].
  - rewrite fabricate_trace. cbn zeta.
    destruct (sharp_toBuffer _) as [jpeg|e1].
    2:{ intros [<-|[<-|[]]] []. }
    destruct (piexifjs_dump _) as [exifBytes|e2] eqn:E2.
    2:{ intros [<-|[<-|[<-|[<-|[]]]]] Hthrow; try contradiction.
        rewrite E2 in Hthrow. injection Hthrow as <-.
        split; [reflexivity|]. split; [simpl; auto|].
        intros call Hin. pick Hin. injection Hin as <-. reflexivity. }
    destruct (piexifjs_insert _ _) as [inj|e3] eqn:E3.
    2:{ intros [<-|[<-|[<-|[<-|[<-|[]]]]]] Hthrow; try contradiction.
        - rewrite E2 in Hthrow. discriminate Hthrow.
        - rewrite E3 in Hthrow. injection Hthrow as <-.
          split; [reflexivity|]. split; [simpl; auto 6|].
          intros call Hin. pick Hin. injection Hin as <-. reflexivity. }
    destruct (sharp_toBuffer {| input := Buffer_from_base64 _ |}) as [webp|e4].
    + intros [<-|[<-|[<-|[<-|[<-|[]]]]]] Hthrow; try contradiction.
      * rewrite E2 in Hthrow. discriminate Hthrow.
      * rewrite E3 in Hthrow. discriminate Hthrow.
    + intros [<-|[<-|[<-|[<-|[<-|[]]]]]] Hthrow; try contradiction.
      * rewrite E2 in Hthrow. discriminate Hthrow.
      * rewrite E3 in Hthrow. discriminate Hthrow.
Qed.

(** X5.  On the fabricating route, when the final encoding to WebP throws,
    the client gets the single response 500 whose [message] field is the
    message of the codec. *)
Theorem conversion_failure_reports_codec_message (req : Request) (call : SharpCall)
    (quality effort : Z) (message : string) :
  In (Sharp call) (fabricate req) ->
  output call = Webp quality effort ->
  sharp_toBuffer call = Throw message ->
  responses (fabricate req)
  = [Respond (JsonResponse 500
       [("error", "Failed to convert image to WebP"); ("message", message)]%string)].
Proof.
  unfold process_fabricate.
  destruct (ServerFacts.route_cases h_fabricate req)
    as [(error & _ & ->) | [(_ & ->) | (file & _ & _ & ->)]].
  - intros [H|[]]. discriminate H.
  - intros [H|[]]. discriminate H.
  - rewrite fabricate_trace. cbn zeta.
    destruct (sharp_toBuffer _) as [jpeg|e1].
    2:{ intros Hin Hout. pick Hin. injection Hin as <-. discriminate Hout. }
    destruct (piexifjs_dump _) as [exifBytes|e2].
    2:{ intros Hin Hout. pick Hin. injection Hin as <-. discriminate Hout. }
    destruct (piexifjs_insert _ _) as [inj|e3].
    2:{ intros Hin Hout. pick Hin. injection Hin as <-. discriminate Hout. }
    destruct (sharp_toBuffer {| input := Buffer_from_base64 _ |}) as [webp|e4] eqn:E4.
    + intros Hin Hout Hthrow.
      destruct Hin as [Hin|[Hin|[Hin|[Hin|[Hin|[]]]]]]; try discriminate Hin.
      * injection Hin as <-. discriminate Hout.
      * injection Hin as <-. rewrite E4 in Hthrow. discriminate Hthrow.
    + intros Hin Hout Hthrow.
      destruct Hin as [Hin|[Hin|[Hin|[Hin|[Hin|[]]]]]]; try discriminate Hin.
      * injection Hin as <-. discriminate Hout.
      * injection Hin as <-. rewrite E4 in Hthrow. injection Hthrow as <-.
        reflexivity.
Qed.

(** X6.  Whenever image bytes are delivered, on either variant, the
    response declares the type image/webp and, as its length, the number of
    bytes delivered. *)
Theorem delivery_headers (req : Request) (headers : list (string * string))
    (bytes : Buffer) :
  In (Respond (FileResponse headers bytes)) (fabricate req)
  \/ In (Respond (FileResponse headers bytes)) (strip req) ->
  Trace.header "Content-Type" headers = Some "image/webp"%string
  /\ Trace.header "Content-Length" headers
     = Some (decimal_digits (Z.of_nat (List.length bytes))).
Proof.
  assert (Hh : forall name,
             headers = success_headers name bytes ->
             Trace.header "Content-Type" headers = Some "image/webp"%string
             /\ Trace.header "Content-Length" headers
                = Some (decimal_digits (Z.of_nat (List.length bytes)))).
  { intros name ->. split; reflexivity. }
  intros [Hin|Hin].
  - unfold process_fabricate in Hin.
    destruct (ServerFacts.route_cases h_fabricate req)
      as [(error & _ & E) | [(_ & E) | (file & _ & _ & E)]]; rewrite E in Hin.
    + destruct (ServerFacts.error_middleware_json error) as (st & body & Er & _).
      rewrite Er in Hin. pick Hin.
    + pick Hin.
    + rewrite fabricate_trace in Hin. cbn zeta in Hin.
      destruct (sharp_toBuffer _) as [jpeg|e1]; [|pick Hin].
      destruct (piexifjs_dump _) as [exifBytes|e2]; [|pick Hin].
      destruct (piexifjs_insert _ _) as [inj|e3]; [|pick Hin].
      destruct (sharp_toBuffer {| input := Buffer_from_base64 _ |}) as [webp|e4];
        [|pick Hin].
      pick Hin. injection Hin as <- <-. eapply Hh. reflexivity.
  - unfold process_strip in Hin.
    destruct (ServerFacts.route_cases h_strip req)
      as [(error & _ & E) | [(_ & E) | (file & _ & _ & E)]]; rewrite E in Hin.
    + destruct (ServerFacts.error_middleware_json error) as (st & body & Er & _).
      rewrite Er in Hin. pick Hin.
    + pick Hin.
    + rewrite strip_trace in Hin. cbn zeta in Hin.
      destruct (sharp_toBuffer _) as [webp|e]; [|pick Hin].
      pick Hin. injection Hin as <- <-. eapply Hh. reflexivity.
Qed.

(** X7.  On the stripping variant an accepted upload leads to exactly one
    library call: the codec on the uploaded bytes, with [withMetadata(false)],
    to WebP at the effective quality and effort 4.  The metadata library is
    never called. *)
Theorem strip_pipeline (req : Request) (file : File) :
  upload_single req = inr (Some file) ->
  library_calls (strip req)
  = [ Sharp {| input := buffer file; metadata := Some false;
               output := Webp (Quality.effective_quality (body_quality req)) 4 |} ].
Proof.
  intros Hup. unfold process_strip. rewrite (accepted_route _ _ _ Hup), strip_trace.
  cbn zeta. destruct (sharp_toBuffer _); reflexivity.
Qed.

(** X8.  Every WebP encoding either variant asks of the codec has a
    quality between 1 and 100 and the effort 4, whatever the quality field
    of the request holds. *)
Theorem encoder_quality_in_range (req : Request) (call : SharpCall)
    (quality effort : Z) :
  In (Sharp call) (fabricate req) \/ In (Sharp call) (strip req) ->
  output call = Webp quality effort ->
  1 <= quality <= 100 /\ effort = 4.
Proof.
  pose proof (ServerFacts.effective_quality_range (body_quality req)) as Hq.
  intros [Hin|Hin] Hout.
  - unfold process_fabricate in Hin.
    destruct (ServerFacts.route_cases h_fabricate req)
      as [(error & _ & E) | [(_ & E) | (file & _ & _ & E)]]; rewrite E in Hin.
    + pick Hin.
    + pick Hin.
    + rewrite fabricate_trace in Hin. cbn zeta in Hin.
      destruct (sharp_toBuffer _) as [jpeg|e1].
      2:{ pick Hin. injection Hin as <-. discriminate Hout. }
      destruct (piexifjs_dump _) as [exifBytes|e2].
      2:{ pick Hin. injection Hin as <-. discriminate Hout. }
      destruct (piexifjs_insert _ _) as [inj|e3].
      2:{ pick Hin. injection Hin as <-. discriminate Hout. }
      destruct (sharp_toBuffer {| input := Buffer_from_base64 _ |}) as [webp|e4];
        (destruct Hin as [Hin|[Hin|[Hin|[Hin|[Hin|[]]]]]]; try discriminate Hin;
         injection Hin as <-; [discriminate Hout|];
         injection Hout as <- <-; split; [exact Hq|reflexivity]).
  - unfold process_strip in Hin.
    destruct (ServerFacts.route_cases h_strip req)
      as [(error & _ & E) | [(_ & E) | (file & _ & _ & E)]]; rewrite E in Hin.
    + pick Hin.
    + pick Hin.
    + rewrite strip_trace in Hin. cbn zeta in Hin.
      destruct (sharp_toBuffer _) as [webp|e];
        (destruct Hin as [Hin|[Hin|[]]]; try discriminate Hin;
         injection Hin as <-; injection Hout as <- <-; split; [exact Hq|reflexivity]).
Qed.

(** X9.  What a request makes the libraries do depends on the uploaded bytes
    and on the quality field only: two accepted uploads of the same bytes
    with the same quality field lead to the same library calls, whatever
    their declared types and names; with the same name, to the same trace. *)
Theorem calls_depend_on_bytes_and_quality (req1 req2 : Request) (file1 file2 : File) :
  upload_single req1 = inr (Some file1) ->
  upload_single req2 = inr (Some file2) ->
  buffer file1 = buffer file2 ->
  body_quality req1 = body_quality req2 ->
  library_calls (fabricate req1) = library_calls (fabricate req2)
  /\ library_calls (strip req1) = library_calls (strip req2)
  /\ (originalname file1 = originalname file2 ->
      fabricate req1 = fabricate req2 /\ strip req1 = strip req2).
Proof.
  intros Hup1 Hup2 Hbuf Hq.
  unfold process_fabricate, process_strip.
  rewrite !(accepted_route _ _ _ Hup1), !(accepted_route _ _ _ Hup2).
  rewrite !fabricate_trace, !strip_trace. cbn zeta. rewrite Hbuf, Hq.
  split; [|split].
  - unfold library_calls. cbn [filter is_library_call].
    destruct (sharp_toBuffer _) as [jpeg|e1]; [|reflexivity].
    cbn [filter is_library_call].
    destruct (piexifjs_dump _) as [exifBytes|e2]; [|reflexivity].
    cbn [filter is_library_call].
    destruct (piexifjs_insert _ _) as [inj|e3]; [|reflexivity].
    cbn [filter is_library_call].
    destruct (sharp_toBuffer {| input := Buffer_from_base64 _ |}); reflexivity.
  - unfold library_calls. cbn [filter is_library_call].
    destruct (sharp_toBuffer _); reflexivity.
  - intros ->. split; reflexivity.
Qed.

(** X10.  On the fabricating route the final encoding reads the bytes
    decoded from what the splice returned without its data URL prefix: when
    [piexifjs.insert] returns the prefix followed by [payload], the codec is
    called on [Buffer.from(payload, 'base64')]. *)
Theorem final_encoding_reads_spliced_payload (req : Request)
    (exifBytes dataUrl payload : string) :
  In (PiexifInsert exifBytes dataUrl) (fabricate req) ->
  piexifjs_insert exifBytes dataUrl = Ok (data_url_prefix ++ payload)%string ->
  In (Sharp {| input := Buffer_from_base64 payload; metadata := None;
               output := Webp (Quality.effective_quality (body_quality req)) 4 |})
     (fabricate req).
Proof.
  assert (Hstrip : replace_data_url_prefix (data_url_prefix ++ payload) = payload)
    by reflexivity.
  unfold process_fabricate.
  destruct (ServerFacts.route_cases h_fabricate req)
    as [(error & _ & ->) | [(_ & ->) | (file & _ & _ & ->)]].
  - intros [H|[]]. discriminate H.
  - intros [H|[]]. discriminate H.
  - rewrite fabricate_trace. cbn zeta.
    destruct (sharp_toBuffer _) as [jpeg|e1].
    2:{ intros Hin. pick Hin. }
    destruct (piexifjs_dump _) as [bytes|e2].
    2:{ intros Hin. pick Hin. }
    destruct (piexifjs_insert _ _) as [inj|e3] eqn:E3.
    2:{ intros Hin Hok. pick Hin. injection Hin as <- <-.
        rewrite E3 in Hok. discriminate Hok. }
    intros Hin Hok.
    assert (Hinj : inj = (data_url_prefix ++ payload)%string).
    { destruct (sharp_toBuffer {| input := Buffer_from_base64 _ |});
        pick Hin; injection Hin as <- <-; rewrite E3 in Hok;
        injection Hok as ->; reflexivity. }
    subst inj. rewrite Hstrip.
    destruct (sharp_toBuffer {| input := Buffer_from_base64 _ |}); simpl; auto 6.
Qed.

(** X22.  On the fabricating route, once the upload has been decoded (the
    first codec call returned), every failure is reported as a server
    fault: each JSON response then has status 500. *)
Theorem failures_after_decoding_are_server_faults (req : Request) (file : File)
    (jpeg : Buffer) (status : Z) (body : list (string * string)) :
  upload_single req = inr (Some file) ->
  sharp_toBuffer {| input := buffer file; metadata := None; output := Jpeg 95 |}
  = Ok jpeg ->
  In (Respond (JsonResponse status body)) (fabricate req) ->
  status = 500.
Proof.
  intros Hup Hjpeg. unfold process_fabricate.
  rewrite (accepted_route _ _ _ Hup), fabricate_trace. cbn zeta. rewrite Hjpeg.
  destruct (piexifjs_dump _) as [exifBytes|e2].
  2:{ intros Hin. pick Hin. injection Hin as <- _. reflexivity. }
  destruct (piexifjs_insert _ _) as [inj|e3].
  2:{ intros Hin. pick Hin. injection Hin as <- _. reflexivity. }
  destruct (sharp_toBuffer {| input := Buffer_from_base64 _ |}) as [webp|e4].
  - intros Hin. pick Hin.
  - intros Hin. pick Hin. injection Hin as <- _. reflexivity.
Qed.

End Routes.

End PipelineFacts.

(** ** Further properties of the quality field *)

Module QualityFacts.
Import Quality Cases.

Lemma quality_table :
  forallb quality_honoured (map Z.of_nat (seq 1 100)) = true.
Proof. vm_compute. reflexivity. Qed.

(** X11.  Every quality from 1 to 100, written in decimal, is the effective
    quality: the whole documented range but 0 can be requested. *)
Theorem every_quality_can_be_requested (n : Z) :
  1 <= n <= 100 ->
  effective_quality (Some (decimal_digits n)) = n.
Proof.
  intros Hn. pose proof quality_table as H.
  rewrite forallb_forall in H.
  specialize (H n). unfold quality_honoured in H. apply Z.eqb_eq, H.
  apply in_map_iff. exists (Z.to_nat n). split; [lia|].
  apply in_seq. lia.
Qed.

(** A character that is no decimal digit ends the scan in radix 10. *)
Lemma not_decimal_ends_scan (c : ascii) :
  decimal_digit c = false -> digit_in 10 c = None.
Proof.
  unfold decimal_digit, digit_of, digit_in.
  set (n := Z.of_nat (nat_of_ascii c)).
  destruct ((48 <=? n) && (n <=? 57)) eqn:E; [discriminate|]. intros _.
  destruct ((97 <=? n) && (n <=? 122)) eqn:E1.
  { apply andb_prop in E1 as [H1 H2]. apply Z.leb_le in H1.
    destruct (n - 87 <? 10) eqn:E2; [apply Z.ltb_lt in E2; lia|reflexivity]. }
  destruct ((65 <=? n) && (n <=? 90)) eqn:E2.
  { apply andb_prop in E2 as [H1 H2]. apply Z.leb_le in H1.
    destruct (n - 55 <? 10) eqn:E3; [apply Z.ltb_lt in E3; lia|reflexivity]. }
  reflexivity.
Qed.

Lemma scan_int_suffix (radix : Z) (c : ascii) (rest ds : string) (acc : option Z) :
  digit_in radix c = None ->
  scan_int radix (ds ++ String c rest)%string acc = scan_int radix ds acc.
Proof.
  intros Hc. revert acc. induction ds as [|a ds IH]; intros acc.
  - simpl. rewrite Hc. reflexivity.
  - simpl. destruct (digit_in radix a); [apply IH|reflexivity].
Qed.

(** What [parseInt] does with a string that starts with a decimal digit:
    no white space, no sign and, unless an [x] follows a leading zero, no
    radix prefix to skip. *)
Lemma parseInt_digit_first (a : ascii) (s : string) :
  decimal_digit a = true ->
  match s with
  | String b _ => (Ascii.eqb b "x" || Ascii.eqb b "X") = false
  | EmptyString => True
  end ->
  parseInt (Some (String a s)) = scan_int 10 (String a s) None.
Proof.
  intros Ha Hs.
  destruct a as [[] [] [] [] [] [] [] []]; try discriminate Ha;
    try (unfold parseInt; digit_head;
         destruct (scan_int 10 _ None) as [z|]; [f_equal; lia|reflexivity]).
  destruct s as [|b s'].
  - reflexivity.
  - destruct b as [[] [] [] [] [] [] [] []]; try discriminate Hs;
      (unfold parseInt; digit_head;
       destruct (scan_int 10 _ None) as [z|]; [f_equal; lia|reflexivity]).
Qed.

(** X12.  Whatever follows the leading decimal digits of the quality field
    is ignored (a percent sign, a decimal point and fraction, a unit): the
    field reads as its digits alone.  The one exception is the radix prefix
    0x, which is why the character after the digits must not be an x. *)
Theorem quality_ignores_trailing_text (ds rest : string) (c : ascii) :
  ds <> EmptyString -> all_decimal ds = true ->
  decimal_digit c = false ->
  (Ascii.eqb c "x" || Ascii.eqb c "X") = false ->
  parseInt (Some (ds ++ String c rest)%string) = parseInt (Some ds)
  /\ effective_quality (Some (ds ++ String c rest)%string) = effective_quality (Some ds).
Proof.
  intros Hne Hds Hc Hx.
  assert (H : parseInt (Some (ds ++ String c rest)%string) = parseInt (Some ds)).
  { destruct ds as [|a ds']; [contradiction|].
    unfold all_decimal in Hds. cbn [list_ascii_of_string forallb] in Hds.
    apply andb_prop in Hds as [Ha Hds'].
    change (String a ds' ++ String c rest)%string
      with (String a (ds' ++ String c rest)%string).
    rewrite (parseInt_digit_first a (ds' ++ String c rest)%string Ha).
    - rewrite (parseInt_digit_first a ds' Ha).
      + change (String a (ds' ++ String c rest)%string)
          with (String a ds' ++ String c rest)%string.
        apply scan_int_suffix, not_decimal_ends_scan, Hc.
      + destruct ds' as [|b ds'']; [exact I|].
        cbn [list_ascii_of_string forallb] in Hds'. apply andb_prop in Hds' as [Hb _].
        destruct b as [[] [] [] [] [] [] [] []]; try discriminate Hb; reflexivity.
    - destruct ds' as [|b ds'']; [exact Hx|].
      change (String b ds'' ++ String c rest)%string
        with (String b (ds'' ++ String c rest)%string).
      cbn [list_ascii_of_string forallb] in Hds'. apply andb_prop in Hds' as [Hb _].
      destruct b as [[] [] [] [] [] [] [] []]; try discriminate Hb; reflexivity. }
  split; [exact H|]. unfold effective_quality. rewrite H. reflexivity.
Qed.

End QualityFacts.

(** ** Further properties of the suggested file name *)

Module FilenameFacts.
Import Path Spec Cases.

Lemma list_of_append (s t : string) :
  list_ascii_of_string (s ++ t) = list_ascii_of_string s ++ list_ascii_of_string t.
Proof. induction s as [|c s IH]; [reflexivity|]. simpl. f_equal. exact IH. Qed.

Lemma mentions_false (c : ascii) (s : string) :
  mentions c s = false ->
  forallb (fun x => negb (Ascii.eqb x c)) (list_ascii_of_string s) = true.
Proof.
  unfold mentions. induction (list_ascii_of_string s) as [|x l IH]; [reflexivity|].
  cbn [existsb forallb]. intros H. apply orb_false_elim in H as [Hx Hl].
  rewrite Ascii.eqb_sym, Hx. cbn [negb andb]. apply IH, Hl.
Qed.

Lemma no_mention (c : ascii) (l : list ascii) :
  forallb (fun x => negb (Ascii.eqb x c)) l = true ->
  mentions c (string_of_list_ascii l) = false.
Proof.
  unfold mentions. rewrite list_ascii_of_string_of_list_ascii.
  induction l as [|x l IH]; [reflexivity|].
  cbn [existsb forallb]. intros H. apply andb_prop in H as [Hx Hl].
  rewrite Ascii.eqb_sym. apply negb_true_iff in Hx. rewrite Hx. apply IH, Hl.
Qed.

Lemma forallb_rev {A} (p : A -> bool) (l : list A) :
  forallb p (rev l) = forallb p l.
Proof.
  induction l as [|x l IH]; [reflexivity|].
  cbn [rev forallb]. rewrite forallb_app, IH. cbn [forallb].
  rewrite andb_true_r. apply andb_comm.
Qed.

Lemma take_while_id {A} (p : A -> bool) (l : list A) :
  forallb p l = true -> take_while p l = l.
Proof.
  induction l as [|x l IH]; [reflexivity|]. cbn [forallb take_while].
  intros H. apply andb_prop in H as [Hx Hl]. rewrite Hx, IH by exact Hl. reflexivity.
Qed.

Lemma drop_while_none {A} (p : A -> bool) (l : list A) :
  forallb (fun x => negb (p x)) l = true -> drop_while p l = l.
Proof.
  destruct l as [|x l]; [reflexivity|]. cbn [forallb drop_while].
  intros H. apply andb_prop in H as [Hx _]. apply negb_true_iff in Hx.
  rewrite Hx. reflexivity.
Qed.

Lemma take_while_stop {A} (p : A -> bool) (l k : list A) (x : A) :
  forallb p l = true -> p x = false -> take_while p (l ++ x :: k) = l.
Proof.
  induction l as [|y l IH]; cbn [forallb take_while app]; intros Hl Hx.
  - rewrite Hx. reflexivity.
  - apply andb_prop in Hl as [Hy Hl]. rewrite Hy, IH by assumption. reflexivity.
Qed.

Lemma drop_while_stop {A} (p : A -> bool) (l k : list A) (x : A) :
  forallb p l = true -> p x = false -> drop_while p (l ++ x :: k) = x :: k.
Proof.
  induction l as [|y l IH]; cbn [forallb drop_while app]; intros Hl Hx.
  - rewrite Hx. reflexivity.
  - apply andb_prop in Hl as [Hy Hl]. rewrite Hy. apply IH; assumption.
Qed.

Lemma drop_while_all {A} (p : A -> bool) (l : list A) :
  forallb p l = true -> drop_while p l = [].
Proof.
  induction l as [|y l IH]; cbn [forallb drop_while]; intros Hl; [reflexivity|].
  apply andb_prop in Hl as [Hy Hl]. rewrite Hy. apply IH, Hl.
Qed.

(** A name without a separator is its own base name. *)
Lemma basename_plain (l : list ascii) :
  forallb (fun x => negb (is_slash x)) l = true -> basename l = l.
Proof.
  intros H. unfold basename.
  rewrite drop_while_none by (rewrite forallb_rev; exact H).
  rewrite take_while_id by (rewrite forallb_rev; exact H).
  apply rev_involutive.
Qed.

Lemma relative_head (c : ascii) (s : string) :
  is_slash c = false -> prefix "/" (String c s) = false.
Proof.
  unfold is_slash. intros H. cbn [prefix].
  destruct (ascii_dec "/" c) as [E|E]; [|reflexivity].
  subst c. discriminate H.
Qed.

(** The name of [b.ext]. *)
Lemma strip_appended_extension (lb lext : list ascii) :
  lb <> [] ->
  forallb (fun x => negb (is_dot x)) lext = true ->
  ~ (lb = ["."%char] /\ lext = []) ->
  strip_extension (lb ++ "."%char :: lext) = lb.
Proof.
  intros Hne Hext Hexc. unfold strip_extension.
  rewrite rev_app_distr. cbn [rev]. rewrite <- app_assoc. cbn [app].
  rewrite take_while_stop, drop_while_stop
    by (try (rewrite forallb_rev; exact Hext); reflexivity).
  destruct (rev lb) as [|x r] eqn:Er.
  { exfalso. apply Hne. rewrite <- (rev_involutive lb), Er. reflexivity. }
  destruct (forallb is_dot (x :: r) && (List.length (x :: r) =? 1)%nat
            && (List.length (rev lext) =? 0)%nat) eqn:E.
  - exfalso. apply Hexc.
    apply andb_prop in E as [E E3]. apply andb_prop in E as [E1 E2].
    apply Nat.eqb_eq in E2, E3.
    destruct r; [|discriminate E2].
    cbn [forallb] in E1. rewrite andb_true_r in E1. unfold is_dot in E1.
    apply Ascii.eqb_eq in E1. subst x.
    split.
    + rewrite <- (rev_involutive lb), Er. reflexivity.
    + rewrite length_rev in E3. destruct lext; [reflexivity|discriminate E3].
  - rewrite <- Er. apply rev_involutive.
Qed.

Lemma name_with_extension (b ext : string) :
  b <> EmptyString ->
  mentions "/" b = false -> mentions "/" ext = false -> mentions "." ext = false ->
  ~ (b = "."%string /\ ext = EmptyString) ->
  Path.name (b ++ "." ++ ext) = b.
Proof.
  intros Hne Hb Hes Hed Hexc.
  apply mentions_false in Hb, Hes, Hed.
  rewrite PathFacts.name_is_stem.
  2:{ destruct b as [|c b']; [contradiction|].
      change (String c b' ++ "." ++ ext)%string
        with (String c (b' ++ "." ++ ext)%string).
      apply relative_head.
      cbn [list_ascii_of_string forallb] in Hb. apply andb_prop in Hb as [Hc _].
      apply negb_true_iff in Hc. exact Hc. }
  unfold stem. rewrite list_of_append.
  change (list_ascii_of_string ("." ++ ext))
    with ("."%char :: list_ascii_of_string ext).
  rewrite basename_plain.
  2:{ rewrite forallb_app. cbn [forallb]. unfold is_slash.
      rewrite Hb, Hes. reflexivity. }
  rewrite strip_appended_extension.
  - apply string_of_list_ascii_of_string.
  - destruct b; [contradiction|discriminate].
  - exact Hed.
  - intros [E1 E2]. apply Hexc. split.
    + rewrite <- (string_of_list_ascii_of_string b), E1. reflexivity.
    + rewrite <- (string_of_list_ascii_of_string ext), E2. reflexivity.
Qed.

(** The stem of a relative name has no separator and, unless the name is
    empty, is not empty. *)
Lemma strip_extension_sub (p : ascii -> bool) (base : list ascii) :
  forallb p base = true -> forallb p (strip_extension base) = true.
Proof.
  intros H. unfold strip_extension.
  pose proof (PathFacts.take_drop_while (fun c => negb (is_dot c)) (rev base)) as Hsplit.
  destruct (drop_while _ (rev base)) as [|d rstem]; [exact H|].
  destruct rstem as [|x r]; [exact H|].
  destruct (_ && _); [exact H|].
  rewrite forallb_rev.
  rewrite <- forallb_rev, Hsplit, forallb_app in H.
  apply andb_prop in H as [_ H]. cbn [forallb] in H.
  apply andb_prop in H as [_ H]. exact H.
Qed.

Lemma basename_no_slash (l : list ascii) :
  forallb (fun x => negb (is_slash x)) (basename l) = true.
Proof. unfold basename. rewrite forallb_rev. apply PathFacts.take_while_all. Qed.

Lemma strip_extension_nonempty (base : list ascii) :
  base <> [] -> strip_extension base <> [].
Proof.
  intros H. unfold strip_extension.
  destruct (drop_while _ (rev base)) as [|d rstem]; [exact H|].
  destruct rstem as [|x r]; [exact H|].
  destruct (_ && _); [exact H|].
  intros E. apply (f_equal (@rev ascii)) in E. rewrite rev_involutive in E.
  discriminate E.
Qed.

Lemma basename_nonempty (c : ascii) (l : list ascii) :
  is_slash c = false -> basename (c :: l) <> [].
Proof.
  intros Hc. unfold basename. cbn [rev].
  assert (Hd : drop_while is_slash (rev l ++ [c]) <> []).
  { induction (rev l) as [|y r IH]; cbn [app drop_while].
    - rewrite Hc. discriminate.
    - destruct (is_slash y); [exact IH|discriminate]. }
  pose proof (PathFacts.drop_while_head is_slash (rev l ++ [c])) as Hh.
  destruct (drop_while is_slash (rev l ++ [c])) as [|x r]; [contradiction|].
  cbn [take_while]. rewrite Hh. cbn [negb rev].
  intros E. destruct (rev (take_while _ r)); discriminate E.
Qed.

Lemma relative_inv (f : string) :
  prefix "/" f = false ->
  match list_ascii_of_string f with
  | c :: _ => is_slash c = false
  | [] => True
  end.
Proof.
  destruct f as [|c s]; [intros _; exact I|].
  cbn [prefix list_ascii_of_string]. unfold is_slash.
  destruct (ascii_dec "/" c) as [E|E]; intros H.
  - destruct s; discriminate H.
  - destruct (Ascii.eqb_spec c "/"); [congruence|reflexivity].
Qed.

Lemma name_no_slash (f : string) :
  prefix "/" f = false -> mentions "/" (Path.name f) = false.
Proof.
  intros Hrel. rewrite PathFacts.name_is_stem by exact Hrel.
  unfold stem. apply no_mention.
  apply (strip_extension_sub (fun x => negb (Ascii.eqb x "/"))).
  apply basename_no_slash.
Qed.

Lemma name_nonempty (f : string) :
  prefix "/" f = false -> f <> EmptyString -> Path.name f <> EmptyString.
Proof.
  intros Hrel Hne. rewrite PathFacts.name_is_stem by exact Hrel.
  pose proof (relative_inv f Hrel) as Hc.
  unfold stem. destruct (list_ascii_of_string f) as [|c l] eqn:El.
  { exfalso. apply Hne. rewrite <- (string_of_list_ascii_of_string f), El. reflexivity. }
  pose proof (strip_extension_nonempty _ (basename_nonempty c l Hc)) as Hs.
  destruct (strip_extension (basename (c :: l))); [contradiction|discriminate].
Qed.

(** X13.  A name made of a base, a dot and an extension gets the base back:
    for a non-empty base without separator and an extension without dot or
    separator, the suggested name of [base.ext] is [base.webp].  Only the
    last extension goes ([a.tar.gz] gives [a.tar.webp]); the one exception
    is the name [..], which is kept whole. *)
Theorem extension_is_replaced (b ext : string) :
  b <> EmptyString ->
  mentions "/" b = false -> mentions "/" ext = false -> mentions "." ext = false ->
  ~ (b = "."%string /\ ext = EmptyString) ->
  Path.name (b ++ "." ++ ext) = b
  /\ newFilename (b ++ "." ++ ext) = (b ++ ".webp")%string.
Proof.
  intros Hne Hb Hes Hed Hexc.
  pose proof (name_with_extension b ext Hne Hb Hes Hed Hexc) as H.
  split; [exact H|]. unfold newFilename. rewrite H. reflexivity.
Qed.

(** X14.  A name with no separator and no dot, or whose only dot comes
    first, has no extension to strip: the suggested name is the whole name
    followed by [.webp]. *)
Theorem dotless_name_is_kept (f : string) :
  mentions "/" f = false -> dot_only_leading f = true ->
  newFilename f = (f ++ ".webp")%string.
Proof.
  intros Hs Hd. unfold newFilename. f_equal.
  apply mentions_false in Hs.
  destruct f as [|c t]; [reflexivity|].
  rewrite PathFacts.name_is_stem.
  2:{ apply relative_head. cbn [list_ascii_of_string forallb] in Hs.
      apply andb_prop in Hs as [Hc _]. apply negb_true_iff in Hc. exact Hc. }
  unfold stem. rewrite basename_plain by exact Hs.
  rewrite <- (string_of_list_ascii_of_string (String c t)) at 2. f_equal.
  cbn [dot_only_leading] in Hd. apply negb_true_iff, mentions_false in Hd.
  cbn [list_ascii_of_string]. unfold strip_extension. cbn [rev].
  destruct (is_dot c) eqn:Ec.
  - rewrite drop_while_stop by (try (rewrite forallb_rev; exact Hd); rewrite ?Ec; reflexivity).
    reflexivity.
  - rewrite drop_while_all; [reflexivity|].
    rewrite forallb_app, forallb_rev. cbn [forallb]. rewrite Ec.
    unfold is_dot. rewrite Hd. reflexivity.
Qed.

(** X15.  The suggested name holds no path separator, whatever the declared
    name (relative, as the upload middleware reports it). *)
Theorem suggested_name_has_no_separator (f : string) :
  prefix "/" f = false -> mentions "/" (newFilename f) = false.
Proof.
  intros Hrel. pose proof (name_no_slash f Hrel) as H.
  apply mentions_false in H. unfold newFilename.
  rewrite <- (string_of_list_ascii_of_string (Path.name f ++ ".webp")).
  apply no_mention. rewrite list_of_append, forallb_app, H. reflexivity.
Qed.

(** X16.  Naming is stable: for a declared name that is relative and not
    empty, the suggested name of the suggested name is the suggested name
    (an output sent back is offered under the name it has). *)
Theorem newFilename_idempotent (f : string) :
  prefix "/" f = false -> f <> EmptyString ->
  newFilename (newFilename f) = newFilename f.
Proof.
  intros Hrel Hne.
  assert (H : Path.name (Path.name f ++ "." ++ "webp") = Path.name f).
  { apply name_with_extension; try reflexivity.
    - apply name_nonempty; assumption.
    - apply name_no_slash, Hrel.
    - intros [_ E]. discriminate E. }
  change ("." ++ "webp")%string with ".webp"%string in H.
  unfold newFilename. rewrite H. reflexivity.
Qed.

End FilenameFacts.

(** ** Further properties of the coordinate encoder *)

Module EncoderFacts.
Import Approx Rounding Values Arith Encoder Cases.
Local Open Scope Q_scope.

Lemma pow2_m110 : pow2 (-110) == 1 # 1298074214633706907132624082305024.
Proof. reflexivity. Qed.

Lemma mag_one (e : Z) : mag 1 e == pow2 e.
Proof. unfold mag. change (inject_Z 1) with 1. ring. Qed.

Lemma mag_top : mag (2 ^ 53 - 1) (-53) == 1 - u.
Proof. unfold mag. fold u. rewrite u_value. reflexivity. Qed.

Lemma mag_unit : mag (2 ^ 53) (-53) == 1.
Proof. unfold mag. fold u. rewrite u_value. reflexivity. Qed.

Local Opaque pow2.

Lemma eta_tiny : eta <= 1 # 1298074214633706907132624082305024.
Proof.
  rewrite <- pow2_m110. unfold eta. apply pow2_le. lia.
Qed.

(** The greatest Number below 1 is [1 - u]. *)
Lemma below_one (x : number) : finite x -> value x < 1 -> value x <= 1 - u.
Proof.
  intros Hx Hlt. pose proof u_value as Hu.
  destruct (finite_inv x Hx) as [(s & ->)|(s & m & e & -> & Hc & _)].
  - cbn [value]. rewrite Hu. lra.
  - rewrite value_finite in *. pose proof (mag_pos m e) as Hm.
    destruct s; cbn [sgn] in *; [rewrite Hu; lra|].
    destruct (canonical_bounds m e Hc) as (_ & Hm53 & _).
    destruct (Z.le_gt_cases (-53) e) as [He|He].
    + assert (Hs : mag (Zpos m * 2 ^ (e + 53)) (-53) == mag (Zpos m) e).
      { rewrite mag_shift by lia. replace (e + 53 + -53)%Z with e by lia. reflexivity. }
      assert (HN : (Zpos m * 2 ^ (e + 53) <= 2 ^ 53 - 1)%Z).
      { destruct (Z.le_gt_cases (2 ^ 53) (Zpos m * 2 ^ (e + 53))) as [Hge|]; [|lia].
        exfalso. apply (mag_le _ _ (-53)) in Hge. rewrite Hs, mag_unit in Hge. lra. }
      apply (mag_le _ _ (-53)) in HN. rewrite Hs, mag_top in HN. lra.
    + assert (H1 : mag (Zpos m) e <= mag (2 ^ 53) e) by (apply mag_le; lia).
      assert (H2 : mag (2 ^ 53) e == pow2 (53 + e)).
      { rewrite <- (Z.mul_1_l (2 ^ 53)), mag_shift by lia. apply mag_one. }
      assert (H3 : pow2 (53 + e) <= pow2 (-1)) by (apply pow2_le; lia).
      rewrite pow2_m1 in H3. rewrite Hu. lra.
Qed.

(** The product that the minutes are the floor of stays below 60. *)
Lemma minutes_product (a : number) :
  finite a -> sign_of a = false ->
  value (mul (sub a (Spec.degrees a)) (of_Z 60)) < 60.
Proof.
  intros Ha Hs. pose proof u_value as Hu. pose proof eta_tiny as Heta.
  destruct (floor_spec a Ha Hs) as (_ & Hvd & _ & _ & _).
  destruct (frac_exact a Ha Hs) as (Hff & Hvf & Hsf).
  unfold Spec.degrees.
  set (f := sub a (Math_floor a)) in *.
  pose proof (Qfloor_le (value a)) as Hlo. pose proof (Qlt_floor (value a)) as Hhi.
  rewrite inject_Z_plus in Hhi. change (inject_Z 1) with 1 in Hhi.
  assert (Hf0 : 0 <= value f) by (rewrite Hvf, Hvd; lra).
  assert (Hf1 : value f <= 1 - u) by (apply below_one; [exact Hff|rewrite Hvf, Hvd; lra]).
  rewrite Hu in Hf1.
  destruct (small_constant 60 ltac:(lia)) as (Hf60 & Hv60 & _).
  change (inject_Z 60) with 60 in Hv60.
  assert (Hp : rounded (value f * value (of_Z 60)) (mul f (of_Z 60))).
  { apply mul_rounded; [assumption|assumption|]. rewrite Hv60.
    apply Qabs_lt_1023; lra. }
  pose proof (rounded_within _ (60 * (1 - (1 # 9007199254740992))) _ Hp
                ltac:(rewrite Hv60; apply Qabs_le_intro; lra)) as Hpw.
  rewrite Hv60, Hu in Hpw. lra.
Qed.

(** One axis: the triplet is well formed. *)
Lemma axis_well_formed (x : number) :
  finite x ->
  exists str,
    toFixed2 (Spec.seconds (Math_abs x)) = Some str
    /\ well_formed [ (Spec.degrees (Math_abs x), of_Z 1);
                     (Spec.minutes (Math_abs x), of_Z 1);
                     (Math_round (mul (parseFloat str) (of_Z 100)), of_Z 100) ].
Proof.
  intros Hx. destruct (abs_spec x Hx) as (Ha & Hsa & _).
  destruct (axis_analysis (Math_abs x) Ha Hsa)
    as (kd & km & Hkd & Hkm & Hd0 & [Hm0 _] & Hfd & Hvd & Hfm & Hvm & Hfs & Hrange & _).
  destruct (seconds_numerator _ Hfs Hrange)
    as (str & kn & Hstr & Hn & _ & Hfn & Hvn & _).
  pose proof (minutes_product (Math_abs x) Ha Hsa) as Hlt.
  assert (Hm59 : (km <= 59)%Z).
  { pose proof (Qfloor_le (value (mul (sub (Math_abs x) (Spec.degrees (Math_abs x)))
                                      (of_Z 60)))) as Hle.
    rewrite <- Hkm in Hle.
    assert (inject_Z km < inject_Z 60) by (change (inject_Z 60) with 60; lra).
    rewrite <- Zlt_Qlt in H. lia. }
  exists str. split; [exact Hstr|].
  exists kd, km, kn. split.
  - eexists _, _, _. split; [reflexivity|]. repeat (split; [assumption|]). assumption.
  - repeat split; lia.
Qed.

(** X17.  For finite inputs both triplets are well formed: each entry is
    an integral Number over the denominators 1, 1 and 100, the degrees are
    not negative, the minutes lie in 0..59 (the floor never reaches 60) and
    the hundredths of seconds in 0..6000. *)
Theorem triplets_are_well_formed (latitude longitude : number) :
  finite latitude -> finite longitude ->
  exists r,
    convertGPSToExif latitude longitude = Some r
    /\ well_formed (lat r) /\ well_formed (lng r).
Proof.
  intros Hlat Hlng.
  destruct (axis_well_formed latitude Hlat) as (s1 & Hs1 & Hw1).
  destruct (axis_well_formed longitude Hlng) as (s2 & Hs2 & Hw2).
  rewrite convertGPSToExif_unfold, Hs1, Hs2.
  eexists. split; [reflexivity|]. split; assumption.
Qed.

(** *** The sign *)

Lemma abs_neg (x : number) : Math_abs (neg x) = Math_abs x.
Proof. destruct x; reflexivity. Qed.

Lemma neg_finite (x : number) :
  finite x -> finite (neg x) /\ value (neg x) == - value x.
Proof.
  intros Hx.
  destruct (finite_inv x Hx) as [(s & ->)|(s & m & e & -> & _)].
  - split; [split; reflexivity|]. cbn [value neg SFopp]. ring.
  - split; [split; [reflexivity|exact (proj2 Hx)]|].
    cbn [neg SFopp]. rewrite !value_finite. destruct s; cbn [negb sgn]; ring.
Qed.

Lemma ge_zero_neg (x : number) :
  finite x -> ~ value x == 0 -> ge (neg x) (of_Z 0) = negb (ge x (of_Z 0)).
Proof.
  intros Hx Hnz. destruct (neg_finite x Hx) as (Hn & Hv).
  rewrite (ge_zero _ Hn), (ge_zero _ Hx).
  destruct (Qle_bool 0 (value x)) eqn:E1; destruct (Qle_bool 0 (value (neg x))) eqn:E2;
    try reflexivity; exfalso.
  - apply Qle_bool_iff in E1, E2. rewrite Hv in E2. apply Hnz. lra.
  - assert (value x < 0).
    { apply Qnot_le_lt. intros H. apply Qle_bool_iff in H. congruence. }
    assert (value (neg x) < 0).
    { apply Qnot_le_lt. intros H'. apply Qle_bool_iff in H'. congruence. }
    rewrite Hv in H0. lra.
Qed.

(** X18.  The triplets depend on the absolute values only: negating an
    input changes neither triplet, nor the reference of the other axis, and
    flips the reference of its own axis unless the input is a zero. *)
Theorem negation_flips_the_reference_only (latitude longitude : number) (r : GpsData) :
  convertGPSToExif latitude longitude = Some r ->
  (exists r',
     convertGPSToExif (neg latitude) longitude = Some r'
     /\ lat r' = lat r /\ lng r' = lng r /\ lngRef r' = lngRef r
     /\ (finite latitude -> ~ value latitude == 0 -> latRef r' <> latRef r))
  /\ (exists r',
        convertGPSToExif latitude (neg longitude) = Some r'
        /\ lat r' = lat r /\ lng r' = lng r /\ latRef r' = latRef r
        /\ (finite longitude -> ~ value longitude == 0 -> lngRef r' <> lngRef r)).
Proof.
  rewrite !convertGPSToExif_unfold, !abs_neg.
  destruct (toFixed2 (Spec.seconds (Math_abs latitude))) as [s1|]; [|discriminate].
  destruct (toFixed2 (Spec.seconds (Math_abs longitude))) as [s2|]; [|discriminate].
  intros H. injection H as <-. cbn [lat lng latRef lngRef].
  split.
  - eexists. split; [reflexivity|]. cbn [lat lng latRef lngRef].
    repeat (split; [reflexivity|]).
    intros Hf Hnz. rewrite (ge_zero_neg _ Hf Hnz).
    change (S754_zero false) with (of_Z 0).
    destruct (ge latitude (of_Z 0)); cbn [negb]; discriminate.
  - eexists. split; [reflexivity|]. cbn [lat lng latRef lngRef].
    repeat (split; [reflexivity|]).
    intros Hf Hnz. rewrite (ge_zero_neg _ Hf Hnz).
    change (S754_zero false) with (of_Z 0).
    destruct (ge longitude (of_Z 0)); cbn [negb]; discriminate.
Qed.

(** *** Whole degrees *)

Lemma zero_of_value (x : number) :
  finite x -> sign_of x = false -> value x == 0 -> x = S754_zero false.
Proof.
  intros Hx Hs Hv.
  destruct (finite_inv x Hx) as [(s & ->)|(s & m & e & -> & _)];
    cbn [sign_of] in Hs; subst s; [reflexivity|].
  exfalso. rewrite value_finite in Hv. cbn [sgn] in Hv.
  pose proof (mag_pos m e). lra.
Qed.

Lemma whole_axis (x : number) (k : Z) :
  finite x -> value x == inject_Z k ->
  toFixed2 (Spec.seconds (Math_abs x)) = Some "0.00"%string
  /\ Spec.minutes (Math_abs x) = S754_zero false
  /\ value (Spec.degrees (Math_abs x)) == inject_Z (Z.abs k).
Proof.
  intros Hx Hk. destruct (abs_spec x Hx) as (Ha & Hsa & Hva).
  destruct (floor_spec _ Ha Hsa) as (_ & Hvd & _ & _ & _).
  destruct (frac_exact _ Ha Hsa) as (Hff & Hvf & Hsf).
  assert (Habs : value (Math_abs x) == inject_Z (Z.abs k)).
  { rewrite Hva, Hk. reflexivity. }
  assert (Hfl : Qfloor (value (Math_abs x)) = Z.abs k).
  { rewrite Habs. apply Qfloor_Z. }
  rewrite Hfl in Hvd.
  assert (Hf0 : sub (Math_abs x) (Math_floor (Math_abs x)) = S754_zero false).
  { apply zero_of_value; [exact Hff|exact Hsf|]. rewrite Hvf, Hvd, Habs. ring. }
  unfold Spec.seconds, Spec.minutes, Spec.degrees. rewrite Hf0.
  split; [reflexivity|]. split; [reflexivity|exact Hvd].
Qed.

(** X19.  A finite input that is a whole number of degrees is encoded
    without any error: its triplet is (|k|, 0, 0) and the value rebuilt from
    the reference and the triplet is the input itself. *)
Theorem whole_degrees_are_exact (latitude longitude : number) (k : Z) :
  finite latitude -> finite longitude ->
  value latitude == inject_Z k ->
  exists r d,
    convertGPSToExif latitude longitude = Some r
    /\ lat r = [ (d, of_Z 1); (S754_zero false, of_Z 1); (S754_zero false, of_Z 100) ]
    /\ value d == inject_Z (Z.abs k)
    /\ Spec.reconstruct (latRef r) (lat r) == value latitude.
Proof.
  intros Hlat Hlng Hk.
  destruct (whole_axis latitude k Hlat Hk) as (Hs1 & Hm1 & Hd1).
  destruct (encode_axis longitude Hlng) as (s2 & _ & _ & _ & Hs2 & _).
  rewrite convertGPSToExif_unfold, Hs1, Hs2, Hm1.
  eexists. exists (Spec.degrees (Math_abs latitude)).
  split; [reflexivity|]. cbn [lat latRef].
  change (Math_round (mul (parseFloat "0.00") (of_Z 100))) with (S754_zero false).
  split; [reflexivity|]. split; [exact Hd1|].
  rewrite (reconstruct_triplet _ _ _ _ (Z.abs k) 0 0 Hd1)
    by (cbn [value]; reflexivity).
  rewrite (ge_zero _ Hlat).
  change (inject_Z 0) with 0.
  destruct (Qle_bool 0 (value latitude)) eqn:E.
  - apply Qle_bool_iff in E. rewrite Hk in E. rewrite Hk.
    change 0 with (inject_Z 0) in E. rewrite <- Zle_Qle in E.
    rewrite Z.abs_eq by exact E.
    change (String.eqb "N" "S" || String.eqb "N" "W")%bool with false. cbn iota. ring.
  - assert (Hneg : (k < 0)%Z).
    { destruct (Z.lt_ge_cases k 0) as [|Hge]; [assumption|].
      exfalso. rewrite Zle_Qle in Hge. rewrite <- Hk in Hge.
      apply Qle_bool_iff in Hge. change (inject_Z 0) with 0 in Hge. congruence. }
    rewrite Hk. rewrite Z.abs_neq by lia. rewrite inject_Z_opp.
    change (String.eqb "S" "S" || String.eqb "S" "W")%bool with true. cbn iota. ring.
Qed.

(** *** Inputs that are not numbers of degrees *)

(** X20.  The encoder rejects nothing: for a latitude that is NaN or an
    infinity it still returns a record, whose minutes and seconds are NaN
    and whose degrees are the absolute value of the input; the reference is
    N for plus infinity and S otherwise (NaN compares false with 0). *)
Theorem non_finite_latitude_is_encoded (latitude longitude : number) :
  is_finite latitude = false -> finite longitude ->
  exists r,
    convertGPSToExif latitude longitude = Some r
    /\ lat r = [ (Math_abs latitude, of_Z 1); (NaN, of_Z 1); (NaN, of_Z 100) ]
    /\ latRef r = match latitude with
                  | S754_infinity false => "N"%string
                  | _ => "S"%string
                  end.
Proof.
  intros Hnf Hlng.
  destruct (encode_axis longitude Hlng) as (s2 & _ & _ & _ & Hs2 & _).
  rewrite convertGPSToExif_unfold, Hs2.
  destruct latitude as [s|s| |s m e]; try discriminate Hnf.
  - destruct s; eexists; (split; [reflexivity|]); split; reflexivity.
  - eexists; (split; [reflexivity|]); split; reflexivity.
Qed.

End EncoderFacts.

(** ** The further properties on sample requests *)

Module Instances.
Import Server Trace Cases.

Local Abbreviation echo_fabricate :=
  (process_fabricate echo_sharp echo_dump echo_insert echo_base64 echo_from_base64).

Lemma sample_jpeg :
  echo_sharp {| input := buffer sample_file; metadata := None; output := Jpeg 95 |}
  = Ok (buffer sample_file).
Proof. reflexivity. Qed.

Lemma unsupported_type_rejected_witness :
  echo_fabricate gif_request
  = [Respond (JsonResponse 400 [("error", invalid_type_message)]%string)]
  /\ process_strip echo_sharp gif_request
     = [Respond (JsonResponse 400 [("error", invalid_type_message)]%string)].
Proof.
  apply (PipelineFacts.unsupported_type_rejected echo_sharp echo_dump echo_insert
           echo_base64 echo_from_base64 gif_request
           {| originalname := "anim.gif"; mimetype := "image/gif";
              buffer := list_byte_of_string "GIF89a" |}); reflexivity.
Defined.

Lemma oversized_upload_rejected_witness :
  echo_fabricate big_request
  = [Respond (JsonResponse 400 [("error", too_large_message)]%string)]
  /\ process_strip echo_sharp big_request
     = [Respond (JsonResponse 400 [("error", too_large_message)]%string)].
Proof.
  apply (PipelineFacts.oversized_upload_rejected echo_sharp echo_dump echo_insert
           echo_base64 echo_from_base64 big_request big_file).
  - reflexivity.
  - reflexivity.
  - unfold big_file. cbn [buffer]. rewrite repeat_length, Z2Nat.id.
    + lia.
    + unfold fileSize_limit. lia.
Defined.

Lemma missing_file_rejected_witness :
  echo_fabricate empty_request
  = [Respond (JsonResponse 400 [("error", no_file_message)]%string)]
  /\ process_strip echo_sharp empty_request
     = [Respond (JsonResponse 400 [("error", no_file_message)]%string)].
Proof.
  apply (PipelineFacts.missing_file_rejected echo_sharp echo_dump echo_insert
           echo_base64 echo_from_base64 empty_request); reflexivity.
Defined.

Lemma unexpected_file_rejected_witness :
  echo_fabricate stray_request
  = [Respond (JsonResponse 400 [("error", "Unexpected file field")]%string)]
  /\ process_strip echo_sharp stray_request
     = [Respond (JsonResponse 400 [("error", "Unexpected file field")]%string)].
Proof.
  apply (PipelineFacts.unexpected_file_rejected echo_sharp echo_dump echo_insert
           echo_base64 echo_from_base64 stray_request "photo"); reflexivity.
Defined.

Lemma long_quality_rejected_witness :
  echo_fabricate long_quality_request
  = [Respond (JsonResponse 400 [("error", "Field value too long")]%string)]
  /\ process_strip echo_sharp long_quality_request
     = [Respond (JsonResponse 400 [("error", "Field value too long")]%string)].
Proof.
  apply (PipelineFacts.long_quality_rejected echo_sharp echo_dump echo_insert
           echo_base64 echo_from_base64 long_quality_request sample_file long_text).
  - reflexivity.
  - reflexivity.
  - reflexivity.
  - reflexivity.
  - reflexivity.
  - rewrite Examples.long_text_length. lia.
Defined.

Lemma injection_failure_is_opaque_witness :
  responses (process_fabricate echo_sharp failing_dump echo_insert echo_base64
               echo_from_base64 sample_request)
  = [Respond (JsonResponse 500 injection_failed_body)]
  /\ In (ConsoleError "EXIF injection error:" "pack error")
        (process_fabricate echo_sharp failing_dump echo_insert echo_base64
           echo_from_base64 sample_request)
  /\ (forall call,
        In (Sharp call)
           (process_fabricate echo_sharp failing_dump echo_insert echo_base64
              echo_from_base64 sample_request) ->
        output call = Jpeg 95).
Proof.
  apply (PipelineFacts.injection_failure_is_opaque echo_sharp failing_dump echo_insert
           echo_base64 echo_from_base64 sample_request
           (PiexifDump Spec.fixed_record) "pack error").
  - vm_compute. auto 10.
  - reflexivity.
Defined.

Lemma conversion_failure_witness :
  responses (process_fabricate failing_webp echo_dump echo_insert echo_base64
               echo_from_base64 sample_request)
  = [Respond (JsonResponse 500
       [("error", "Failed to convert image to WebP");
        ("message", "VipsOperation: webpsave failed")]%string)].
Proof.
  apply (PipelineFacts.conversion_failure_reports_codec_message failing_webp echo_dump
           echo_insert echo_base64 echo_from_base64 sample_request
           {| input := echo_from_base64
                         (replace_data_url_prefix
                            (data_url_prefix ++ echo_base64 (buffer sample_file)));
              metadata := None; output := Webp 90 4 |} 90 4).
  - vm_compute. auto 10.
  - reflexivity.
  - reflexivity.
Defined.

Lemma delivery_headers_witness :
  Trace.header "Content-Type"
    (success_headers "holiday.photo.webp" (buffer sample_file))
  = Some "image/webp"%string
  /\ Trace.header "Content-Length"
       (success_headers "holiday.photo.webp" (buffer sample_file))
     = Some (decimal_digits (Z.of_nat (List.length (buffer sample_file)))).
Proof.
  apply (PipelineFacts.delivery_headers echo_sharp echo_dump echo_insert
           echo_base64 echo_from_base64 sample_request).
  left. vm_compute. auto 10.
Defined.

Lemma strip_pipeline_witness :
  library_calls (process_strip echo_sharp sample_request)
  = [ Sharp {| input := buffer sample_file; metadata := Some false;
               output := Webp (Quality.effective_quality (body_quality sample_request)) 4 |} ].
Proof.
  apply (PipelineFacts.strip_pipeline echo_sharp sample_request sample_file).
  reflexivity.
Defined.

Lemma encoder_quality_in_range_witness : 1 <= 90 <= 100 /\ 4 = 4.
Proof.
  apply (PipelineFacts.encoder_quality_in_range echo_sharp echo_dump echo_insert
           echo_base64 echo_from_base64
           (with_quality sample_request (Some "90%"%string))
           {| input := buffer sample_file; metadata := Some false;
              output := Webp 90 4 |} 90 4).
  - right. vm_compute. auto.
  - reflexivity.
Defined.

Lemma calls_depend_on_bytes_witness :
  library_calls (echo_fabricate sample_request)
  = library_calls (echo_fabricate (with_file sample_request renamed_file))
  /\ library_calls (process_strip echo_sharp sample_request)
     = library_calls (process_strip echo_sharp (with_file sample_request renamed_file))
  /\ (originalname sample_file = originalname renamed_file ->
      echo_fabricate sample_request = echo_fabricate (with_file sample_request renamed_file)
      /\ process_strip echo_sharp sample_request
         = process_strip echo_sharp (with_file sample_request renamed_file)).
Proof.
  apply (PipelineFacts.calls_depend_on_bytes_and_quality echo_sharp echo_dump echo_insert
           echo_base64 echo_from_base64 sample_request
           (with_file sample_request renamed_file) sample_file renamed_file);
    reflexivity.
Defined.

Lemma final_encoding_witness :
  In (Sharp {| input := echo_from_base64 (echo_base64 (buffer sample_file));
               metadata := None;
               output := Webp (Quality.effective_quality (body_quality sample_request)) 4 |})
     (echo_fabricate sample_request).
Proof.
  apply (PipelineFacts.final_encoding_reads_spliced_payload echo_sharp echo_dump
           echo_insert echo_base64 echo_from_base64 sample_request
           "Exif" (data_url_prefix ++ echo_base64 (buffer sample_file))
           (echo_base64 (buffer sample_file))).
  - vm_compute. auto 10.
  - reflexivity.
Defined.

Lemma client_faults_witness :
  exists text,
    [("error", corrupted_message)]%string = [("error", text)]%string
    /\ (In text [ no_file_message; corrupted_message; invalid_type_message;
                  "File size too large. Maximum size is 50MB."%string ]
        \/ exists code, upload_single sample_request = inl (MulterError code text)).
Proof.
  apply (ServerFacts.fabricate_client_faults_are_opaque rejecting_sharp echo_dump
           echo_insert echo_base64 echo_from_base64 sample_request 400).
  - vm_compute. auto.
  - reflexivity.
Defined.

Lemma server_fault_witness : 500 = 500.
Proof.
  apply (PipelineFacts.failures_after_decoding_are_server_faults echo_sharp failing_dump
           echo_insert echo_base64 echo_from_base64 sample_request sample_file
           (buffer sample_file) 500 injection_failed_body).
  - reflexivity.
  - reflexivity.
  - vm_compute. auto 10.
Defined.

Lemma every_quality_witness :
  Quality.effective_quality (Some (decimal_digits 42)) = 42.
Proof. apply QualityFacts.every_quality_can_be_requested. lia. Defined.

Lemma trailing_text_witness :
  Quality.parseInt (Some ("80" ++ String "%" "")%string) = Quality.parseInt (Some "80"%string)
  /\ Quality.effective_quality (Some ("80" ++ String "%" "")%string)
     = Quality.effective_quality (Some "80"%string).
Proof.
  apply QualityFacts.quality_ignores_trailing_text; try reflexivity. discriminate.
Defined.

Lemma extension_witness :
  Path.name ("a.tar" ++ "." ++ "gz") = "a.tar"%string
  /\ newFilename ("a.tar" ++ "." ++ "gz") = ("a.tar" ++ ".webp")%string.
Proof.
  apply FilenameFacts.extension_is_replaced; try reflexivity.
  - discriminate.
  - intros [E _]. discriminate E.
Defined.

Lemma dotless_witness : newFilename ".bashrc" = (".bashrc" ++ ".webp")%string.
Proof. apply FilenameFacts.dotless_name_is_kept; reflexivity. Defined.

Lemma separator_witness : mentions "/" (newFilename "photos/cat.png") = false.
Proof. apply FilenameFacts.suggested_name_has_no_separator. reflexivity. Defined.

Lemma idempotent_witness :
  newFilename (newFilename "holiday.photo.png") = newFilename "holiday.photo.png".
Proof.
  apply FilenameFacts.newFilename_idempotent; [reflexivity|discriminate].
Defined.

Lemma well_formed_witness :
  exists r,
    convertGPSToExif GPSLatitude GPSLongitude = Some r
    /\ well_formed (lat r) /\ well_formed (lng r).
Proof.
  exact (EncoderFacts.triplets_are_well_formed GPSLatitude GPSLongitude
           (proj1 Encoder.fixed_coordinates_finite)
           (proj2 Encoder.fixed_coordinates_finite)).
Defined.

Lemma fixed_gps_encoded : convertGPSToExif GPSLatitude GPSLongitude = Some fixed_gps.
Proof. vm_compute. reflexivity. Qed.

Lemma negation_witness :
  (exists r',
     convertGPSToExif (neg GPSLatitude) GPSLongitude = Some r'
     /\ lat r' = lat fixed_gps /\ lng r' = lng fixed_gps /\ lngRef r' = lngRef fixed_gps
     /\ (finite GPSLatitude -> ~ (value GPSLatitude == 0)%Q -> latRef r' <> latRef fixed_gps))
  /\ (exists r',
        convertGPSToExif GPSLatitude (neg GPSLongitude) = Some r'
        /\ lat r' = lat fixed_gps /\ lng r' = lng fixed_gps /\ latRef r' = latRef fixed_gps
        /\ (finite GPSLongitude -> ~ (value GPSLongitude == 0)%Q ->
            lngRef r' <> lngRef fixed_gps)).
Proof.
  exact (EncoderFacts.negation_flips_the_reference_only GPSLatitude GPSLongitude
           fixed_gps fixed_gps_encoded).
Defined.

Lemma whole_degrees_witness :
  exists r d,
    convertGPSToExif (of_Z (-45)) GPSLongitude = Some r
    /\ lat r = [ (d, of_Z 1); (S754_zero false, of_Z 1); (S754_zero false, of_Z 100) ]
    /\ (value d == inject_Z (Z.abs (-45)))%Q
    /\ (Spec.reconstruct (latRef r) (lat r) == value (of_Z (-45)))%Q.
Proof.
  apply (EncoderFacts.whole_degrees_are_exact (of_Z (-45)) GPSLongitude (-45)).
  - split; reflexivity.
  - exact (proj2 Encoder.fixed_coordinates_finite).
  - reflexivity.
Defined.

Lemma non_finite_witness :
  exists r,
    convertGPSToExif NaN GPSLongitude = Some r
    /\ lat r = [ (Math_abs NaN, of_Z 1); (NaN, of_Z 1); (NaN, of_Z 100) ]
    /\ latRef r = "S"%string.
Proof.
  apply (EncoderFacts.non_finite_latitude_is_encoded NaN GPSLongitude).
  - reflexivity.
  - exact (proj2 Encoder.fixed_coordinates_finite).
Defined.

End Instances.
